(** * SerialMux: a shallow embedding of [SerialMux.py]

    The multiplexer relays bytes between one real serial device and a list
    of pseudo-terminal endpoints ("vports").  The program is an event loop
    whose every decision depends on what the operating system answers, so
    the embedding is a state-and-exception monad over the program state,
    run against an environment that fixes the answer of every system call.
    Each call and each logger call is appended to a trace. *)

From Stdlib Require Import ZArith String List Bool Lia PrimFloat.
From stdpp Require Import base list.
Import ListNotations.

Local Open Scope Z_scope.

(** ** Data *)

Definition bytes := list Byte.byte.

(** A [serial.Serial] object; the integer names the object. *)
Definition Serial := Z.

(** [errno] constants (Linux values); only their being distinct matters. *)
Definition EINTR : Z := 4.
Definition EIO : Z := 5.
Definition EBADF : Z := 9.
Definition EAGAIN : Z := 11.

Definition O_NONBLOCK : Z := 2048.

(** Python exceptions the program can meet.  [serial.SerialException]
    derives from [OSError]; it carries no [errno] the program looks at.
    An [OSError] whose errno is [EINTR] is an [InterruptedError]. *)
Inductive exn : Type :=
| OSError (errno : Z)
| SerialException
| OtherError
| SystemExit (code : Z).

Definition isinstance_OSError (e : exn) : bool :=
  match e with OSError _ | SerialException => true | _ => false end.

Definition isinstance_SerialException (e : exn) : bool :=
  match e with SerialException => true | _ => false end.

Definition isinstance_InterruptedError (e : exn) : bool :=
  match e with OSError n => n =? EINTR | _ => false end.

Definition isinstance_Exception (e : exn) : bool :=
  match e with SystemExit _ => false | _ => true end.

(** [getattr(e, 'errno', None)] *)
Definition errno_of (e : exn) : option Z :=
  match e with OSError n => Some n | _ => None end.

Definition errno_is (e : exn) (n : Z) : bool :=
  match errno_of e with Some m => m =? n | None => false end.

(** The dict returned by [create_vport]. *)
Record vport : Type := mk_vport {
  master_fd : Z;
  path : string;
  slave_name : string;
  alive : bool;
  idle : bool
}.

Definition set_alive (b : bool) (v : vport) : vport :=
  mk_vport (master_fd v) (path v) (slave_name v) b (idle v).

Definition set_idle (b : bool) (v : vport) : vport :=
  mk_vport (master_fd v) (path v) (slave_name v) (alive v) b.

(** ** System calls, log records and the trace *)

(** Calls that may raise. *)
Inductive call : Type :=
| os_unlink (p : string)
| os_openpty
| tty_setraw (fd : Z)
| os_ttyname (fd : Z)
| os_chmod (p : string) (mode : Z)
| os_symlink (src dst : string)
| os_close (fd : Z)
| fcntl_getfl (fd : Z)
| fcntl_setfl (fd : Z) (flags : Z)
| os_read (fd : Z) (n : Z)
| os_write (fd : Z) (data : bytes)
| select_select (rlist : list Z) (timeout : float)
| serial_Serial (port : string) (baud : Z)
| ser_fileno (s : Serial)
| ser_in_waiting (s : Serial)
| ser_read (s : Serial) (n : Z)
| ser_write (s : Serial) (data : bytes)
| ser_close (s : Serial).

(** What a call returns when it does not raise. *)
Definition resp (c : call) : Type :=
  match c with
  | os_unlink _ | tty_setraw _ | os_chmod _ _ | os_symlink _ _
  | os_close _ | fcntl_setfl _ _ | ser_close _ => unit
  | os_openpty => (Z * Z)%type
  | os_ttyname _ => string
  | fcntl_getfl _ | os_write _ _ | ser_fileno _ | ser_in_waiting _
  | ser_write _ _ => Z
  | os_read _ _ | ser_read _ _ => bytes
  | select_select _ _ => list Z
  | serial_Serial _ _ => Serial
  end.

Inductive level : Type := DEBUG | INFO | WARNING.

(** One constructor per [log.*] call site of the source. *)
Inductive message : Type :=
| msg_vport_created (p sl : string) (master : Z)
| msg_recreating (p : string)
| msg_serial_opened (port : string) (fd : Z)
| msg_open_failed (port : string) (e : exn)
| msg_shutting_down
| msg_removed_symlink (p : string)
| msg_opening_real (port : string) (baud : Z)
| msg_running
| msg_serial_read_failed (e : exn)
| msg_device_to_vports (n : Z)
| msg_write_skipped (p : string) (errno : Z)
| msg_write_failed (p : string) (e : exn)
| msg_eof (p : string)
| msg_eio (p : string)
| msg_read_failed (p : string) (e : exn)
| msg_vport_to_device (p : string) (n : Z)
| msg_serial_write_failed (e : exn)
| msg_client_connected (p : string)
| msg_probe_failed (p : string) (e : exn)
| msg_stats (bytes_in bytes_out alive_count total idle_count : Z).

Inductive event : Type :=
| EvCall (c : call)
| EvIslink (p : string)
| EvMonotonic
| EvSleep (secs : Z)
| EvLog (l : level) (m : message).

(** The environment answers the call made at each tick; [os.path.islink]
    and [time.monotonic] do not raise. *)
Record Env : Type := mk_env {
  env_sys : nat -> forall c : call, resp c + exn;
  env_islink : nat -> string -> bool;
  env_monotonic : nat -> float
}.

(** ** Program state *)

(** The locals of [main], the clock of the environment and the trace.
    [registered] tells whether the module-level [_active_vports] has been
    bound to the list [vports] (line 108); from then on both names denote
    one list object. *)
Record State : Type := mk_state {
  tick : nat;
  trace : list event;
  ser : Serial;
  vports : list vport;
  registered : bool;
  bytes_from_device : Z;
  bytes_to_device : Z;
  last_stats : float
}.

Definition _active_vports (s : State) : list vport :=
  if registered s then vports s else [].

Definition with_world (t : nat) (tr : list event) (s : State) : State :=
  mk_state t tr (ser s) (vports s) (registered s)
           (bytes_from_device s) (bytes_to_device s) (last_stats s).

Definition with_ser (x : Serial) (s : State) : State :=
  mk_state (tick s) (trace s) x (vports s) (registered s)
           (bytes_from_device s) (bytes_to_device s) (last_stats s).

Definition with_vports (vs : list vport) (s : State) : State :=
  mk_state (tick s) (trace s) (ser s) vs (registered s)
           (bytes_from_device s) (bytes_to_device s) (last_stats s).

Definition with_registered (b : bool) (s : State) : State :=
  mk_state (tick s) (trace s) (ser s) (vports s) b
           (bytes_from_device s) (bytes_to_device s) (last_stats s).

Definition with_bytes_from (n : Z) (s : State) : State :=
  mk_state (tick s) (trace s) (ser s) (vports s) (registered s)
           n (bytes_to_device s) (last_stats s).

Definition with_bytes_to (n : Z) (s : State) : State :=
  mk_state (tick s) (trace s) (ser s) (vports s) (registered s)
           (bytes_from_device s) n (last_stats s).

Definition with_last_stats (f : float) (s : State) : State :=
  mk_state (tick s) (trace s) (ser s) (vports s) (registered s)
           (bytes_from_device s) (bytes_to_device s) f.

(** ** The monad *)

(** [Spin] is a retry loop that has not ended within the fuel given. *)
Inductive result (A : Type) : Type :=
| Ok (a : A)
| Raise (e : exn)
| Spin.
Arguments Ok {A} a.
Arguments Raise {A} e.
Arguments Spin {A}.

Definition M (A : Type) : Type := State -> result A * State.

Definition ret {A} (a : A) : M A := fun s => (Ok a, s).

Definition bind {A B} (m : M A) (k : A -> M B) : M B :=
  fun s =>
    match m s with
    | (Ok a, s') => k a s'
    | (Raise e, s') => (Raise e, s')
    | (Spin, s') => (Spin, s')
    end.

Definition raise {A} (e : exn) : M A := fun s => (Raise e, s).
Definition spin {A} : M A := fun s => (Spin, s).
Definition get : M State := fun s => (Ok s, s).
Definition modify (f : State -> State) : M unit := fun s => (Ok tt, f s).

Declare Scope mux_scope.
Delimit Scope mux_scope with mux.
Notation "x <- m ;; k" := (bind m (fun x => k))
  (at level 100, m at next level, right associativity) : mux_scope.
Notation "m ;; k" := (bind m (fun _ => k))
  (at level 100, right associativity) : mux_scope.
Local Open Scope mux_scope.

(** [try: m  except <classes matched by h>: h e] *)
Definition try_except {A} (m : M A) (h : exn -> option (M A)) : M A :=
  fun s =>
    match m s with
    | (Raise e, s') =>
        match h e with
        | Some k => k s'
        | None => (Raise e, s')
        end
    | r => r
    end.

Definition emit (ev : event) : M unit :=
  modify (fun s => with_world (tick s) (trace s ++ [ev]) s).

Definition log (l : level) (m : message) : M unit := emit (EvLog l m).

Definition time_sleep (secs : Z) : M unit := emit (EvSleep secs).

(** Python [for x in l: body].  A body ends in [Next] (it ran to its end
    or hit [continue]) or in [Break]; the loop tells which way it ended. *)
Inductive ctl : Type := Next | Break.

Fixpoint for_each_ctl {A} (l : list A) (body : A -> M ctl) : M ctl :=
  match l with
  | [] => ret Next
  | x :: l' =>
      c <- body x ;;
      match c with
      | Next => for_each_ctl l' body
      | Break => ret Break
      end
  end.

Definition for_each {A} (l : list A) (body : A -> M ctl) : M unit :=
  for_each_ctl l body ;; ret tt.

Definition indices {A} (l : list A) : list nat := seq 0 (length l).

(** Indices of the records of [vs] that satisfy [p]: a list of references
    to the dicts, as a comprehension [[v for v in vports if ...]] builds. *)
Definition select_refs (p : vport -> bool) (vs : list vport) : list nat :=
  List.filter (fun i => match vs !! i with Some v => p v | None => false end)
              (indices vs).

(** ** Configuration (lines 5-7) *)

Definition REAL_PORT : string :=
  "/dev/serial/by-id/usb-Seeed_Studio_XIAO_nRF52840_C8A73AB0B3AB137D-if00"%string.
Definition BAUD : Z := 115200.
Definition VPORTS : list string :=
  ["/dev/ttyV0"; "/dev/ttyV1"; "/dev/ttyV2"]%string.

(** ** The program *)

Section Program.

Context (env : Env).

(** A call that may raise: the environment's answer at the current tick. *)
Definition sys (c : call) : M (resp c) :=
  fun s =>
    let s' := with_world (S (tick s)) (trace s ++ [EvCall c]) s in
    match env_sys env (tick s) c with
    | inl v => (Ok v, s')
    | inr e => (Raise e, s')
    end.

Definition os_path_islink (p : string) : M bool :=
  fun s =>
    (Ok (env_islink env (tick s) p),
     with_world (S (tick s)) (trace s ++ [EvIslink p]) s).

Definition time_monotonic : M float :=
  fun s =>
    (Ok (env_monotonic env (tick s)),
     with_world (S (tick s)) (trace s ++ [EvMonotonic]) s).

(** *** PTY helpers (lines 33-67) *)

Definition create_vport (p : string) : M vport :=
  l <- os_path_islink p ;;
  (if l then sys (os_unlink p) else ret tt) ;;
  ms <- sys os_openpty ;;
  let master := fst ms in
  let slave := snd ms in
  sys (tty_setraw master) ;;
  sys (tty_setraw slave) ;;
  sl <- sys (os_ttyname slave) ;;
  sys (os_chmod sl 438) ;;
  sys (os_symlink sl p) ;;
  sys (os_close slave) ;;
  flags <- sys (fcntl_getfl master) ;;
  sys (fcntl_setfl master (Z.lor flags O_NONBLOCK)) ;;
  log INFO (msg_vport_created p sl master) ;;
  ret (mk_vport master p sl true true).

(** [try: os.close(fd)  except OSError: pass] *)
Definition close_quietly (fd : Z) : M unit :=
  try_except (sys (os_close fd))
    (fun e => if isinstance_OSError e then Some (ret tt) else None).

Definition recreate_vport (v : vport) : M vport :=
  let p := path v in
  let old_fd := master_fd v in
  close_quietly old_fd ;;
  log INFO (msg_recreating p) ;;
  create_vport p.

(** *** Serial helper (lines 71-80) *)

(** One pass of the [while True] body: [Some ser] is the [return]. *)
Definition open_serial_attempt (port : string) (baud : Z) : M (option Serial) :=
  try_except
    (s <- sys (serial_Serial port baud) ;;
     fd <- sys (ser_fileno s) ;;
     log INFO (msg_serial_opened port fd) ;;
     ret (Some s))
    (fun e =>
       if isinstance_SerialException e
       then Some (log WARNING (msg_open_failed port e) ;;
                  time_sleep 2 ;;
                  ret None)
       else None).

Fixpoint open_serial (fuel : nat) (port : string) (baud : Z) : M Serial :=
  match fuel with
  | O => spin
  | S fuel' =>
      r <- open_serial_attempt port baud ;;
      match r with
      | Some s => ret s
      | None => open_serial fuel' port baud
      end
  end.

(** *** Cleanup (lines 84-95), the handler of SIGTERM and SIGINT *)

(** Lines 87-90: the body of the first loop. *)
Definition close_vport (v : vport) : M ctl :=
  close_quietly (master_fd v) ;;
  ret Next.

(** Lines 92-94: the body of the second loop. *)
Definition remove_symlink (p : string) : M ctl :=
  l <- os_path_islink p ;;
  (if l
   then sys (os_unlink p) ;; log INFO (msg_removed_symlink p)
   else ret tt) ;;
  ret Next.

Definition cleanup : M unit :=
  log INFO msg_shutting_down ;;
  s <- get ;;
  for_each (_active_vports s) close_vport ;;
  for_each VPORTS remove_symlink ;;
  raise (SystemExit 0).

(** *** Main loop (lines 116-230) *)

(** In-place update of the dict that reference [i] denotes. *)
Definition update_vport (i : nat) (f : vport -> vport) : M unit :=
  modify (fun s => with_vports (alter f i (vports s)) s).

Definition is_active (v : vport) : bool := alive v && negb (idle v).

(** The two [except (serial.SerialException, OSError)] handlers: close the
    stale handle, reopen, leave the [for fd in readable] loop. *)
Definition reconnect (fuel : nat) (m : exn -> message) (e : exn) : M ctl :=
  log WARNING (m e) ;;
  s <- get ;;
  try_except (sys (ser_close (ser s)))
    (fun e' => if isinstance_Exception e' then Some (ret tt) else None) ;;
  s' <- open_serial fuel REAL_PORT BAUD ;;
  modify (with_ser s') ;;
  ret Break.

Definition device_error (e : exn) : bool :=
  isinstance_SerialException e || isinstance_OSError e.

(** Lines 153-161: one write of the broadcast. *)
Definition broadcast_one (data : bytes) (i : nat) : M ctl :=
  s <- get ;;
  match vports s !! i with
  | None => ret Next
  | Some v =>
      try_except (sys (os_write (master_fd v) data) ;; ret Next)
        (fun e =>
           if isinstance_OSError e then
             Some (if errno_is e EAGAIN || errno_is e EIO
                   then log DEBUG (msg_write_skipped (path v)
                                     (default 0 (errno_of e))) ;;
                        ret Next
                   else log WARNING (msg_write_failed (path v) e) ;;
                        update_vport i (set_alive false) ;;
                        ret Next)
           else None)
  end.

Definition broadcast (data : bytes) : M unit :=
  s <- get ;;
  for_each (select_refs alive (vports s)) (broadcast_one data).

(** What the [try] of lines 138-141 and of lines 168-173 leaves behind. *)
Inductive got : Type := Data (d : bytes) | Continue | Broken.

(** Lines 139-141: [data = ser.read(ser.in_waiting or 1)] and the test
    of [data]. *)
Definition read_device : M got :=
  s <- get ;;
  n <- sys (ser_in_waiting (ser s)) ;;
  data <- sys (ser_read (ser s) (if n =? 0 then 1 else n)) ;;
  match data with
  | [] => ret Continue
  | _ => ret (Data data)
  end.

(** Lines 136-161. *)
Definition dispatch_serial (fuel : nat) : M ctl :=
  r <- try_except read_device
         (fun e =>
            if device_error e
            then Some (reconnect fuel msg_serial_read_failed e ;; ret Broken)
            else None) ;;
  match r with
  | Continue => ret Next
  | Broken => ret Break
  | Data data =>
      modify (fun s => with_bytes_from
                         (bytes_from_device s + Z.of_nat (length data)) s) ;;
      log DEBUG (msg_device_to_vports (Z.of_nat (length data))) ;;
      broadcast data ;;
      ret Next
  end.

(** [next((v for v in active_vports if v['master_fd'] == fd), None)] *)
Definition find_vport (vs : list vport) (active_vports : list nat) (fd : Z)
  : option nat :=
  List.find (fun i => match vs !! i with
                      | Some v => master_fd v =? fd
                      | None => false
                      end) active_vports.

(** Lines 164-197. *)
Definition dispatch_vport (fuel : nat) (active_vports : list nat) (fd : Z)
  : M ctl :=
  s <- get ;;
  match find_vport (vports s) active_vports fd with
  | None => ret Next
  | Some i =>
      let p := match vports s !! i with Some v => path v | None => ""%string end in
      r <- try_except
             (data <- sys (os_read fd 4096) ;;
              match data with
              | [] => log INFO (msg_eof p) ;;
                      update_vport i (set_idle true) ;;
                      ret Continue
              | _ => ret (Data data)
              end)
             (fun e =>
                if isinstance_OSError e then
                  Some (if errno_is e EAGAIN || errno_is e EINTR then
                          ret Continue
                        else if errno_is e EIO then
                          log INFO (msg_eio p) ;;
                          update_vport i (set_idle true) ;;
                          ret Continue
                        else
                          log WARNING (msg_read_failed p e) ;;
                          update_vport i (set_alive false) ;;
                          ret Continue)
                else None) ;;
      match r with
      | Continue | Broken => ret Next
      | Data data =>
          modify (fun s => with_bytes_to
                             (bytes_to_device s + Z.of_nat (length data)) s) ;;
          log DEBUG (msg_vport_to_device p (Z.of_nat (length data))) ;;
          s1 <- get ;;
          try_except (sys (ser_write (ser s1) data) ;; ret Next)
            (fun e =>
               if device_error e
               then Some (reconnect fuel msg_serial_write_failed e)
               else None)
      end
  end.

(** Body of [for fd in readable] (lines 135-197). *)
Definition dispatch_fd (fuel : nat) (ser_fd : Z) (active_vports : list nat)
    (fd : Z) : M ctl :=
  if fd =? ser_fd
  then dispatch_serial fuel
  else dispatch_vport fuel active_vports fd.

(** Lines 200-216: the body of the probe loop for the dict at [i]. *)
Definition probe_one (i : nat) : M ctl :=
  s <- get ;;
  match vports s !! i with
  | None => ret Next
  | Some v =>
      if alive v && idle v then
        try_except
          (sys (os_read (master_fd v) 1) ;;
           update_vport i (set_idle false) ;;
           log INFO (msg_client_connected (path v)) ;;
           ret Next)
          (fun e =>
             if isinstance_OSError e then
               Some (if errno_is e EAGAIN then
                       update_vport i (set_idle false) ;;
                       log INFO (msg_client_connected (path v)) ;;
                       ret Next
                     else if errno_is e EIO then
                       ret Next
                     else
                       log WARNING (msg_probe_failed (path v) e) ;;
                       update_vport i (set_alive false) ;;
                       ret Next)
             else None)
      else ret Next
  end.

Definition probe_idle : M unit :=
  s <- get ;;
  for_each (indices (vports s)) probe_one.

(** Lines 219-222: the recovery sweep. *)
Definition recreate_one (i : nat) : M ctl :=
  s <- get ;;
  match vports s !! i with
  | None => ret Next
  | Some v =>
      if negb (alive v) then
        v' <- recreate_vport v ;;
        modify (fun s => with_vports (<[i := v']> (vports s)) s) ;;
        ret Next
      else ret Next
  end.

Definition recreate_dead : M unit :=
  s <- get ;;
  for_each (indices (vports s)) recreate_one ;;
  modify (with_registered true).

Definition count (p : vport -> bool) (vs : list vport) : Z :=
  Z.of_nat (length (List.filter p vs)).

(** Lines 225-230. *)
Definition log_stats : M unit :=
  now <- time_monotonic ;;
  s <- get ;;
  if PrimFloat.leb 60 (PrimFloat.sub now (last_stats s)) then
    log INFO (msg_stats (bytes_from_device s) (bytes_to_device s)
                (count alive (vports s)) (Z.of_nat (length (vports s)))
                (count (fun v => alive v && idle v) (vports s))) ;;
    modify (with_last_stats now)
  else ret tt.

(** [try: ser_fd = ser.fileno()  except Exception: ser_fd = -1] *)
Definition get_ser_fd : M Z :=
  s <- get ;;
  try_except (sys (ser_fileno (ser s)))
    (fun e => if isinstance_Exception e then Some (ret (-1)) else None).

Definition watch_fds (ser_fd : Z) (vs : list vport) (active_vports : list nat)
  : list Z :=
  let fds := omap (fun i => master_fd <$> vs !! i) active_vports in
  if 0 <=? ser_fd then ser_fd :: fds else fds.

(** [select.select(watch_fds, [], [], 1.0)] under the handler of lines
    129-132; [None] stands for the [continue] of line 131. *)
Definition wait_readable (fds : list Z) : M (option (list Z)) :=
  try_except (r <- sys (select_select fds 1) ;; ret (Some r))
    (fun e =>
       if isinstance_InterruptedError e || isinstance_OSError e then
         Some (if errno_is e EINTR || isinstance_InterruptedError e
               then ret None
               else raise e)
       else None).

(** One pass of [while True] (lines 117-230). *)
Definition loop_body (fuel : nat) : M unit :=
  ser_fd <- get_ser_fd ;;
  s <- get ;;
  let active_vports := select_refs is_active (vports s) in
  r <- wait_readable (watch_fds ser_fd (vports s) active_vports) ;;
  match r with
  | None => ret tt
  | Some readable =>
      for_each readable (dispatch_fd fuel ser_fd active_vports) ;;
      probe_idle ;;
      recreate_dead ;;
      log_stats
  end.

(** [n] passes of the loop; the loop itself never returns. *)
Fixpoint main_loop (fuel : nat) (n : nat) : M unit :=
  match n with
  | O => spin
  | S n' => loop_body fuel ;; main_loop fuel n'
  end.

(** [vports = [create_vport(path) for path in VPORTS]] *)
Fixpoint create_all (ps : list string) : M (list vport) :=
  match ps with
  | [] => ret []
  | p :: ps' =>
      v <- create_vport p ;;
      vs <- create_all ps' ;;
      ret (v :: vs)
  end.

(** Lines 101-114, then the loop. *)
Definition main (fuel : nat) (n : nat) : M unit :=
  log INFO (msg_opening_real REAL_PORT BAUD) ;;
  s <- open_serial fuel REAL_PORT BAUD ;;
  modify (with_ser s) ;;
  vs <- create_all VPORTS ;;
  modify (with_vports vs) ;;
  modify (with_registered true) ;;
  log INFO msg_running ;;
  modify (with_bytes_from 0) ;;
  modify (with_bytes_to 0) ;;
  t <- time_monotonic ;;
  modify (with_last_stats t) ;;
  main_loop fuel n.

End Program.

(** The state before [main] runs: [_active_vports = []] (line 30). *)
Definition boot : State := mk_state 0 [] 0 [] false 0 0 0%float.

(** ** Observations on a trace *)

Definition writes_of (tr : list event) : list (Z * bytes) :=
  omap (fun ev => match ev with
                  | EvCall (os_write fd d) => Some (fd, d)
                  | _ => None
                  end) tr.

Definition reads_of (tr : list event) : list (Z * Z) :=
  omap (fun ev => match ev with
                  | EvCall (os_read fd n) => Some (fd, n)
                  | _ => None
                  end) tr.

Definition closes_of (tr : list event) : list Z :=
  omap (fun ev => match ev with
                  | EvCall (os_close fd) => Some fd
                  | _ => None
                  end) tr.

Definition unlinks_of (tr : list event) : list string :=
  omap (fun ev => match ev with
                  | EvCall (os_unlink p) => Some p
                  | _ => None
                  end) tr.

(** Calls on the real device's handle: [ser.write] and [ser.close]. *)
Definition ser_writes_of (tr : list event) : list (Serial * bytes) :=
  omap (fun ev => match ev with
                  | EvCall (ser_write h d) => Some (h, d)
                  | _ => None
                  end) tr.

Definition ser_closes_of (tr : list event) : list Serial :=
  omap (fun ev => match ev with
                  | EvCall (ser_close h) => Some h
                  | _ => None
                  end) tr.

Definition logs_of (tr : list event) : list (level * message) :=
  omap (fun ev => match ev with
                  | EvLog l m => Some (l, m)
                  | _ => None
                  end) tr.

(** ** Predicates used in the statements *)

(** The events of [n] failed attempts. *)
Definition failed_attempts (port : string) (baud : Z) (e : exn) (n : nat)
  : list event :=
  concat (replicate n [EvCall (serial_Serial port baud);
                       EvLog WARNING (msg_open_failed port e);
                       EvSleep 2]).

(** In a broadcast a record stays as it is or loses its [alive] flag. *)
Definition killed (v v' : vport) : Prop := v' = v \/ v' = set_alive false v.

Definition only_killed (vs vs' : list vport) : Prop := Forall2 killed vs vs'.

(** A computation that changes nothing but the clock and the trace. *)
Definition world_only {A} (m : M A) : Prop :=
  forall s r s', m s = (r, s') ->
    exists t tr, s' = with_world t (trace s ++ tr) s.

(** The state after a probe that found a client. *)
Definition connected (i : nat) (v : vport) (s : State) : State :=
  with_vports (alter (set_idle false) i (vports s))
    (with_world (S (tick s))
       (trace s ++ [EvCall (os_read (master_fd v) 1);
                    EvLog INFO (msg_client_connected (path v))]) s).

(** The probe never writes to the device and keeps the device handle and
    the byte counters. *)
Definition quiet (s s' : State) : Prop :=
  exists tr, trace s' = trace s ++ tr /\ ser_writes_of tr = [] /\
             ser s' = ser s /\ bytes_to_device s' = bytes_to_device s.

(** What the probe of the record at [i] asks of the system. *)
Definition probed (v : vport) : option (Z * Z) :=
  if alive v && idle v then Some (master_fd v, 1) else None.

(** What a computation can return. *)
Definition returns {A} (P : A -> Prop) (m : M A) : Prop :=
  forall s a s', m s = (Ok a, s') -> P a.

(** A computation that always returns. *)
Definition runs {A} (m : M A) : Prop := forall s, exists a s', m s = (Ok a, s').

(** How a dead record and its replacement are related. *)
Definition revived (v v' : vport) : Prop :=
  path v' = path v /\ alive v' = true /\
  (alive v = true -> v' = v) /\
  (alive v = false -> idle v' = true).


(** The state in which [ser.write(data)] is called for the endpoint at
    [path] whose read returned [data], with the call recorded. *)
Definition forwarding (fd : Z) (p : string) (data : bytes) (s : State) : State :=
  with_bytes_to (bytes_to_device s + Z.of_nat (length data))
    (with_world (S (S (tick s)))
       (trace s ++ [EvCall (os_read fd 4096);
                    EvLog DEBUG (msg_vport_to_device p (Z.of_nat (length data)));
                    EvCall (ser_write (ser s) data)]) s).


(** The call [c] made in state [s] is followed at once by a log record. *)
Definition logged_after (c : call) (s s' : State) : Prop :=
  exists l msg tr, trace s' = trace s ++ EvCall c :: EvLog l msg :: tr.

(** ** Invariants and emitted events *)

(** From a state that satisfies [I], the computation [m] ends, however it
    ends, in a state that satisfies [I], and every event it appends to the
    trace satisfies [P]. *)
Definition keeps_at {A} (I : State -> Prop) (P : event -> Prop) (m : M A)
    (s : State) : Prop :=
  forall r s', m s = (r, s') ->
    I s' /\ exists tr, trace s' = trace s ++ tr /\ Forall P tr.

Definition keeps {A} (I : State -> Prop) (P : event -> Prop) (m : M A) : Prop :=
  forall s, I s -> keeps_at I P m s.

(** An invariant that does not look at the clock or the trace. *)
Definition timeless (I : State -> Prop) : Prop :=
  forall t tr s, I s -> I (with_world t tr s).

(** The event touches the file system only at a path of [ps]:
    [os.path.islink], [os.unlink] and the link name of [os.symlink]. *)
Definition touches (ps : list string) (ev : event) : Prop :=
  match ev with
  | EvIslink p => p ∈ ps
  | EvCall (os_unlink p) => p ∈ ps
  | EvCall (os_symlink _ p) => p ∈ ps
  | _ => True
  end.

(** The endpoints are published at the paths [ps], in order, and the byte
    counters have reached at least [a] and [b]. *)
Definition pass_inv (ps : list string) (a b : Z) (s : State) : Prop :=
  path <$> vports s = ps /\
  a <= bytes_from_device s /\ b <= bytes_to_device s.

(** From a state that satisfies [I] the computation [m] ends, however it
    ends, in a state that satisfies [Post], having appended only events
    that satisfy [P]. *)
Definition ends {A} (I Post : State -> Prop) (P : event -> Prop) (m : M A)
  : Prop :=
  forall s, I s -> forall r s', m s = (r, s') ->
    Post s' /\ exists tr, trace s' = trace s ++ tr /\ Forall P tr.

(** A record as [create_vport] returns it. *)
Definition fresh (v : vport) : Prop := alive v = true /\ idle v = true.

(** The event is not an [os.read], or it reads a handle of [F]. *)
Definition reads_within (F : list Z) (ev : event) : Prop :=
  match ev with
  | EvCall (os_read fd _) => fd ∈ F
  | _ => True
  end.

(** The events of the reopen loop. *)
Definition opening (ev : event) : Prop :=
  match ev with
  | EvCall (serial_Serial _ _) | EvCall (ser_fileno _)
  | EvLog _ _ | EvSleep _ => True
  | _ => False
  end.

(** Every call among the events [tr], made one per tick from tick [t] on,
    was answered without an exception. *)
Definition answered (env : Env) (t : nat) (tr : list event) : Prop :=
  forall k c, tr !! k = Some (EvCall c) ->
    exists v, env_sys env (t + k) c = inl v.

(** A computation that handles no exception of its calls and logs only at
    its end.  When it returns [a], every call it made was answered and its
    last events are [final a]; when it raises, the exception is the one its
    last call raised, the calls before that one were answered, and nothing
    was logged. *)
Definition passes_errors_on (env : Env) {A} (final : A -> list event)
    (m : M A) : Prop :=
  forall s r s', m s = (r, s') ->
    match r with
    | Ok a =>
        exists tr0,
          trace s' = trace s ++ tr0 ++ final a /\
          tick s' = (tick s + length tr0)%nat /\
          logs_of tr0 = [] /\ answered env (tick s) tr0
    | Raise e =>
        exists tr0 c,
          trace s' = trace s ++ tr0 ++ [EvCall c] /\
          tick s' = S (tick s + length tr0) /\
          logs_of tr0 = [] /\ answered env (tick s) tr0 /\
          env_sys env (tick s + length tr0) c = inr e
    | Spin => False
    end.

(** What the recovery sweep may do to a record: leave it, or, if it is
    dead, put a fresh record at the same path in its place. *)
Definition swept (v v' : vport) : Prop :=
  v' = v \/ (alive v = false /\ path v' = path v /\ fresh v').

(** ** The loops over the endpoint list, as the specification describes them *)

(** One pass over the records, in list order, from tick [t].  [visit t v]
    is [None] when the record [v] is passed over; otherwise it gives the
    events of the visit of [v] at tick [t] and the record that the visit
    leaves in the place of [v].  A visit makes one system call, so it
    takes one tick.  The result is the tick, the events and the records at
    the end of the pass. *)
Fixpoint pass_spec (visit : nat -> vport -> option (list event * vport))
    (t : nat) (vs : list vport) : nat * list event * list vport :=
  match vs with
  | [] => (t, [], [])
  | v :: vs' =>
      match visit t v with
      | Some (ev, v') =>
          let '(t', evs, vs'') := pass_spec visit (S t) vs' in
          (t', ev ++ evs, v' :: vs'')
      | None =>
          let '(t', evs, vs'') := pass_spec visit t vs' in
          (t', evs, v :: vs'')
      end
  end.

(** The write of [data] to the endpoint [v] as the specification
    describes it (4.3, device readable), given the answer [a] of
    [os.write]: a write that raises EAGAIN or EIO is logged and the
    endpoint is left as it was; a write that raises anything else is
    logged and clears the [alive] flag. *)
Definition write_spec (data : bytes) (v : vport) (a : Z + exn)
  : list event * vport :=
  let w := EvCall (os_write (master_fd v) data) in
  match a with
  | inl _ => ([w], v)
  | inr e =>
      if errno_is e EAGAIN || errno_is e EIO
      then ([w; EvLog DEBUG (msg_write_skipped (path v)
                               (default 0 (errno_of e)))], v)
      else ([w; EvLog WARNING (msg_write_failed (path v) e)],
            set_alive false v)
  end.

(** The broadcast as the specification describes it: every endpoint
    whose [alive] flag is set is written to, idle or not, whatever the
    writes before it answered. *)
Definition broadcast_spec (env : Env) (data : bytes)
  : nat -> list vport -> nat * list event * list vport :=
  pass_spec
    (fun t v =>
       if alive v
       then Some (write_spec data v
                    (env_sys env t (os_write (master_fd v) data)))
       else None).

(** The one-byte read of the endpoint [v] as the specification describes
    it (4.3, idle probing), given the answer [a] of [os.read]: data or
    EAGAIN clears [idle] (a client is attached), EIO changes nothing,
    anything else clears [alive]. *)
Definition probe_read_spec (v : vport) (a : bytes + exn) : list event * vport :=
  let rd := EvCall (os_read (master_fd v) 1) in
  let attached :=
    ([rd; EvLog INFO (msg_client_connected (path v))], set_idle false v) in
  match a with
  | inl _ => attached
  | inr e =>
      if errno_is e EAGAIN then attached
      else if errno_is e EIO then ([rd], v)
      else ([rd; EvLog WARNING (msg_probe_failed (path v) e)],
            set_alive false v)
  end.

(** The probe step: the endpoints that are alive and idle are probed, the
    others are passed over. *)
Definition probe_spec (env : Env)
  : nat -> list vport -> nat * list event * list vport :=
  pass_spec
    (fun t v =>
       if alive v && idle v
       then Some (probe_read_spec v (env_sys env t (os_read (master_fd v) 1)))
       else None).

(** The recovery sweep as the specification describes it (4.3, recovery
    sweep): the records are taken in list order; one that is alive is
    kept, one that is dead is handed to [recreate_vport], whose result
    takes its place. *)
Fixpoint sweep_spec (env : Env) (vs : list vport) : M (list vport) :=
  match vs with
  | [] => ret []
  | v :: vs' =>
      v' <- (if alive v then ret v else recreate_vport env v) ;;
      vs'' <- sweep_spec env vs' ;;
      ret (v' :: vs'')
  end.

(** A computation that neither looks at the endpoint list nor changes
    it. *)
Definition frames {A} (m : M A) : Prop :=
  forall vs s, m (with_vports vs s) = (fst (m s), with_vports vs (snd (m s))).

(** ** Concrete environments *)

Definition any_fd (fd : Z) : bool := true.
Definition only_fd (fd0 fd : Z) : bool := fd =? fd0.

(** An operating system in which every call succeeds: [select] reports
    the watched handles that satisfy [ready], endpoint reads return [rd],
    the device has two bytes waiting. *)
Definition answer (ready : Z -> bool) (rd : bytes) (c : call) : resp c + exn :=
  match c return resp c + exn with
  | os_unlink _ => inl tt
  | os_openpty => inl (20, 21)
  | tty_setraw _ => inl tt
  | os_ttyname _ => inl "/dev/pts/7"%string
  | os_chmod _ _ => inl tt
  | os_symlink _ _ => inl tt
  | os_close _ => inl tt
  | fcntl_getfl _ => inl 2
  | fcntl_setfl _ _ => inl tt
  | os_read _ _ => inl rd
  | os_write _ d => inl (Z.of_nat (length d))
  | select_select rl _ => inl (List.filter ready rl)
  | serial_Serial _ _ => inl 4
  | ser_fileno h => inl h
  | ser_in_waiting _ => inl 2
  | ser_read _ _ => inl [Byte.x01; Byte.x02]
  | ser_write _ d => inl (Z.of_nat (length d))
  | ser_close _ => inl tt
  end.

(** The same, except that the call made at tick [t] raises [e] for each
    [(t, e)] of [fails]; every configured path is a symlink and the clock
    reads [now]. *)
Definition scenario (ready : Z -> bool) (rd : bytes)
    (fails : list (nat * exn)) (now : float) : Env :=
  mk_env
    (fun t c =>
       match List.find (fun x => Nat.eqb (fst x) t) fails with
       | Some x => inr (snd x)
       | None => answer ready rd c
       end)
    (fun _ _ => true)
    (fun _ => now).

(** Every call succeeds except [os.close(fd0)], which raises EBADF: the
    handle [fd0] is closed already. *)
Definition closed_already (fd0 : Z) : Env :=
  mk_env
    (fun _ c =>
       match c return resp c + exn with
       | os_close fd => if fd =? fd0 then inr (OSError EBADF) else inl tt
       | c' => answer any_fd [] c'
       end)
    (fun _ _ => true)
    (fun _ => 0%float).

(** Every call succeeds except [os.unlink(p0)], which raises EACCES. *)
Definition unlink_refused (p0 : string) : Env :=
  mk_env
    (fun _ c =>
       match c return resp c + exn with
       | os_unlink p => if String.eqb p p0 then inr (OSError 13) else inl tt
       | c' => answer any_fd [] c'
       end)
    (fun _ _ => true)
    (fun _ => 0%float).

(** A running multiplexer: device handle 3 and one endpoint on fd 10. *)
Definition one_vport (a i : bool) : State :=
  mk_state 0 [] 3
    [mk_vport 10 "/dev/ttyV0" "/dev/pts/5" a i] true 0 0 0%float.

(** Three endpoints, the second one active; the device handle is 3. *)
Definition three_vports : State :=
  mk_state 0 [] 3
    [mk_vport 10 "/dev/ttyV0" "/dev/pts/5" true true;
     mk_vport 11 "/dev/ttyV1" "/dev/pts/6" true false;
     mk_vport 12 "/dev/ttyV2" "/dev/pts/7" true true] true 0 0 0%float.

(** * Properties *)

(** C1 (evaluation at the failing input).  The device and the active
    endpoint on fd 10 are both readable; the broadcast write to fd 10
    fails with EBADF and marks the endpoint dead; the dispatch of fd 10,
    found through the list of active endpoints built before the wait,
    then reads the dead endpoint. *)
Lemma dead_endpoint_read_in_dispatch :
  let env := scenario any_fd [Byte.x41] [(4%nat, OSError EBADF)] 0%float in
  let s0 := one_vport true false in
  let sw := snd (wait_readable env [3; 10] (snd (get_ser_fd env s0))) in
  let s1 := snd (dispatch_fd env 1 3 [0%nat] 3 sw) in
  (alive <$> vports s1) = [false] /\
  trace (snd (dispatch_fd env 1 3 [0%nat] 10 s1)) =
    trace s1 ++ [EvCall (os_read 10 4096);
                 EvLog DEBUG (msg_vport_to_device "/dev/ttyV0" 1);
                 EvCall (ser_write 3 [Byte.x41])] /\
  firstn 9 (trace (snd (loop_body env 1 s0))) =
    [EvCall (ser_fileno 3);
     EvCall (select_select [3; 10] 1);
     EvCall (ser_in_waiting 3);
     EvCall (ser_read 3 2);
     EvLog DEBUG (msg_device_to_vports 2);
     EvCall (os_write 10 [Byte.x01; Byte.x02]);
     EvLog WARNING (msg_write_failed "/dev/ttyV0" (OSError EBADF));
     EvCall (os_read 10 4096);
     EvLog DEBUG (msg_vport_to_device "/dev/ttyV0" 1)].
Proof. vm_compute. repeat split; reflexivity. Qed.

(** ** Running the monad *)

Lemma with_world_twice t tr t' tr' s :
  with_world t tr (with_world t' tr' s) = with_world t tr s.
Proof. reflexivity. Qed.

Lemma with_world_same s : with_world (tick s) (trace s) s = s.
Proof. by destruct s. Qed.

Ltac run :=
  cbv beta iota delta
    [bind ret raise spin get modify emit log time_sleep try_except
     sys os_path_islink time_monotonic update_vport
     with_world with_ser with_vports with_registered with_bytes_from
     with_bytes_to with_last_stats];
  cbn [tick trace ser vports registered bytes_from_device bytes_to_device
       last_stats fst snd].

Section OpenSerial.

Context (env : Env) (port : string) (baud : Z).

Lemma open_serial_attempt_fails s :
  env_sys env (tick s) (serial_Serial port baud) = inr SerialException ->
  open_serial_attempt env port baud s =
    (Ok None, with_world (S (tick s))
                (trace s ++ failed_attempts port baud SerialException 1) s).
Proof.
  intros H. unfold open_serial_attempt. run. rewrite H. cbn. run.
  by rewrite <- !app_assoc.
Qed.

Lemma open_serial_attempt_opens s h fd :
  env_sys env (tick s) (serial_Serial port baud) = inl h ->
  env_sys env (S (tick s)) (ser_fileno h) = inl fd ->
  open_serial_attempt env port baud s =
    (Ok (Some h),
     with_world (S (S (tick s)))
       (trace s ++ [EvCall (serial_Serial port baud);
                    EvCall (ser_fileno h);
                    EvLog INFO (msg_serial_opened port fd)]) s).
Proof.
  intros H1 H2. unfold open_serial_attempt. run. rewrite H1. run.
  rewrite H2. run. by rewrite <- !app_assoc.
Qed.

Lemma failed_attempts_S e n :
  failed_attempts port baud e (S n)
  = failed_attempts port baud e 1 ++ failed_attempts port baud e n.
Proof. reflexivity. Qed.

(** [n] failed attempts, then a successful one. *)
Lemma open_serial_run n : forall fuel s h fd,
  (forall k, (k < n)%nat ->
     env_sys env (tick s + k) (serial_Serial port baud) = inr SerialException) ->
  env_sys env (tick s + n) (serial_Serial port baud) = inl h ->
  env_sys env (S (tick s + n)) (ser_fileno h) = inl fd ->
  (n < fuel)%nat ->
  open_serial env fuel port baud s =
    (Ok h,
     with_world (S (S (tick s + n)))
       (trace s ++ failed_attempts port baud SerialException n ++
          [EvCall (serial_Serial port baud);
           EvCall (ser_fileno h);
           EvLog INFO (msg_serial_opened port fd)]) s).
Proof.
  induction n as [|n IH]; intros fuel s h fd Hfail Hopen Hfd Hfuel;
    destruct fuel as [|fuel]; try lia; cbn [open_serial]; unfold bind.
  - rewrite Nat.add_0_r in Hopen, Hfd.
    rewrite (open_serial_attempt_opens s h fd) by done.
    cbn. by rewrite Nat.add_0_r.
  - rewrite open_serial_attempt_fails
      by (specialize (Hfail 0%nat); rewrite Nat.add_0_r in Hfail; apply Hfail; lia).
    rewrite (IH fuel _ h fd); cbn [tick trace with_world].
    + rewrite with_world_twice, failed_attempts_S, <- !app_assoc.
      by rewrite <- Nat.add_succ_comm.
    + intros k Hk. rewrite Nat.add_succ_comm. apply Hfail. lia.
    + by rewrite Nat.add_succ_comm.
    + by rewrite Nat.add_succ_comm.
    + lia.
Qed.

(** Attempts that all fail never end the loop, whatever the fuel. *)
Lemma open_serial_keeps_trying fuel : forall s,
  (forall k, (k < fuel)%nat ->
     env_sys env (tick s + k) (serial_Serial port baud) = inr SerialException) ->
  open_serial env fuel port baud s =
    (Spin, with_world (tick s + fuel)
             (trace s ++ failed_attempts port baud SerialException fuel) s).
Proof.
  induction fuel as [|fuel IH]; intros s Hfail; cbn [open_serial]; unfold bind.
  - unfold spin, failed_attempts. cbn.
    by rewrite Nat.add_0_r, app_nil_r, with_world_same.
  - rewrite open_serial_attempt_fails
      by (specialize (Hfail 0%nat); rewrite Nat.add_0_r in Hfail; apply Hfail; lia).
    rewrite IH; cbn [tick trace with_world].
    + rewrite with_world_twice, failed_attempts_S, <- !app_assoc.
      by rewrite <- Nat.add_succ_comm.
    + intros k Hk. rewrite Nat.add_succ_comm. apply Hfail. lia.
Qed.

(** A handle that [open_serial] returns was handed out by [serial.Serial]
    during the call. *)
Lemma open_serial_returns_opened fuel : forall s h s',
  open_serial env fuel port baud s = (Ok h, s') ->
  exists t, (tick s <= t < tick s')%nat /\
            env_sys env t (serial_Serial port baud) = inl h.
Proof.
  induction fuel as [|fuel IH]; intros s h s'; cbn [open_serial]; [done|].
  unfold bind, open_serial_attempt. run.
  destruct (env_sys env (tick s) (serial_Serial port baud)) as [h0|e] eqn:E0; run.
  - destruct (env_sys env (S (tick s)) (ser_fileno h0)) as [fd|e] eqn:E1; run.
    + intros [= <- <-]. exists (tick s). cbn. split; [lia|done].
    + destruct (isinstance_SerialException e); run; [|done].
      intros H. apply IH in H as (t & Ht & Hh). cbn in Ht.
      exists t. split; [lia|done].
  - destruct (isinstance_SerialException e); run; [|done].
    intros H. apply IH in H as (t & Ht & Hh). cbn in Ht.
    exists t. split; [lia|done].
Qed.

(** An attempt that raises anything but [serial.SerialException] is not
    handled. *)
Lemma open_serial_attempt_raises s e :
  env_sys env (tick s) (serial_Serial port baud) = inr e ->
  isinstance_SerialException e = false ->
  open_serial_attempt env port baud s =
    (Raise e,
     with_world (S (tick s)) (trace s ++ [EvCall (serial_Serial port baud)]) s).
Proof.
  intros H He. unfold open_serial_attempt. run. by rewrite H, He.
Qed.

(** [n] failed attempts, then one that raises another exception. *)
Lemma open_serial_raises n : forall fuel s e,
  (forall k, (k < n)%nat ->
     env_sys env (tick s + k) (serial_Serial port baud) = inr SerialException) ->
  env_sys env (tick s + n) (serial_Serial port baud) = inr e ->
  isinstance_SerialException e = false ->
  (n < fuel)%nat ->
  open_serial env fuel port baud s =
    (Raise e,
     with_world (S (tick s + n))
       (trace s ++ failed_attempts port baud SerialException n ++
          [EvCall (serial_Serial port baud)]) s).
Proof.
  induction n as [|n IH]; intros fuel s e Hfail Hopen He Hfuel;
    destruct fuel as [|fuel]; try lia; cbn [open_serial]; unfold bind.
  - rewrite Nat.add_0_r in Hopen.
    rewrite (open_serial_attempt_raises s e) by done.
    cbn. by rewrite Nat.add_0_r.
  - rewrite open_serial_attempt_fails
      by (specialize (Hfail 0%nat); rewrite Nat.add_0_r in Hfail; apply Hfail; lia).
    rewrite (IH fuel _ e); cbn [tick trace with_world].
    + rewrite with_world_twice, failed_attempts_S, <- !app_assoc.
      by rewrite <- Nat.add_succ_comm.
    + intros k Hk. rewrite Nat.add_succ_comm. apply Hfail. lia.
    + by rewrite Nat.add_succ_comm.
    + done.
    + lia.
Qed.

End OpenSerial.

(** C8 (as amended).  [open_serial] keeps trying as long as
    [serial.Serial] raises [serial.SerialException].  While the first [n]
    attempts fail in that way, each failure is logged at WARNING and
    followed by [time.sleep(2)]; with at most [n] passes of fuel the loop
    is still running ([Spin], never [Raise]), and if attempt [n] succeeds
    the handle it opened is returned.  A handle that is returned always
    comes from a successful [serial.Serial] call.  If attempt [n] raises
    an exception that is not a [serial.SerialException], that exception
    leaves [open_serial] at once, with no log record and no sleep for
    it. *)
Theorem open_serial_retries_until_open env port baud s n fuel :
  (forall k, (k < n)%nat ->
     env_sys env (tick s + k) (serial_Serial port baud) = inr SerialException) ->
  ((fuel <= n)%nat ->
   open_serial env fuel port baud s =
     (Spin, with_world (tick s + fuel)
              (trace s ++ failed_attempts port baud SerialException fuel) s)) /\
  (forall h fd,
     env_sys env (tick s + n) (serial_Serial port baud) = inl h ->
     env_sys env (S (tick s + n)) (ser_fileno h) = inl fd ->
     (n < fuel)%nat ->
     open_serial env fuel port baud s =
       (Ok h,
        with_world (S (S (tick s + n)))
          (trace s ++ failed_attempts port baud SerialException n ++
             [EvCall (serial_Serial port baud);
              EvCall (ser_fileno h);
              EvLog INFO (msg_serial_opened port fd)]) s)) /\
  (forall h s',
     open_serial env fuel port baud s = (Ok h, s') ->
     exists t, (tick s <= t < tick s')%nat /\
               env_sys env t (serial_Serial port baud) = inl h) /\
  (forall e,
     env_sys env (tick s + n) (serial_Serial port baud) = inr e ->
     isinstance_SerialException e = false ->
     (n < fuel)%nat ->
     open_serial env fuel port baud s =
       (Raise e,
        with_world (S (tick s + n))
          (trace s ++ failed_attempts port baud SerialException n ++
             [EvCall (serial_Serial port baud)]) s)).
Proof.
  intros Hfail. split; [|split; [|split]].
  - intros Hle. apply open_serial_keeps_trying.
    intros k Hk. apply Hfail. lia.
  - intros h fd Hopen Hfd Hlt. by apply open_serial_run.
  - intros h s'. apply open_serial_returns_opened.
  - intros e Hopen He Hlt. by apply open_serial_raises.
Qed.

(** The device is absent for two attempts; at the third it is present, or
    [serial.Serial] raises an exception of another class. *)
Lemma open_serial_retries_until_open_witness :
  let absent := [(0%nat, SerialException); (1%nat, SerialException)] in
  open_serial (scenario any_fd [] absent 0%float) 5 REAL_PORT BAUD boot =
    (Ok 4,
     with_world 4
       (failed_attempts REAL_PORT BAUD SerialException 2 ++
          [EvCall (serial_Serial REAL_PORT BAUD);
           EvCall (ser_fileno 4);
           EvLog INFO (msg_serial_opened REAL_PORT 4)]) boot) /\
  open_serial (scenario any_fd [] (absent ++ [(2%nat, OtherError)]) 0%float)
    5 REAL_PORT BAUD boot =
    (Raise OtherError,
     with_world 3
       (failed_attempts REAL_PORT BAUD SerialException 2 ++
          [EvCall (serial_Serial REAL_PORT BAUD)]) boot).
Proof.
  intros absent. split.
  - refine (proj1 (proj2 (open_serial_retries_until_open
                            (scenario any_fd [] absent 0%float)
                            REAL_PORT BAUD boot 2 5 _)) 4 4 _ _ _).
    + intros [|[|k]] Hk; [reflexivity|reflexivity|lia].
    + reflexivity.
    + reflexivity.
    + lia.
  - refine (proj2 (proj2 (proj2 (open_serial_retries_until_open
                                   (scenario any_fd []
                                      (absent ++ [(2%nat, OtherError)]) 0%float)
                                   REAL_PORT BAUD boot 2 5 _)))
              OtherError _ _ _).
    + intros [|[|k]] Hk; [reflexivity|reflexivity|lia].
    + reflexivity.
    + reflexivity.
    + lia.
Defined.

(** C8 (counterexample to the claim as stated).  [serial.Serial] rejects
    its arguments with an exception that is not a
    [serial.SerialException] (the [ValueError] it raises for a baud rate
    out of range, say): the first attempt ends [open_serial], which raises
    that exception; nothing is logged, there is no wait and no second
    attempt, whatever the fuel. *)
Lemma open_serial_raises_counterexample :
  let env := scenario any_fd [] [(0%nat, OtherError)] 0%float in
  isinstance_SerialException OtherError = false /\
  forall fuel,
    open_serial env (S fuel) REAL_PORT (-1) boot =
      (Raise OtherError,
       mk_state 1 [EvCall (serial_Serial REAL_PORT (-1))] 0 [] false 0 0
         0%float).
Proof. split; [reflexivity|]. intros fuel. vm_compute. reflexivity. Qed.

(** ** Observations distribute over concatenation *)

Lemma writes_of_app a b : writes_of (a ++ b) = writes_of a ++ writes_of b.
Proof. apply omap_app. Qed.

Lemma reads_of_app a b : reads_of (a ++ b) = reads_of a ++ reads_of b.
Proof. apply omap_app. Qed.

Lemma closes_of_app a b : closes_of (a ++ b) = closes_of a ++ closes_of b.
Proof. apply omap_app. Qed.

Lemma unlinks_of_app a b : unlinks_of (a ++ b) = unlinks_of a ++ unlinks_of b.
Proof. apply omap_app. Qed.

Lemma ser_writes_of_app a b :
  ser_writes_of (a ++ b) = ser_writes_of a ++ ser_writes_of b.
Proof. apply omap_app. Qed.

Lemma ser_closes_of_app a b :
  ser_closes_of (a ++ b) = ser_closes_of a ++ ser_closes_of b.
Proof. apply omap_app. Qed.

Lemma logs_of_app a b : logs_of (a ++ b) = logs_of a ++ logs_of b.
Proof. apply omap_app. Qed.

(** ** Lists of references *)

Lemma omap_pointwise {A B} (f g : A -> option B) (l : list A) :
  (forall x, f x = g x) -> omap f l = omap g l.
Proof. intros H. induction l as [|x l IH]; cbn; [done|]. by rewrite H, IH. Qed.

Lemma select_refs_from {B} (f : vport -> B) (p : vport -> bool) vs : forall pre,
  omap (fun i => f <$> (pre ++ vs) !! i)
       (List.filter (fun i => match (pre ++ vs) !! i with
                              | Some v => p v
                              | None => false
                              end)
                    (seq (length pre) (length vs)))
  = f <$> List.filter p vs.
Proof.
  induction vs as [|v vs IH]; intros pre; [done|].
  cbn [length seq List.filter].
  rewrite list_lookup_middle by done.
  specialize (IH (pre ++ [v])).
  rewrite <- app_assoc, length_app, Nat.add_1_r in IH. cbn [app] in IH.
  destruct (p v); cbn [omap list_omap fmap list_fmap].
  - rewrite list_lookup_middle by done. cbn. by rewrite <- IH.
  - by rewrite <- IH.
Qed.

(** Dereferencing [[v for v in vs if p(v)]] gives the records of [vs] that
    satisfy [p], in order. *)
Lemma select_refs_deref {B} (f : vport -> B) (p : vport -> bool) vs :
  omap (fun i => f <$> vs !! i) (select_refs p vs) = f <$> List.filter p vs.
Proof. apply (select_refs_from f p vs []). Qed.

(** ** Loops that visit the records in order *)

Lemma alter_middle {A} (f : A -> A) (pre : list A) x post :
  alter f (length pre) (pre ++ x :: post) = pre ++ f x :: post.
Proof.
  rewrite alter_app_r_alt by lia. by rewrite Nat.sub_diag.
Qed.

Lemma insert_middle {A} (pre : list A) x y post :
  <[length pre := y]> (pre ++ x :: post) = pre ++ y :: post.
Proof.
  rewrite insert_app_r_alt by lia. by rewrite Nat.sub_diag.
Qed.

(** A loop over the elements that satisfy [p] is the loop over all
    elements that skips the others. *)
Lemma for_each_ctl_filter {A} (p : A -> bool) (body : A -> M ctl) l : forall s,
  for_each_ctl (List.filter p l) body s =
  for_each_ctl l (fun x => if p x then body x else ret Next) s.
Proof.
  induction l as [|x l IH]; intros s; cbn [List.filter for_each_ctl]; [done|].
  destruct (p x); cbn [for_each_ctl]; unfold bind.
  - destruct (body x s) as [[[]|e|] s1]; [apply IH|done..].
  - cbn. apply IH.
Qed.

Lemma with_vports_world_same s :
  with_vports (vports s) (with_world (tick s) (trace s) s) = s.
Proof. by destruct s. Qed.

Section PassSpec.

Context (visit : nat -> vport -> option (list event * vport)).
Context (body : nat -> M ctl) (orig : list vport).

(** The body of the loop, run on the index of a record that no earlier
    pass of the body has touched, does to that record what [visit] says. *)
Hypothesis body_visits : forall s pre0 pre v post,
  length pre0 = length pre ->
  orig = pre0 ++ v :: post ->
  vports s = pre ++ v :: post ->
  body (length pre) s =
    (Ok Next,
     match visit (tick s) v with
     | Some (ev, v') =>
         with_vports (pre ++ v' :: post)
           (with_world (S (tick s)) (trace s ++ ev) s)
     | None => s
     end).

Lemma for_each_ctl_pass_spec vs : forall pre0 pre s,
  length pre0 = length pre ->
  orig = pre0 ++ vs ->
  vports s = pre ++ vs ->
  for_each_ctl (seq (length pre) (length vs)) body s =
    (Ok Next,
     let '(t', evs, vs') := pass_spec visit (tick s) vs in
     with_vports (pre ++ vs') (with_world t' (trace s ++ evs) s)).
Proof using body_visits.
  induction vs as [|v vs IH]; intros pre0 pre s Hlen Horig Hs;
    cbn [length seq for_each_ctl pass_spec].
  - rewrite app_nil_r in Hs. unfold ret.
    rewrite !app_nil_r, <- Hs. by rewrite with_vports_world_same.
  - unfold bind. rewrite (body_visits s pre0 pre v vs Hlen Horig Hs).
    destruct (visit (tick s) v) as [[ev v']|].
    + match goal with
      | |- for_each_ctl _ _ ?s1 = _ =>
          specialize (IH (pre0 ++ [v]) (pre ++ [v']) s1)
      end.
      rewrite !length_app in IH. cbn [length] in IH.
      rewrite !Nat.add_1_r, <- !app_assoc in IH. cbn [app] in IH.
      rewrite IH by (done || congruence). cbn [tick trace with_world with_vports].
      destruct (pass_spec visit (S (tick s)) vs) as [[t' evs] vs''].
      f_equal. cbn. by rewrite <- !app_assoc.
    + specialize (IH (pre0 ++ [v]) (pre ++ [v]) s).
      rewrite !length_app in IH. cbn [length] in IH.
      rewrite !Nat.add_1_r, <- !app_assoc in IH. cbn [app] in IH.
      rewrite IH by (done || congruence).
      destruct (pass_spec visit (tick s) vs) as [[t' evs] vs''].
      by rewrite <- !app_assoc.
Qed.

(** The loop over all the indices of the list, from its start. *)
Lemma for_each_ctl_pass_spec_all s :
  orig = vports s ->
  for_each_ctl (indices (vports s)) body s =
    (Ok Next,
     let '(t', evs, vs') := pass_spec visit (tick s) (vports s) in
     with_vports vs' (with_world t' (trace s ++ evs) s)).
Proof using body_visits.
  intros Horig. exact (for_each_ctl_pass_spec (vports s) [] [] s eq_refl Horig eq_refl).
Qed.

End PassSpec.

(** ** Flags only go down in a broadcast *)

Lemma only_killed_refl vs : only_killed vs vs.
Proof. apply Forall_Forall2_diag, Forall_forall. by left. Qed.

Lemma killed_trans v1 v2 v3 : killed v1 v2 -> killed v2 v3 -> killed v1 v3.
Proof. intros [->| ->] [->| ->]; (by left) || (by right). Qed.

Lemma only_killed_trans vs1 vs2 vs3 :
  only_killed vs1 vs2 -> only_killed vs2 vs3 -> only_killed vs1 vs3.
Proof.
  intros H12 H23. eapply Forall2_trans; [|exact H12|exact H23].
  apply killed_trans.
Qed.

Lemma only_killed_alter vs i : only_killed vs (alter (set_alive false) i vs).
Proof.
  revert i. induction vs as [|v vs IH]; intros [|i]; cbn.
  - constructor.
  - constructor.
  - constructor; [by right|apply only_killed_refl].
  - constructor; [by left|apply IH].
Qed.

Lemma only_killed_lookup {B} (f : vport -> B) vs vs' i :
  only_killed vs vs' ->
  (forall v, f (set_alive false v) = f v) ->
  f <$> vs' !! i = f <$> vs !! i.
Proof.
  intros H Hf. revert i. induction H as [|v v' vs vs' Hk _ IH]; intros [|i]; cbn.
  - done.
  - done.
  - destruct Hk as [->| ->]; by rewrite ?Hf.
  - apply IH.
Qed.

Section Broadcast.

Context (env : Env) (data : bytes).

(** The handler of lines 156-161, as a function of what [os.write]
    answers. *)
Lemma broadcast_one_run s i v :
  vports s !! i = Some v ->
  let w := EvCall (os_write (master_fd v) data) in
  broadcast_one env data i s =
    match env_sys env (tick s) (os_write (master_fd v) data) with
    | inl _ => (Ok Next, with_world (S (tick s)) (trace s ++ [w]) s)
    | inr e =>
        if isinstance_OSError e then
          if errno_is e EAGAIN || errno_is e EIO then
            (Ok Next,
             with_world (S (tick s))
               (trace s ++ [w; EvLog DEBUG (msg_write_skipped (path v)
                                              (default 0 (errno_of e)))]) s)
          else
            (Ok Next,
             with_vports (alter (set_alive false) i (vports s))
               (with_world (S (tick s))
                  (trace s ++ [w; EvLog WARNING (msg_write_failed (path v) e)])
                  s))
        else (Raise e, with_world (S (tick s)) (trace s ++ [w]) s)
    end.
Proof.
  intros Hv w. unfold broadcast_one. run. rewrite Hv. run.
  destruct (env_sys env (tick s) (os_write (master_fd v) data)) as [k|e]; [done|].
  destruct (isinstance_OSError e); [|done].
  destruct (errno_is e EAGAIN || errno_is e EIO); run;
    by rewrite <- !app_assoc.
Qed.

Hypothesis write_raises_OSError : forall t fd e,
  env_sys env t (os_write fd data) = inr e -> isinstance_OSError e = true.

Lemma broadcast_loop refs : forall s,
  exists s' tr,
    for_each_ctl refs (broadcast_one env data) s = (Ok Next, s') /\
    trace s' = trace s ++ tr /\
    writes_of tr =
      omap (fun i => (fun v => (master_fd v, data)) <$> vports s !! i) refs /\
    only_killed (vports s) (vports s').
Proof.
  induction refs as [|i refs IH]; intros s.
  - exists s, []. cbn. rewrite app_nil_r. repeat split. apply only_killed_refl.
  - cbn [for_each_ctl]. unfold bind at 1.
    assert (exists s1 tr1,
      broadcast_one env data i s = (Ok Next, s1) /\
      trace s1 = trace s ++ tr1 /\
      writes_of tr1 =
        from_option (fun v => [(master_fd v, data)]) [] (vports s !! i) /\
      only_killed (vports s) (vports s1)) as (s1 & tr1 & -> & Htr1 & Hw1 & Hk1).
    { destruct (vports s !! i) as [v|] eqn:Hv.
      - rewrite (broadcast_one_run s i v Hv). cbn zeta.
        destruct (env_sys env (tick s) (os_write (master_fd v) data))
          as [k|e] eqn:E.
        + eexists _, _. split; [done|]. cbn. repeat split.
          apply only_killed_refl.
        + rewrite (write_raises_OSError _ _ _ E).
          destruct (errno_is e EAGAIN || errno_is e EIO).
          * eexists _, _. split; [done|]. cbn. repeat split.
            apply only_killed_refl.
          * eexists _, _. split; [done|]. cbn. repeat split.
            apply only_killed_alter.
      - exists s, []. unfold broadcast_one. run. rewrite Hv. cbn.
        rewrite app_nil_r. repeat split. apply only_killed_refl. }
    destruct (IH s1) as (s' & tr & Hrun & Htr & Hw & Hk).
    exists s', (tr1 ++ tr). rewrite Hrun. split; [done|].
    split; [by rewrite Htr, Htr1, app_assoc|].
    split; [|by eapply only_killed_trans].
    rewrite writes_of_app, Hw1, Hw.
    cbn [omap list_omap].
    assert (forall j, (fun v => (master_fd v, data)) <$> vports s1 !! j
                      = (fun v => (master_fd v, data)) <$> vports s !! j) as Hfd
      by (intros j; by apply only_killed_lookup).
    rewrite (omap_pointwise _ _ refs Hfd).
    by destruct (vports s !! i).
Qed.

(** The broadcast loop does what [broadcast_spec] says. *)
Lemma broadcast_run s :
  broadcast env data s =
    (Ok tt,
     let '(t', evs, vs') := broadcast_spec env data (tick s) (vports s) in
     with_vports vs' (with_world t' (trace s ++ evs) s)).
Proof using write_raises_OSError.
  unfold broadcast, for_each. unfold bind at 1, get. unfold bind at 1.
  unfold select_refs. rewrite for_each_ctl_filter.
  rewrite (for_each_ctl_pass_spec_all
             (fun t v =>
                if alive v
                then Some (write_spec data v
                             (env_sys env t (os_write (master_fd v) data)))
                else None) _ (vports s)); [done| |done].
  intros s1 pre0 pre v post Hlen Horig Hs1.
  rewrite Horig, <- Hlen, list_lookup_middle by done.
  destruct (alive v); [|done]. rewrite Hlen.
  assert (vports s1 !! length pre = Some v) as Hv
    by (rewrite Hs1; by apply list_lookup_middle).
  rewrite (broadcast_one_run s1 _ v Hv). cbn zeta. unfold write_spec.
  destruct (env_sys env (tick s1) (os_write (master_fd v) data))
    as [k|e] eqn:E.
  - by rewrite <- Hs1.
  - rewrite (write_raises_OSError _ _ _ E).
    destruct (errno_is e EAGAIN || errno_is e EIO).
    + by rewrite <- Hs1.
    + by rewrite Hs1, alter_middle.
Qed.

End Broadcast.

Section DeviceReadable.

Context (env : Env).

Lemma read_device_data s n data :
  env_sys env (tick s) (ser_in_waiting (ser s)) = inl n ->
  env_sys env (S (tick s)) (ser_read (ser s) (if n =? 0 then 1 else n))
    = inl data ->
  data <> [] ->
  read_device env s =
    (Ok (Data data),
     with_world (S (S (tick s)))
       (trace s ++ [EvCall (ser_in_waiting (ser s));
                    EvCall (ser_read (ser s) (if n =? 0 then 1 else n))]) s).
Proof.
  intros Hn Hd Hne. unfold read_device. run. rewrite Hn. run. rewrite Hd. run.
  destruct data; [done|]. by rewrite <- app_assoc.
Qed.

(** C2.  When the device read of lines 139-141 yields a non-empty chunk,
    the dispatch counts it, logs it and broadcasts it, and the state it
    leaves is the one [broadcast_spec] describes: [os.write(master_fd,
    chunk)] is issued once for every endpoint whose [alive] flag is set,
    idle or not, in list order and whatever the earlier writes answered; a
    write that raises EAGAIN or EIO is logged at DEBUG and leaves every
    record as it was, and a write that raises another [OSError] is logged
    at WARNING and clears the [alive] flag of that endpoint and of no
    other; either way the loop goes on ([Next]). *)
Theorem broadcast_reaches_every_alive_endpoint fuel s n data :
  env_sys env (tick s) (ser_in_waiting (ser s)) = inl n ->
  env_sys env (S (tick s)) (ser_read (ser s) (if n =? 0 then 1 else n))
    = inl data ->
  data <> [] ->
  (forall t fd e,
     env_sys env t (os_write fd data) = inr e -> isinstance_OSError e = true) ->
  (let '(t', evs, vs') :=
     broadcast_spec env data (S (S (tick s))) (vports s) in
   dispatch_serial env fuel s =
     (Ok Next,
      with_vports vs'
        (with_bytes_from (bytes_from_device s + Z.of_nat (length data))
           (with_world t'
              (trace s ++
                 [EvCall (ser_in_waiting (ser s));
                  EvCall (ser_read (ser s) (if n =? 0 then 1 else n));
                  EvLog DEBUG (msg_device_to_vports (Z.of_nat (length data)))]
                 ++ evs) s)))) /\
  (exists s' tr,
     dispatch_serial env fuel s = (Ok Next, s') /\
     trace s' =
       trace s ++ [EvCall (ser_in_waiting (ser s));
                   EvCall (ser_read (ser s) (if n =? 0 then 1 else n));
                   EvLog DEBUG (msg_device_to_vports (Z.of_nat (length data)))]
               ++ tr /\
     writes_of tr = (fun v => (master_fd v, data)) <$> List.filter alive (vports s) /\
     only_killed (vports s) (vports s')) /\
  (forall s1 i v e,
     vports s1 !! i = Some v ->
     env_sys env (tick s1) (os_write (master_fd v) data) = inr e ->
     let w := EvCall (os_write (master_fd v) data) in
     broadcast_one env data i s1 =
       if errno_is e EAGAIN || errno_is e EIO then
         (Ok Next,
          with_world (S (tick s1))
            (trace s1 ++ [w; EvLog DEBUG (msg_write_skipped (path v)
                                            (default 0 (errno_of e)))]) s1)
       else
         (Ok Next,
          with_vports (alter (set_alive false) i (vports s1))
            (with_world (S (tick s1))
               (trace s1 ++ [w; EvLog WARNING (msg_write_failed (path v) e)])
               s1))).
Proof.
  intros Hn Hd Hne Hos. split; [|split].
  - unfold dispatch_serial, bind at 1, try_except.
    rewrite (read_device_data s n data Hn Hd Hne).
    unfold bind at 1, modify. unfold bind at 1, log, emit, modify.
    unfold bind at 1. rewrite (broadcast_run env data Hos).
    cbn [tick trace vports with_world with_bytes_from].
    destruct (broadcast_spec env data (S (S (tick s))) (vports s))
      as [[t' evs] vs'].
    unfold ret. cbn. by rewrite <- !app_assoc.
  - unfold dispatch_serial, bind at 1, try_except.
    rewrite (read_device_data s n data Hn Hd Hne).
    unfold broadcast, for_each. run.
    match goal with
    | |- context [for_each_ctl ?refs _ ?s0] =>
        destruct (broadcast_loop env data Hos refs s0)
          as (s' & tr & Hrun & Htr & Hw & Hk)
    end.
    rewrite Hrun. exists s', tr. split; [done|].
    cbn in Htr, Hw, Hk. split; [by rewrite Htr, <- !app_assoc|].
    split; [|done]. rewrite Hw. apply select_refs_deref.
  - intros s1 i v e Hv He w.
    rewrite (broadcast_one_run env data s1 i v Hv). cbn zeta.
    rewrite He. by rewrite (Hos _ _ _ He).
Qed.

End DeviceReadable.

(** The write to the first endpoint would block, the write to the second
    fails with EBADF, the third succeeds: all three are attempted and only
    the second endpoint is marked dead. *)
Lemma broadcast_reaches_every_alive_endpoint_witness :
  let env := scenario any_fd [] [(2%nat, OSError EAGAIN); (3%nat, OSError EBADF)]
               0%float in
  let data := [Byte.x01; Byte.x02] in
  dispatch_serial env 1 three_vports =
    (Ok Next,
     mk_state 5
       [EvCall (ser_in_waiting 3); EvCall (ser_read 3 2);
        EvLog DEBUG (msg_device_to_vports 2);
        EvCall (os_write 10 data);
        EvLog DEBUG (msg_write_skipped "/dev/ttyV0" EAGAIN);
        EvCall (os_write 11 data);
        EvLog WARNING (msg_write_failed "/dev/ttyV1" (OSError EBADF));
        EvCall (os_write 12 data)]
       3
       [mk_vport 10 "/dev/ttyV0" "/dev/pts/5" true true;
        mk_vport 11 "/dev/ttyV1" "/dev/pts/6" false false;
        mk_vport 12 "/dev/ttyV2" "/dev/pts/7" true true] true 2 0 0%float).
Proof.
  intros env data.
  refine (proj1 (broadcast_reaches_every_alive_endpoint
                   env 1 three_vports 2 data _ _ _ _)).
  - reflexivity.
  - reflexivity.
  - discriminate.
  - intros [|[|[|[|t]]]] fd e; cbn; intros [= <-]; reflexivity.
Defined.

(** ** Helpers that touch only the clock and the trace *)

Lemma world_only_ret {A} (a : A) : world_only (ret a).
Proof.
  intros s r s' [= <- <-]. exists (tick s), [].
  by rewrite app_nil_r, with_world_same.
Qed.

Lemma world_only_bind {A B} (m : M A) (k : A -> M B) :
  world_only m -> (forall a, world_only (k a)) -> world_only (bind m k).
Proof.
  intros Hm Hk s r s'. unfold bind.
  destruct (m s) as [[a|e|] s1] eqn:E; destruct (Hm _ _ _ E) as (t1 & tr1 & ->).
  - intros H. destruct (Hk _ _ _ _ H) as (t2 & tr2 & ->).
    exists t2, (tr1 ++ tr2). cbn. by rewrite app_assoc.
  - intros [= <- <-]. by exists t1, tr1.
  - intros [= <- <-]. by exists t1, tr1.
Qed.

Lemma world_only_try {A} (m : M A) h :
  world_only m -> (forall e k, h e = Some k -> world_only k) ->
  world_only (try_except m h).
Proof.
  intros Hm Hh s r s'. unfold try_except.
  destruct (m s) as [[a|e|] s1] eqn:E; destruct (Hm _ _ _ E) as (t1 & tr1 & ->).
  - intros [= <- <-]. by exists t1, tr1.
  - destruct (h e) as [k|] eqn:Eh.
    + intros H. destruct (Hh _ _ Eh _ _ _ H) as (t2 & tr2 & ->).
      exists t2, (tr1 ++ tr2). cbn. by rewrite app_assoc.
    + intros [= <- <-]. by exists t1, tr1.
  - intros [= <- <-]. by exists t1, tr1.
Qed.

Lemma world_only_sys env c : world_only (sys env c).
Proof.
  intros s r s'. unfold sys.
  destruct (env_sys env (tick s) c); intros [= <- <-]; by eexists _, _.
Qed.

Lemma world_only_islink env p : world_only (os_path_islink env p).
Proof. intros s r s' [= <- <-]. by eexists _, _. Qed.

Lemma world_only_emit ev : world_only (emit ev).
Proof. intros s r s' [= <- <-]. by eexists _, _. Qed.

Lemma world_only_raise {A} e : world_only (@raise A e).
Proof.
  intros s r s' [= <- <-]. exists (tick s), [].
  by rewrite app_nil_r, with_world_same.
Qed.

Lemma world_only_spin {A} : world_only (@spin A).
Proof.
  intros s r s' [= <- <-]. exists (tick s), [].
  by rewrite app_nil_r, with_world_same.
Qed.

Create HintDb world.
#[local] Hint Resolve world_only_ret world_only_sys world_only_islink
  world_only_emit world_only_raise world_only_spin : world.

Ltac world :=
  repeat first
    [ progress intros
    | apply world_only_bind
    | apply world_only_try
    | match goal with
      | |- world_only (sys ?e ?c) => apply (world_only_sys e c)
      end
    | solve [auto with world]
    | progress unfold log
    | progress unfold time_sleep
    | match goal with
      | H : (if ?b then _ else _) = Some _ |- _ => destruct b; simplify_eq
      | |- world_only (if ?b then _ else _) => destruct b
      | |- world_only (match ?x with _ => _ end) => destruct x
      end ].

Lemma world_only_open_serial env fuel port baud :
  world_only (open_serial env fuel port baud).
Proof.
  induction fuel as [|fuel IH]; cbn [open_serial]; [apply world_only_spin|].
  apply world_only_bind.
  - unfold open_serial_attempt. world.
  - intros [h|]; [apply world_only_ret|apply IH].
Qed.

Lemma world_only_create_vport env p : world_only (create_vport env p).
Proof.
  unfold create_vport. world.
Qed.

Lemma world_only_close_quietly env fd : world_only (close_quietly env fd).
Proof.
  unfold close_quietly. world.
Qed.

Lemma world_only_recreate_vport env v : world_only (recreate_vport env v).
Proof.
  unfold recreate_vport, close_quietly, create_vport. world.
Qed.

(** [reconnect] logs, closes the stale handle, and from then on changes
    nothing but the device handle. *)
Lemma reconnect_shape env fuel m e s r s' :
  reconnect env fuel m e s = (r, s') ->
  exists t tr h,
    s' = with_ser h
           (with_world t
              (trace s ++ [EvLog WARNING (m e); EvCall (ser_close (ser s))] ++ tr)
              s).
Proof.
  unfold reconnect. run.
  set (s1 := mk_state (S (tick s)) _ _ _ _ _ _ _).
  destruct (env_sys env (tick s) (ser_close (ser s))) as [[]|e0];
    [|destruct (isinstance_Exception e0)].
  - destruct (open_serial env fuel REAL_PORT BAUD s1) as [[h|e1|] s2] eqn:E;
      destruct (world_only_open_serial _ _ _ _ _ _ _ E) as (t & tr & ->);
      intros [= <- <-]; subst s1; cbn.
    + exists t, tr, h. by rewrite <- !app_assoc.
    + exists t, tr, (ser s). by rewrite <- !app_assoc.
    + exists t, tr, (ser s). by rewrite <- !app_assoc.
  - destruct (open_serial env fuel REAL_PORT BAUD s1) as [[h|e1|] s2] eqn:E;
      destruct (world_only_open_serial _ _ _ _ _ _ _ E) as (t & tr & ->);
      intros [= <- <-]; subst s1; cbn.
    + exists t, tr, h. by rewrite <- !app_assoc.
    + exists t, tr, (ser s). by rewrite <- !app_assoc.
    + exists t, tr, (ser s). by rewrite <- !app_assoc.
  - intros [= <- <-]. subst s1. exists (S (tick s)), [], (ser s).
    cbn. by rewrite <- !app_assoc.
Qed.

Section EndpointReadable.

Context (env : Env).

Lemma dispatch_vport_read_error fuel active_vports fd s i v e :
  find_vport (vports s) active_vports fd = Some i ->
  vports s !! i = Some v ->
  env_sys env (tick s) (os_read fd 4096) = inr e ->
  isinstance_OSError e = true ->
  let after tr :=
    with_world (S (tick s)) (trace s ++ EvCall (os_read fd 4096) :: tr) s in
  dispatch_vport env fuel active_vports fd s =
    if errno_is e EAGAIN || errno_is e EINTR then
      (Ok Next, after [])
    else if errno_is e EIO then
      (Ok Next,
       with_vports (alter (set_idle true) i (vports s))
         (after [EvLog INFO (msg_eio (path v))]))
    else
      (Ok Next,
       with_vports (alter (set_alive false) i (vports s))
         (after [EvLog WARNING (msg_read_failed (path v) e)])).
Proof.
  intros Hfind Hv Hrd He after. subst after.
  unfold dispatch_vport. run. rewrite Hfind, Hv. run.
  rewrite Hrd, He.
  destruct (errno_is e EAGAIN || errno_is e EINTR); [done|].
  destruct (errno_is e EIO); run; by rewrite <- !app_assoc.
Qed.

(** C4.  What the dispatch of a readable endpoint does with the answer of
    [os.read(fd, 4096)].  End of stream, and EIO, set [idle] and leave
    [alive] as it was; EAGAIN and EINTR change no record; any other
    [OSError] clears [alive]; in none of these cases is [ser.write]
    called.  Only a non-empty chunk is passed to [ser.write], and the
    endpoint records are then left as they were. *)
Theorem endpoint_read_outcomes fuel active_vports fd s i v :
  find_vport (vports s) active_vports fd = Some i ->
  vports s !! i = Some v ->
  let rd := EvCall (os_read fd 4096) in
  let after tr := with_world (S (tick s)) (trace s ++ rd :: tr) s in
  (env_sys env (tick s) (os_read fd 4096) = inl [] ->
   dispatch_vport env fuel active_vports fd s =
     (Ok Next,
      with_vports (alter (set_idle true) i (vports s))
        (after [EvLog INFO (msg_eof (path v))]))) /\
  (forall e,
     env_sys env (tick s) (os_read fd 4096) = inr e ->
     isinstance_OSError e = true ->
     dispatch_vport env fuel active_vports fd s =
       if errno_is e EAGAIN || errno_is e EINTR then
         (Ok Next, after [])
       else if errno_is e EIO then
         (Ok Next,
          with_vports (alter (set_idle true) i (vports s))
            (after [EvLog INFO (msg_eio (path v))]))
       else
         (Ok Next,
          with_vports (alter (set_alive false) i (vports s))
            (after [EvLog WARNING (msg_read_failed (path v) e)]))) /\
  (forall data,
     env_sys env (tick s) (os_read fd 4096) = inl data ->
     data <> [] ->
     exists r s' tr,
       dispatch_vport env fuel active_vports fd s = (r, s') /\
       trace s' =
         trace s ++ [rd;
                     EvLog DEBUG (msg_vport_to_device (path v)
                                    (Z.of_nat (length data)));
                     EvCall (ser_write (ser s) data)] ++ tr /\
       vports s' = vports s).
Proof.
  intros Hfind Hv rd after. subst rd after. split; [|split].
  - intros Hrd. unfold dispatch_vport. run. rewrite Hfind, Hv. run.
    rewrite Hrd. run. by rewrite <- !app_assoc.
  - intros e Hrd He. unfold dispatch_vport. run. rewrite Hfind, Hv. run.
    rewrite Hrd, He.
    destruct (errno_is e EAGAIN || errno_is e EINTR); [done|].
    destruct (errno_is e EIO); run; by rewrite <- !app_assoc.
  - intros data Hrd Hne. unfold dispatch_vport. run. rewrite Hfind, Hv. run.
    rewrite Hrd. destruct data as [|b data]; [done|]. run.
    set (d := b :: data). fold d in Hrd.
    destruct (env_sys env (S (tick s)) (ser_write (ser s) d)) as [k|e].
    + eexists _, _, []. split; [done|]. cbn. by rewrite <- !app_assoc.
    + destruct (device_error e).
      * match goal with
        | |- context [reconnect env fuel ?m e ?s0] =>
            destruct (reconnect env fuel m e s0) as [r s'] eqn:E;
            destruct (reconnect_shape _ _ _ _ _ _ _ E) as (t & tr & h & ->)
        end.
        eexists _, _, _. split; [done|]. cbn. split; [|done].
        by rewrite <- !app_assoc.
      * eexists _, _, []. split; [done|]. cbn. by rewrite <- !app_assoc.
Qed.

End EndpointReadable.

(** The client of the active endpoint on fd 10 has hung up: the read
    returns the empty string. *)
Lemma endpoint_read_outcomes_witness :
  let env := scenario any_fd [] [] 0%float in
  dispatch_vport env 1 [0%nat] 10 (one_vport true false) =
    (Ok Next,
     mk_state 1 [EvCall (os_read 10 4096); EvLog INFO (msg_eof "/dev/ttyV0")]
       3 [mk_vport 10 "/dev/ttyV0" "/dev/pts/5" true true] true 0 0 0%float).
Proof.
  intros env.
  refine (proj1 (endpoint_read_outcomes env 1 [0%nat] 10 (one_vport true false)
                   0%nat (mk_vport 10 "/dev/ttyV0" "/dev/pts/5" true false) _ _) _).
  - reflexivity.
  - reflexivity.
  - reflexivity.
Defined.

(** ** Loops over references *)

Lemma omap_pointwise_in {A B} (f g : A -> option B) (l : list A) :
  (forall x, x ∈ l -> f x = g x) -> omap f l = omap g l.
Proof.
  induction l as [|x l IH]; intros H; cbn; [done|].
  rewrite (H x) by left. rewrite IH; [done|].
  intros y Hy. apply H. by right.
Qed.

Lemma omap_lookup_from {B} (g : vport -> option B) vs : forall pre,
  omap (fun i => (pre ++ vs) !! i ≫= g) (seq (length pre) (length vs))
  = omap g vs.
Proof.
  induction vs as [|v vs IH]; intros pre; [done|].
  cbn [length seq omap list_omap].
  rewrite list_lookup_middle by done. cbn [mbind option_bind].
  specialize (IH (pre ++ [v])).
  rewrite <- app_assoc, length_app, Nat.add_1_r in IH. cbn [app] in IH.
  by rewrite IH.
Qed.

(** Walking the indices of [vs] visits the records of [vs] in order. *)
Lemma omap_lookup_indices {B} (g : vport -> option B) vs :
  omap (fun i => vs !! i ≫= g) (indices vs) = omap g vs.
Proof. apply (omap_lookup_from g vs []). Qed.

Lemma omap_filter {A B} (p : A -> bool) (f : A -> B) (l : list A) :
  omap (fun x => if p x then Some (f x) else None) l = f <$> List.filter p l.
Proof.
  induction l as [|x l IH]; cbn; [done|].
  destruct (p x); cbn; by rewrite IH.
Qed.

(** A property of the state before and after that every pass of a loop
    body keeps is kept by the loop. *)
Lemma for_each_ctl_rel {A} (R : State -> State -> Prop) (body : A -> M ctl) l :
  (forall s, R s s) ->
  (forall s1 s2 s3, R s1 s2 -> R s2 s3 -> R s1 s3) ->
  (forall x s r s', body x s = (r, s') -> R s s') ->
  forall s r s', for_each_ctl l body s = (r, s') -> R s s'.
Proof.
  intros Hrefl Htrans Hbody.
  induction l as [|x l IH]; intros s r s'; cbn [for_each_ctl].
  - intros [= <- <-]. apply Hrefl.
  - unfold bind. destruct (body x s) as [[[]|e|] s1] eqn:E;
      pose proof (Hbody _ _ _ _ E) as H1.
    + intros H. eapply Htrans; [exact H1|]. by eapply IH.
    + by intros [= <- <-].
    + by intros [= <- <-].
    + by intros [= <- <-].
Qed.

Lemma for_each_rel {A} (R : State -> State -> Prop) (body : A -> M ctl) l :
  (forall s, R s s) ->
  (forall s1 s2 s3, R s1 s2 -> R s2 s3 -> R s1 s3) ->
  (forall x s r s', body x s = (r, s') -> R s s') ->
  forall s r s', for_each l body s = (r, s') -> R s s'.
Proof.
  intros Hrefl Htrans Hbody s r s'. unfold for_each, bind.
  destruct (for_each_ctl l body s) as [[c|e|] s1] eqn:E;
    intros [= <- <-]; by eapply for_each_ctl_rel.
Qed.

(** A loop over [l1 ++ l2] is the loop over [l1] followed, unless that
    one broke off, by the loop over [l2]. *)
Lemma for_each_ctl_app {A} (l1 l2 : list A) (body : A -> M ctl) s :
  for_each_ctl (l1 ++ l2) body s =
    (c <- for_each_ctl l1 body ;;
     match c with
     | Next => for_each_ctl l2 body
     | Break => ret Break
     end) s.
Proof.
  revert s. induction l1 as [|x l1 IH]; intros s; cbn [app for_each_ctl].
  - done.
  - unfold bind. unfold bind in IH.
    destruct (body x s) as [[[]|e|] s1]; [apply IH|done..].
Qed.

Section Probe.

Context (env : Env).

(** Lines 201-216 as a function of what [os.read] answers. *)
Lemma probe_one_run s i v :
  vports s !! i = Some v ->
  let rd := EvCall (os_read (master_fd v) 1) in
  probe_one env i s =
    if alive v && idle v then
      match env_sys env (tick s) (os_read (master_fd v) 1) with
      | inl _ => (Ok Next, connected i v s)
      | inr e =>
          if isinstance_OSError e then
            if errno_is e EAGAIN then (Ok Next, connected i v s)
            else if errno_is e EIO then
              (Ok Next, with_world (S (tick s)) (trace s ++ [rd]) s)
            else
              (Ok Next,
               with_vports (alter (set_alive false) i (vports s))
                 (with_world (S (tick s))
                    (trace s ++ [rd; EvLog WARNING (msg_probe_failed (path v) e)])
                    s))
          else (Raise e, with_world (S (tick s)) (trace s ++ [rd]) s)
      end
    else (Ok Next, s).
Proof.
  intros Hv rd. unfold probe_one, connected. run. rewrite Hv.
  destruct (alive v && idle v); [|done]. run.
  destruct (env_sys env (tick s) (os_read (master_fd v) 1)) as [d|e]; run.
  - by rewrite <- !app_assoc.
  - destruct (isinstance_OSError e); [|done].
    destruct (errno_is e EAGAIN); run; [by rewrite <- !app_assoc|].
    destruct (errno_is e EIO); run; by rewrite <- ?app_assoc.
Qed.

Lemma probe_one_out_of_range s i :
  vports s !! i = None -> probe_one env i s = (Ok Next, s).
Proof. intros Hv. unfold probe_one. run. by rewrite Hv. Qed.

Lemma quiet_refl s : quiet s s.
Proof. exists []. by rewrite app_nil_r. Qed.

Lemma quiet_trans s1 s2 s3 : quiet s1 s2 -> quiet s2 s3 -> quiet s1 s3.
Proof.
  intros (tr1 & H1 & W1 & S1 & B1) (tr2 & H2 & W2 & S2 & B2).
  exists (tr1 ++ tr2). rewrite H2, H1, <- app_assoc, ser_writes_of_app, W1, W2.
  repeat split; congruence.
Qed.

Lemma probe_one_quiet i s r s' : probe_one env i s = (r, s') -> quiet s s'.
Proof.
  destruct (vports s !! i) as [v|] eqn:Hv.
  - rewrite (probe_one_run s i v Hv). cbn zeta.
    destruct (alive v && idle v); [|intros [= <- <-]; apply quiet_refl].
    destruct (env_sys env (tick s) (os_read (master_fd v) 1)) as [d|e].
    + intros [= <- <-]. by eexists.
    + destruct (isinstance_OSError e); [|intros [= <- <-]; by eexists].
      destruct (errno_is e EAGAIN); [intros [= <- <-]; by eexists|].
      destruct (errno_is e EIO); intros [= <- <-]; by eexists.
  - rewrite (probe_one_out_of_range s i Hv). intros [= <- <-]. apply quiet_refl.
Qed.

Lemma probe_idle_quiet s r s' : probe_idle env s = (r, s') -> quiet s s'.
Proof.
  unfold probe_idle. unfold bind at 1, get.
  apply for_each_rel; [apply quiet_refl|apply quiet_trans|].
  intros x. apply probe_one_quiet.
Qed.

Hypothesis read_raises_OSError : forall t fd e,
  env_sys env t (os_read fd 1) = inr e -> isinstance_OSError e = true.

Lemma probe_one_step s i :
  exists s1 tr1,
    probe_one env i s = (Ok Next, s1) /\
    trace s1 = trace s ++ tr1 /\
    reads_of tr1 = from_option (fun x => [x]) [] (vports s !! i ≫= probed) /\
    (forall j, j <> i -> vports s1 !! j = vports s !! j).
Proof.
  destruct (vports s !! i) as [v|] eqn:Hv; cbn [mbind option_bind].
  - rewrite (probe_one_run s i v Hv). cbn zeta. unfold probed, connected.
    destruct (alive v && idle v).
    + destruct (env_sys env (tick s) (os_read (master_fd v) 1)) as [d|e] eqn:E.
      * eexists _, _. split; [done|]. cbn. repeat split.
        intros j Hj. by apply list_lookup_alter_ne.
      * rewrite (read_raises_OSError _ _ _ E).
        destruct (errno_is e EAGAIN); [|destruct (errno_is e EIO)];
          eexists _, _; (split; [done|]); cbn; repeat split;
          intros j Hj; by rewrite ?list_lookup_alter_ne.
    + exists s, []. by rewrite app_nil_r.
  - rewrite (probe_one_out_of_range s i Hv). exists s, [].
    by rewrite app_nil_r.
Qed.

Lemma probe_loop refs :
  NoDup refs ->
  forall s,
  exists s' tr,
    for_each_ctl refs (probe_one env) s = (Ok Next, s') /\
    trace s' = trace s ++ tr /\
    reads_of tr = omap (fun i => vports s !! i ≫= probed) refs.
Proof.
  induction 1 as [|i refs Hi Hnd IH]; intros s.
  - exists s, []. by rewrite app_nil_r.
  - cbn [for_each_ctl]. unfold bind at 1.
    destruct (probe_one_step s i) as (s1 & tr1 & -> & Htr1 & Hr1 & Hother).
    destruct (IH s1) as (s' & tr & Hrun & Htr & Hr).
    exists s', (tr1 ++ tr). rewrite Hrun. split; [done|].
    split; [by rewrite Htr, Htr1, app_assoc|].
    rewrite reads_of_app, Hr1, Hr. cbn [omap list_omap].
    rewrite (omap_pointwise_in _ (fun i => vports s !! i ≫= probed) refs).
    + by destruct (vports s !! i ≫= probed).
    + intros j Hj. rewrite Hother; [done|]. intros ->. done.
Qed.

Lemma probe_idle_reads s :
  exists s' tr,
    probe_idle env s = (Ok tt, s') /\
    trace s' = trace s ++ tr /\
    reads_of tr =
      (fun v => (master_fd v, 1)) <$>
        List.filter (fun v => alive v && idle v) (vports s).
Proof.
  destruct (probe_loop (indices (vports s)) (NoDup_seq _ _) s)
    as (s' & tr & Hrun & Htr & Hr).
  exists s', tr. unfold probe_idle, for_each. run. rewrite Hrun.
  split; [done|]. split; [done|].
  rewrite Hr, omap_lookup_indices. apply omap_filter.
Qed.

(** The probe loop does what [probe_spec] says. *)
Lemma probe_idle_run s :
  probe_idle env s =
    (Ok tt,
     let '(t', evs, vs') := probe_spec env (tick s) (vports s) in
     with_vports vs' (with_world t' (trace s ++ evs) s)).
Proof using read_raises_OSError.
  unfold probe_idle, for_each. unfold bind at 1, get. unfold bind at 1.
  rewrite (for_each_ctl_pass_spec_all
             (fun t v =>
                if alive v && idle v
                then Some (probe_read_spec v
                             (env_sys env t (os_read (master_fd v) 1)))
                else None) _ (vports s)); [done| |done].
  intros s1 pre0 pre v post Hlen Horig Hs1.
  assert (vports s1 !! length pre = Some v) as Hv
    by (rewrite Hs1; by apply list_lookup_middle).
  rewrite (probe_one_run s1 _ v Hv). cbn zeta. unfold probe_read_spec, connected.
  destruct (alive v && idle v); [|done].
  destruct (env_sys env (tick s1) (os_read (master_fd v) 1)) as [d|e] eqn:E.
  - by rewrite Hs1, alter_middle.
  - rewrite (read_raises_OSError _ _ _ E).
    destruct (errno_is e EAGAIN); [by rewrite Hs1, alter_middle|].
    destruct (errno_is e EIO).
    + by rewrite <- Hs1.
    + by rewrite Hs1, alter_middle.
Qed.

End Probe.

(** C5 (as amended).  The probe step leaves the state that [probe_spec]
    describes.  It reads one byte from exactly the endpoints that are
    alive and idle when the step starts, in list order, whether or not the
    dispatch step of the same pass has handled them, and passes over the
    others.  For an endpoint so probed, data or EAGAIN clears [idle] and
    is logged at INFO, EIO changes nothing, and any other [OSError] is
    logged at WARNING and clears [alive]; no other record changes. *)
Theorem probe_visits_alive_idle env s :
  (forall t fd e,
     env_sys env t (os_read fd 1) = inr e -> isinstance_OSError e = true) ->
  (let '(t', evs, vs') := probe_spec env (tick s) (vports s) in
   probe_idle env s =
     (Ok tt, with_vports vs' (with_world t' (trace s ++ evs) s))) /\
  (exists s' tr,
     probe_idle env s = (Ok tt, s') /\
     trace s' = trace s ++ tr /\
     reads_of tr =
       (fun v => (master_fd v, 1)) <$>
         List.filter (fun v => alive v && idle v) (vports s)) /\
  (forall s1 i v,
     vports s1 !! i = Some v ->
     alive v && idle v = true ->
     let rd := EvCall (os_read (master_fd v) 1) in
     (forall d,
        env_sys env (tick s1) (os_read (master_fd v) 1) = inl d ->
        probe_one env i s1 = (Ok Next, connected i v s1)) /\
     (forall e,
        env_sys env (tick s1) (os_read (master_fd v) 1) = inr e ->
        probe_one env i s1 =
          if errno_is e EAGAIN then (Ok Next, connected i v s1)
          else if errno_is e EIO then
            (Ok Next, with_world (S (tick s1)) (trace s1 ++ [rd]) s1)
          else
            (Ok Next,
             with_vports (alter (set_alive false) i (vports s1))
               (with_world (S (tick s1))
                  (trace s1 ++
                     [rd; EvLog WARNING (msg_probe_failed (path v) e)])
                  s1)))).
Proof.
  intros Hos. split; [|split; [by apply probe_idle_reads|]].
  - rewrite (probe_idle_run env Hos).
    by destruct (probe_spec env (tick s) (vports s)) as [[t' evs] vs'].
  - intros s1 i v Hv Hai rd.
    pose proof (probe_one_run env s1 i v Hv) as Hrun. cbn zeta in Hrun.
    rewrite Hai in Hrun. split.
    + intros d Hd. by rewrite Hrun, Hd.
    + intros e He. by rewrite Hrun, He, (Hos _ _ _ He).
Qed.

(** Of three endpoints the first and the third are alive and idle; the
    probe of the first finds no client (EIO), that of the third finds
    one; the second, which is active, is passed over. *)
Lemma probe_visits_alive_idle_witness :
  let env := scenario any_fd [Byte.x41] [(0%nat, OSError EIO)] 0%float in
  probe_idle env three_vports =
    (Ok tt,
     mk_state 2
       [EvCall (os_read 10 1);
        EvCall (os_read 12 1);
        EvLog INFO (msg_client_connected "/dev/ttyV2")]
       3
       [mk_vport 10 "/dev/ttyV0" "/dev/pts/5" true true;
        mk_vport 11 "/dev/ttyV1" "/dev/pts/6" true false;
        mk_vport 12 "/dev/ttyV2" "/dev/pts/7" true false] true 0 0 0%float).
Proof.
  intros env.
  refine (proj1 (probe_visits_alive_idle env three_vports _)).
  intros [|t] fd e; cbn; intros [= <-]; reflexivity.
Defined.

(** C5 (counterexample to the claim as stated).  The read of the active
    endpoint on fd 10 returns end of stream in the dispatch step, which
    sets [idle]; the probe step of the same pass then reads one byte from
    that endpoint. *)
Lemma probe_after_dispatch_counterexample :
  let env := scenario (only_fd 10) [] [(3%nat, OSError EIO)] 0%float in
  loop_body env 1 (one_vport true false) =
    (Ok tt,
     mk_state 5
       [EvCall (ser_fileno 3);
        EvCall (select_select [3; 10] 1);
        EvCall (os_read 10 4096);
        EvLog INFO (msg_eof "/dev/ttyV0");
        EvCall (os_read 10 1);
        EvMonotonic]
       3 [mk_vport 10 "/dev/ttyV0" "/dev/pts/5" true true] true 0 0 0%float).
Proof. vm_compute. reflexivity. Qed.

(** C10.  When the one-byte read of the probe returns data, the endpoint
    becomes active and the byte goes nowhere: the state and the trace after
    the probe do not depend on it, and no pass of the probe step calls
    [ser.write], replaces the device handle or counts bytes sent to the
    device. *)
Theorem probe_discards_byte env s i v d :
  vports s !! i = Some v ->
  alive v && idle v = true ->
  env_sys env (tick s) (os_read (master_fd v) 1) = inl d ->
  probe_one env i s =
    (Ok Next,
     with_vports (alter (set_idle false) i (vports s))
       (with_world (S (tick s))
          (trace s ++ [EvCall (os_read (master_fd v) 1);
                       EvLog INFO (msg_client_connected (path v))]) s)) /\
  (forall s0 r s',
     probe_idle env s0 = (r, s') ->
     exists tr,
       trace s' = trace s0 ++ tr /\ ser_writes_of tr = [] /\
       ser s' = ser s0 /\ bytes_to_device s' = bytes_to_device s0).
Proof.
  intros Hv Hai Hd. split.
  - pose proof (probe_one_run env s i v Hv) as Hrun. cbn zeta in Hrun.
    by rewrite Hrun, Hai, Hd.
  - intros s0 r s'. apply probe_idle_quiet.
Qed.

(** A client wrote the byte 0x41 to the idle endpoint on fd 10 before the
    probe ran. *)
Lemma probe_discards_byte_witness :
  let env := scenario any_fd [Byte.x41] [] 0%float in
  probe_one env 0 (one_vport true true) =
    (Ok Next,
     mk_state 1
       [EvCall (os_read 10 1);
        EvLog INFO (msg_client_connected "/dev/ttyV0")]
       3 [mk_vport 10 "/dev/ttyV0" "/dev/pts/5" true false] true 0 0 0%float).
Proof.
  intros env.
  refine (proj1 (probe_discards_byte env (one_vport true true) 0%nat
                   (mk_vport 10 "/dev/ttyV0" "/dev/pts/5" true true)
                   [Byte.x41] _ _ _)).
  - reflexivity.
  - reflexivity.
  - reflexivity.
Defined.

(** ** The recovery sweep *)

Lemma bind_Ok {A B} (m : M A) (k : A -> M B) s b s' :
  bind m k s = (Ok b, s') ->
  exists a s1, m s = (Ok a, s1) /\ k a s1 = (Ok b, s').
Proof.
  unfold bind. destruct (m s) as [[a|e|] s1]; [|done|done].
  intros H. by exists a, s1.
Qed.

Lemma returns_ret {A} (P : A -> Prop) a : P a -> returns P (ret a).
Proof. by intros H s a' s' [= <- <-]. Qed.

Lemma returns_bind {A B} (P : B -> Prop) (m : M A) (k : A -> M B) :
  (forall a, returns P (k a)) -> returns P (bind m k).
Proof.
  intros H s b s' Hb. apply bind_Ok in Hb as (a & s1 & _ & Hk).
  by eapply H.
Qed.

Lemma runs_ret {A} (a : A) : runs (ret a).
Proof. intros s. by eexists _, _. Qed.

Lemma runs_get : runs get.
Proof. intros s. by eexists _, _. Qed.

Lemma runs_modify f : runs (modify f).
Proof. intros s. by eexists _, _. Qed.

Lemma runs_bind {A B} (m : M A) (k : A -> M B) :
  runs m -> (forall a, runs (k a)) -> runs (bind m k).
Proof.
  intros Hm Hk s. unfold bind. destruct (Hm s) as (a & s1 & ->). apply Hk.
Qed.

Lemma bind_cases {A B} (m : M A) (k : A -> M B) s r s' :
  bind m k s = (r, s') ->
  (exists a s1, m s = (Ok a, s1) /\ k a s1 = (r, s')) \/
  (exists e, m s = (Raise e, s') /\ r = Raise e) \/
  (m s = (Spin, s') /\ r = Spin).
Proof.
  unfold bind. destruct (m s) as [[a|e|] s1].
  - intros H. left. by exists a, s1.
  - intros [= <- <-]. right. left. by exists e.
  - intros [= <- <-]. right. by right.
Qed.

(** ** Creating an endpoint *)

Lemma sys_Ok env c s v s' :
  sys env c s = (Ok v, s') ->
  env_sys env (tick s) c = inl v /\
  s' = with_world (S (tick s)) (trace s ++ [EvCall c]) s.
Proof.
  unfold sys. destruct (env_sys env (tick s) c); [|done].
  by intros [= <- <-].
Qed.

Lemma O_NONBLOCK_bits flags k :
  Z.testbit (Z.lor flags O_NONBLOCK) k = Z.testbit flags k || (k =? 11).
Proof.
  rewrite Z.lor_spec. f_equal. change O_NONBLOCK with (2 ^ 11).
  rewrite Z.pow2_bits_eqb by lia. by rewrite Z.eqb_sym.
Qed.

(** What [create_vport] has done when it returns. *)
Lemma create_vport_returns env p s v s' :
  create_vport env p s = (Ok v, s') ->
  exists slave flags,
    v = mk_vport (master_fd v) p (slave_name v) true true /\
    env_sys env (tick s' - 9)%nat os_openpty = inl (master_fd v, slave) /\
    env_sys env (tick s' - 6)%nat (os_ttyname slave) = inl (slave_name v) /\
    env_sys env (tick s' - 2)%nat (fcntl_getfl (master_fd v)) = inl flags /\
    trace s' =
      trace s ++
        EvIslink p ::
        (if env_islink env (tick s) p then [EvCall (os_unlink p)] else []) ++
        [EvCall os_openpty;
         EvCall (tty_setraw (master_fd v));
         EvCall (tty_setraw slave);
         EvCall (os_ttyname slave);
         EvCall (os_chmod (slave_name v) 438);
         EvCall (os_symlink (slave_name v) p);
         EvCall (os_close slave);
         EvCall (fcntl_getfl (master_fd v));
         EvCall (fcntl_setfl (master_fd v) (Z.lor flags O_NONBLOCK));
         EvLog INFO (msg_vport_created p (slave_name v) (master_fd v))] /\
    forall k, Z.testbit (Z.lor flags O_NONBLOCK) k
              = Z.testbit flags k || (k =? 11).
Proof.
  unfold create_vport. intros H.
  apply bind_Ok in H as (l & s1 & Hl & H). injection Hl as <- <-.
  apply bind_Ok in H as ([] & s2 & Hu & H).
  assert (trace s2 =
            trace s ++ EvIslink p ::
              (if env_islink env (tick s) p then [EvCall (os_unlink p)]
               else [])) as Ht2.
  { destruct (env_islink env (tick s) p).
    - apply sys_Ok in Hu as (_ & ->). cbn. by rewrite <- app_assoc.
    - by injection Hu as <-. }
  apply bind_Ok in H as ([master slave] & s3 & H3 & H).
  apply sys_Ok in H3 as (E3 & ->). cbn [fst snd] in H.
  apply bind_Ok in H as ([] & s4 & H4 & H). apply sys_Ok in H4 as (_ & ->).
  apply bind_Ok in H as ([] & s5 & H5 & H). apply sys_Ok in H5 as (_ & ->).
  apply bind_Ok in H as (sl & s6 & H6 & H). apply sys_Ok in H6 as (E6 & ->).
  apply bind_Ok in H as ([] & s7 & H7 & H). apply sys_Ok in H7 as (_ & ->).
  apply bind_Ok in H as ([] & s8 & H8 & H). apply sys_Ok in H8 as (_ & ->).
  apply bind_Ok in H as ([] & s9 & H9 & H). apply sys_Ok in H9 as (_ & ->).
  apply bind_Ok in H as (flags & s10 & H10 & H).
  apply sys_Ok in H10 as (E10 & ->).
  apply bind_Ok in H as ([] & s11 & H11 & H). apply sys_Ok in H11 as (_ & ->).
  apply bind_Ok in H as ([] & s12 & H12 & H). injection H12 as <-.
  injection H as <- <-.
  cbn [tick with_world] in E6, E10.
  exists slave, flags. cbn [tick trace with_world master_fd slave_name].
  replace (S (S (S (S (S (S (S (S (S (tick s2))))))))) - 9)%nat
    with (tick s2) by lia.
  replace (S (S (S (S (S (S (S (S (S (tick s2))))))))) - 6)%nat
    with (S (S (S (tick s2)))) by lia.
  replace (S (S (S (S (S (S (S (S (S (tick s2))))))))) - 2)%nat
    with (S (S (S (S (S (S (S (tick s2)))))))) by lia.
  repeat (split; [done|]). split; [|apply O_NONBLOCK_bits].
  rewrite Ht2. by rewrite <- !app_assoc.
Qed.

Section CleanFailure.

Context (env : Env).

Lemma answered_nil t : answered env t [].
Proof. intros k c H. by rewrite lookup_nil in H. Qed.

Lemma answered_app t tr1 tr2 :
  answered env t tr1 -> answered env (t + length tr1) tr2 ->
  answered env t (tr1 ++ tr2).
Proof.
  intros H1 H2 k c Hk. apply lookup_app_Some in Hk as [Hk|[Hle Hk]].
  - by apply H1.
  - destruct (H2 _ _ Hk) as (v & Hv). exists v.
    by replace (t + k)%nat with (t + length tr1 + (k - length tr1))%nat by lia.
Qed.

Lemma passes_ret {A} (a : A) : passes_errors_on env (fun _ => []) (ret a).
Proof.
  intros s r s' [= <- <-]. exists []. cbn. rewrite app_nil_r, Nat.add_0_r.
  repeat split. apply answered_nil.
Qed.

Lemma passes_sys c : passes_errors_on env (fun _ => []) (sys env c).
Proof.
  intros s r s'. unfold sys.
  destruct (env_sys env (tick s) c) as [v|e] eqn:E; intros [= <- <-].
  - exists [EvCall c]. cbn. rewrite Nat.add_1_r. repeat split.
    intros [|k] c' Hk; [|done]. injection Hk as <-.
    exists v. by rewrite Nat.add_0_r.
  - exists [], c. cbn. rewrite Nat.add_0_r. repeat split; [|done].
    apply answered_nil.
Qed.

Lemma passes_islink p :
  passes_errors_on env (fun _ => []) (os_path_islink env p).
Proof.
  intros s r s' [= <- <-]. exists [EvIslink p]. cbn. rewrite Nat.add_1_r.
  repeat split. by intros [|k] c Hk.
Qed.

Lemma passes_bind {A B} final (m : M A) (k : A -> M B) :
  passes_errors_on env (fun _ => []) m ->
  (forall a, passes_errors_on env final (k a)) ->
  passes_errors_on env final (bind m k).
Proof.
  intros Hm Hk s r s' Hb.
  apply bind_cases in Hb as [(a & s1 & Ha & Hka)|[(e & He & ->)|[Hs ->]]].
  - destruct (Hm _ _ _ Ha) as (tr1 & Ht1 & Hk1 & Hl1 & Ha1).
    rewrite app_nil_r in Ht1. specialize (Hk a _ _ _ Hka).
    destruct r as [b|e|]; [| |done].
    + destruct Hk as (tr2 & Ht2 & Hk2 & Hl2 & Ha2).
      exists (tr1 ++ tr2). rewrite Ht2, Ht1, Hk2, Hk1, length_app.
      rewrite logs_of_app, Hl1, Hl2, <- !app_assoc.
      repeat split; [lia|]. apply answered_app; [done|]. by rewrite <- Hk1.
    + destruct Hk as (tr2 & c & Ht2 & Hk2 & Hl2 & Ha2 & He).
      rewrite Hk1 in Ha2, He.
      exists (tr1 ++ tr2), c. rewrite Ht2, Ht1, Hk2, Hk1, length_app.
      rewrite logs_of_app, Hl1, Hl2, <- !app_assoc, Nat.add_assoc.
      repeat split; [by apply answered_app|done].
  - apply (Hm _ _ _ He).
  - apply (Hm _ _ _ Hs).
Qed.

Lemma create_vport_passes p :
  passes_errors_on env
    (fun v => [EvLog INFO (msg_vport_created p (slave_name v) (master_fd v))])
    (create_vport env p).
Proof.
  unfold create_vport.
  apply passes_bind; [apply passes_islink|]. intros l.
  apply passes_bind; [destruct l; [apply passes_sys|apply passes_ret]|].
  intros _.
  do 9 (apply passes_bind; [apply passes_sys|]; intros ?).
  intros s r s' [= <- <-]. exists []. cbn. rewrite Nat.add_0_r.
  repeat split. apply answered_nil.
Qed.

End CleanFailure.

Lemma swept_refl vs : Forall2 swept vs vs.
Proof. apply Forall_Forall2_diag, Forall_forall. by left. Qed.

Section Sweep.

Context (env : Env).

Lemma create_vport_fresh p s v s' :
  create_vport env p s = (Ok v, s') ->
  path v = p /\ alive v = true /\ idle v = true.
Proof.
  revert s v s'. change (returns (fun v => path v = p /\ alive v = true /\
                                            idle v = true) (create_vport env p)).
  unfold create_vport.
  repeat (apply returns_bind; intros). by apply returns_ret.
Qed.

Lemma recreate_vport_shape v s v' s' :
  recreate_vport env v s = (Ok v', s') ->
  (exists tr,
     trace s' =
       trace s ++ EvCall (os_close (master_fd v))
               :: EvLog INFO (msg_recreating (path v))
               :: EvIslink (path v) :: tr) /\
  path v' = path v /\ alive v' = true /\ idle v' = true.
Proof.
  unfold recreate_vport. intros H.
  apply bind_Ok in H as ([] & s1 & Hclose & H).
  apply bind_Ok in H as ([] & s2 & Hlog & H).
  injection Hlog as <-.
  assert (s1 = with_world (S (tick s))
                 (trace s ++ [EvCall (os_close (master_fd v))]) s) as ->.
  { revert Hclose. unfold close_quietly. run.
    destruct (env_sys env (tick s) (os_close (master_fd v))) as [[]|e];
      [by intros [= <-]|].
    destruct (isinstance_OSError e); [by intros [= <-]|done]. }
  split; [|by eapply create_vport_fresh].
  revert H. unfold create_vport. intros H.
  apply bind_Ok in H as (l & s3 & Hl & H). injection Hl as <- <-.
  revert H. match goal with |- ?m ?s0 = _ -> _ => set (k := m) end.
  intros H.
  assert (world_only k) as Hw by (subst k; world).
  destruct (Hw _ _ _ H) as (t & tr & ->). exists tr. cbn.
  by rewrite <- !app_assoc.
Qed.

Lemma recreate_one_step i s c s' :
  recreate_one env i s = (Ok c, s') ->
  c = Next /\
  length (vports s') = length (vports s) /\
  (forall j, j <> i -> vports s' !! j = vports s !! j) /\
  (forall v, vports s !! i = Some v ->
     exists v', vports s' !! i = Some v' /\ revived v v').
Proof.
  unfold recreate_one. unfold bind at 1, get.
  destruct (vports s !! i) as [v|] eqn:Hv; [|by intros [= <- <-]].
  destruct (alive v) eqn:Ha; cbn [negb].
  - intros [= <- <-]. repeat split; try done.
    intros ? [= <-]. exists v. by repeat split; try congruence.
  - intros H. apply bind_Ok in H as (v' & s1 & Hre & H).
    destruct (world_only_recreate_vport _ _ _ _ _ Hre) as (t & tr & ->).
    apply recreate_vport_shape in Hre as (_ & Hp & Ha' & Hi').
    revert H. run. intros [= <- <-]. cbn.
    split; [done|]. split; [apply length_insert|].
    split; [intros j Hj; by apply list_lookup_insert_ne|].
    intros ? [= <-]. exists v'. split.
    + apply list_lookup_insert_eq. by eapply lookup_lt_Some.
    + by repeat split; try congruence.
Qed.

Lemma revived_trans v1 v2 v3 : revived v1 v2 -> revived v2 v3 -> revived v1 v3.
Proof.
  intros (P1 & A1 & K1 & I1) (P2 & A2 & K2 & I2).
  pose proof (K2 A1) as ->. done.
Qed.

Lemma recreate_loop refs : forall s c s',
  for_each_ctl refs (recreate_one env) s = (Ok c, s') ->
  length (vports s') = length (vports s) /\
  forall j v, vports s !! j = Some v ->
    exists v', vports s' !! j = Some v' /\
               path v' = path v /\
               (alive v = true -> v' = v) /\
               (j ∈ refs -> revived v v').
Proof.
  induction refs as [|i refs IH]; intros s c s'; cbn [for_each_ctl].
  - intros [= <- <-]. split; [done|]. intros j v Hv. exists v.
    split; [done|]. split; [done|]. split; [done|]. by intros ?%elem_of_nil.
  - intros H. apply bind_Ok in H as (c1 & s1 & Hone & H).
    apply recreate_one_step in Hone as (-> & Hlen1 & Hother & Hi).
    apply IH in H as (Hlen & Hrest). split; [congruence|].
    intros j v Hv.
    assert (exists v1, vports s1 !! j = Some v1 /\ path v1 = path v /\
                       (alive v = true -> v1 = v) /\
                       (j = i -> revived v v1) /\
                       (alive v1 = false -> v1 = v)) as (v1 & Hv1 & P1 & K1 & R1 & D1).
    { destruct (decide (j = i)) as [->|Hji].
      - destruct (Hi v Hv) as (v1 & Hv1 & Hr). exists v1.
        destruct Hr as (? & ? & ? & ?). repeat split; try done. congruence.
      - exists v. rewrite Hother by done. repeat split; try done. }
    destruct (Hrest j v1 Hv1) as (v' & Hv' & P' & K' & R').
    exists v'. split; [done|]. split; [congruence|].
    split; [intros Ha; rewrite K' by (rewrite K1; done); by apply K1|].
    intros [->|Hin]%elem_of_cons.
    + pose proof (R1 eq_refl) as Hr. destruct Hr as (? & Ha1 & ? & ?).
      by rewrite (K' Ha1).
    + pose proof (R' Hin) as Hr.
      destruct (alive v1) eqn:Ha1.
      * destruct (decide (j = i)) as [->|Hji].
        -- rewrite (K' eq_refl). by apply R1.
        -- rewrite Hother in Hv1 by done. by simplify_eq.
      * by rewrite (D1 eq_refl) in Hr.
Qed.

Lemma recreate_dead_revives s s' :
  recreate_dead env s = (Ok tt, s') ->
  Forall2 revived (vports s) (vports s').
Proof.
  unfold recreate_dead, for_each. run.
  destruct (for_each_ctl _ _ s) as [[c|e|] s1] eqn:E; [|done|done].
  intros [= <-]. cbn. apply recreate_loop in E as (Hlen & Hall).
  apply Forall2_same_length_lookup_2; [done|].
  intros j v v' Hv Hv'. destruct (Hall j v Hv) as (v'' & Hv'' & _ & _ & Hr).
  simplify_eq. apply Hr, elem_of_seq. apply lookup_lt_Some in Hv. lia.
Qed.

Lemma revived_all_alive vs vs' :
  Forall2 revived vs vs' -> Forall (fun v => alive v = true) vs'.
Proof.
  induction 1 as [|v v' vs vs' (_ & Ha & _) _ IH]; constructor; done.
Qed.

(** *** The sweep and [sweep_spec] *)

Lemma frames_ret {A} (a : A) : frames (ret a).
Proof. by intros vs s. Qed.

Lemma frames_bind {A B} (m : M A) (k : A -> M B) :
  frames m -> (forall a, frames (k a)) -> frames (bind m k).
Proof.
  intros Hm Hk vs s. unfold bind. rewrite Hm.
  destruct (m s) as [[a|e|] s1]; cbn [fst snd]; [apply Hk|done|done].
Qed.

Lemma frames_try {A} (m : M A) h :
  frames m -> (forall e k, h e = Some k -> frames k) ->
  frames (try_except m h).
Proof.
  intros Hm Hh vs s. unfold try_except. rewrite Hm.
  destruct (m s) as [[a|e|] s1]; cbn [fst snd]; [done| |done].
  destruct (h e) as [k|] eqn:E; [by apply (Hh e)|done].
Qed.

Lemma frames_sys c : frames (sys env c).
Proof.
  intros vs s. unfold sys. cbn [tick with_vports].
  by destruct (env_sys env (tick s) c).
Qed.

Lemma frames_islink p : frames (os_path_islink env p).
Proof. by intros vs s. Qed.

Lemma frames_emit ev : frames (emit ev).
Proof. by intros vs s. Qed.

Ltac frame :=
  repeat match goal with
  | |- frames (bind _ _) => apply frames_bind; [|intros ?]
  | |- frames (try_except _ _) => apply frames_try; [|intros ? ? ?]
  | |- frames (sys ?e ?c) => apply (frames_sys c)
  | |- frames (ret _) => apply frames_ret
  | |- frames (os_path_islink _ _) => apply frames_islink
  | |- frames (log _ _) => apply frames_emit
  | |- frames (if ?b then _ else _) => destruct b
  | H : (if ?b then _ else _) = Some ?k |- frames ?k => destruct b; simplify_eq
  | |- frames (let _ := _ in _) => cbv zeta
  end.

Lemma frames_recreate_vport v : frames (recreate_vport env v).
Proof. unfold recreate_vport, close_quietly, create_vport. frame. Qed.

Lemma frames_sweep_spec vs : frames (sweep_spec env vs).
Proof.
  induction vs as [|v vs IH]; cbn [sweep_spec]; [apply frames_ret|].
  apply frames_bind;
    [destruct (alive v); [apply frames_ret|apply frames_recreate_vport]|].
  intros v'. apply frames_bind; [apply IH|]. intros ?. apply frames_ret.
Qed.

(** [recreate_vport] closes the old handle, going on when the close raises
    [OSError], and then creates an endpoint at the same path. *)
Lemma recreate_vport_run v s :
  (forall e, env_sys env (tick s) (os_close (master_fd v)) = inr e ->
             isinstance_OSError e = true) ->
  recreate_vport env v s =
    create_vport env (path v)
      (with_world (S (tick s))
         (trace s ++ [EvCall (os_close (master_fd v));
                      EvLog INFO (msg_recreating (path v))]) s).
Proof.
  intros Hc. unfold recreate_vport, close_quietly.
  unfold bind at 1, try_except, sys.
  destruct (env_sys env (tick s) (os_close (master_fd v))) as [[]|e];
    [|rewrite (Hc e eq_refl); unfold ret];
    unfold bind at 1, log, emit, modify; cbv beta iota; f_equal;
    cbn; by rewrite <- app_assoc.
Qed.

Lemma recreate_vport_no_spin v s s' : recreate_vport env v s <> (Spin, s').
Proof.
  unfold recreate_vport. intros H.
  apply bind_cases in H as [(a & s1 & _ & H)|[(e & _ & [=])|[H _]]].
  - apply bind_cases in H as [(b & s2 & _ & H)|[(e & _ & [=])|[H _]]].
    + exact (create_vport_passes env _ _ _ _ H).
    + done.
  - revert H. unfold close_quietly, try_except, sys.
    destruct (env_sys env (tick s) (os_close (master_fd v))) as [[]|e];
      [done|].
    by destruct (isinstance_OSError e).
Qed.

Lemma recreate_one_alive pre v post s :
  vports s = pre ++ v :: post -> alive v = true ->
  recreate_one env (length pre) s = (Ok Next, s).
Proof.
  intros Hs Ha. unfold recreate_one. unfold bind at 1, get.
  rewrite Hs, list_lookup_middle by done. by rewrite Ha.
Qed.

Lemma recreate_one_dead pre v post s :
  vports s = pre ++ v :: post -> alive v = false ->
  recreate_one env (length pre) s =
    match recreate_vport env v s with
    | (Ok v', s1) => (Ok Next, with_vports (pre ++ v' :: post) s1)
    | (Raise e, s1) => (Raise e, s1)
    | (Spin, s1) => (Spin, s1)
    end.
Proof.
  intros Hs Ha. unfold recreate_one. unfold bind at 1, get.
  rewrite Hs, list_lookup_middle by done. rewrite Ha. cbn [negb].
  unfold bind at 1.
  destruct (recreate_vport env v s) as [[v'|e|] s1] eqn:E; [|done|done].
  destruct (world_only_recreate_vport _ _ _ _ _ E) as (t & tr & ->).
  unfold bind, modify, ret. cbn. by rewrite Hs, insert_middle.
Qed.

Lemma sweep_spec_alive v vs s :
  alive v = true ->
  sweep_spec env (v :: vs) s =
    match sweep_spec env vs s with
    | (Ok vs', s1) => (Ok (v :: vs'), s1)
    | (Raise e, s1) => (Raise e, s1)
    | (Spin, s1) => (Spin, s1)
    end.
Proof.
  intros Ha. cbn [sweep_spec]. rewrite Ha. unfold bind, ret.
  by destruct (sweep_spec env vs s) as [[vs'|e|] s1].
Qed.

Lemma sweep_spec_dead v vs s :
  alive v = false ->
  sweep_spec env (v :: vs) s =
    match recreate_vport env v s with
    | (Ok v', s1) =>
        match sweep_spec env vs s1 with
        | (Ok vs', s2) => (Ok (v' :: vs'), s2)
        | (Raise e, s2) => (Raise e, s2)
        | (Spin, s2) => (Spin, s2)
        end
    | (Raise e, s1) => (Raise e, s1)
    | (Spin, s1) => (Spin, s1)
    end.
Proof.
  intros Ha. cbn [sweep_spec]. rewrite Ha. unfold bind at 1.
  destruct (recreate_vport env v s) as [[v'|e|] s1]; [|done|done].
  unfold bind, ret. by destruct (sweep_spec env vs s1) as [[vs'|e|] s2].
Qed.

Lemma with_vports_same s : with_vports (vports s) s = s.
Proof. by destruct s. Qed.

Lemma with_vports_twice vs vs' s :
  with_vports vs (with_vports vs' s) = with_vports vs s.
Proof. reflexivity. Qed.

(** The loop of the sweep, from the record after [pre] on, replaces the
    records as [sweep_spec] says. *)
Lemma sweep_loop vs : forall pre s,
  vports s = pre ++ vs ->
  match sweep_spec env vs s with
  | (Ok vs', s1) =>
      for_each_ctl (seq (length pre) (length vs)) (recreate_one env) s
        = (Ok Next, with_vports (pre ++ vs') s1)
  | (Raise e, s1) =>
      exists vs',
        for_each_ctl (seq (length pre) (length vs)) (recreate_one env) s
          = (Raise e, with_vports (pre ++ vs') s1) /\
        Forall2 swept vs vs' /\
        Exists (fun v => alive v = false) vs'
  | (Spin, _) => False
  end.
Proof.
  induction vs as [|v vs IH]; intros pre s Hs.
  - cbn. rewrite app_nil_r in *. by rewrite <- Hs, with_vports_same.
  - cbn [length seq for_each_ctl]. unfold bind.
    destruct (alive v) eqn:Ha.
    + rewrite (sweep_spec_alive v vs s Ha).
      rewrite (recreate_one_alive pre v vs s Hs Ha).
      specialize (IH (pre ++ [v]) s).
      rewrite length_app, Nat.add_1_r, <- app_assoc in IH. cbn [app] in IH.
      specialize (IH Hs).
      destruct (sweep_spec env vs s) as [[vs'|e|] s1]; [| |done].
      * rewrite IH. by rewrite <- app_assoc.
      * destruct IH as (vs' & Hrun & Hsw & Hdead). exists (v :: vs').
        rewrite Hrun, <- app_assoc.
        split; [done|]. split; [constructor; [by left|done]|by right].
    + rewrite (sweep_spec_dead v vs s Ha).
      rewrite (recreate_one_dead pre v vs s Hs Ha).
      destruct (recreate_vport env v s) as [[v'|e|] s1] eqn:E.
      * specialize (IH (pre ++ [v']) (with_vports (pre ++ v' :: vs) s1)).
        rewrite length_app, Nat.add_1_r, <- app_assoc in IH. cbn [app] in IH.
        specialize (IH eq_refl). rewrite frames_sweep_spec in IH.
        destruct (recreate_vport_shape _ _ _ _ E) as (_ & Hp & Ha' & Hi').
        destruct (sweep_spec env vs s1) as [[vs'|e|] s2]; cbn [fst snd] in IH;
          [| |done].
        -- rewrite IH. by rewrite with_vports_twice, <- app_assoc.
        -- destruct IH as (vs' & Hrun & Hsw & Hdead). exists (v' :: vs').
           rewrite Hrun, with_vports_twice, <- app_assoc.
           split; [done|]. split; [|by right].
           constructor; [|done]. right. by repeat split.
      * destruct (world_only_recreate_vport _ _ _ _ _ E) as (t & tr & ->).
        exists (v :: vs). split; [|split].
        -- f_equal. cbn. by rewrite <- Hs.
        -- apply swept_refl.
        -- by left.
      * by apply recreate_vport_no_spin in E.
Qed.

(** The sweep is the replacement of every dead record by what
    [recreate_vport] returns for it, as long as [recreate_vport] returns;
    when it raises, the sweep raises, and the record is still dead. *)
Lemma recreate_dead_run s :
  match sweep_spec env (vports s) s with
  | (Ok vs', s1) =>
      recreate_dead env s = (Ok tt, with_registered true (with_vports vs' s1))
  | (Raise e, s1) =>
      exists vs',
        recreate_dead env s = (Raise e, with_vports vs' s1) /\
        Forall2 swept (vports s) vs' /\
        Exists (fun v => alive v = false) vs'
  | (Spin, _) => False
  end.
Proof.
  pose proof (sweep_loop (vports s) [] s eq_refl) as H. cbn [length app] in H.
  unfold recreate_dead, for_each. unfold bind at 1 4, get.
  unfold indices.
  destruct (sweep_spec env (vports s) s) as [[vs'|e|] s1]; [| |done].
  - unfold bind. by rewrite H.
  - destruct H as (vs' & Hrun & Hsw & Hdead). exists vs'.
    unfold bind. by rewrite Hrun.
Qed.

Hypothesis create_succeeds : forall p s,
  exists v s', create_vport env p s = (Ok v, s').

Hypothesis close_raises_OSError : forall t fd e,
  env_sys env t (os_close fd) = inr e -> isinstance_OSError e = true.

Lemma close_quietly_runs fd : runs (close_quietly env fd).
Proof.
  intros s. unfold close_quietly. run.
  destruct (env_sys env (tick s) (os_close fd)) as [[]|e] eqn:E;
    [by eexists _, _|].
  rewrite (close_raises_OSError _ _ _ E). by eexists _, _.
Qed.

Lemma recreate_one_runs i s :
  exists s', recreate_one env i s = (Ok Next, s').
Proof.
  assert (runs (recreate_one env i)) as H.
  { unfold recreate_one. apply runs_bind; [apply runs_get|]. intros s0.
    destruct (vports s0 !! i) as [v|]; [|apply runs_ret].
    destruct (negb (alive v)); [|apply runs_ret].
    apply runs_bind.
    - unfold recreate_vport. apply runs_bind; [apply close_quietly_runs|].
      intros _. apply runs_bind; [apply runs_modify|].
      intros _ s1. apply create_succeeds.
    - intros v'. apply runs_bind; [apply runs_modify|].
      intros _. apply runs_ret. }
  destruct (H s) as (c & s' & Hrun). exists s'.
  by destruct (recreate_one_step _ _ _ _ Hrun) as (-> & _).
Qed.

Lemma recreate_dead_runs s : exists s', recreate_dead env s = (Ok tt, s').
Proof.
  unfold recreate_dead, for_each. run.
  generalize (indices (vports s)). intros refs. revert s.
  induction refs as [|i refs IH]; intros s; cbn [for_each_ctl].
  - by eexists.
  - unfold bind at 1. destruct (recreate_one_runs i s) as (s1 & ->).
    apply IH.
Qed.

End Sweep.

(** ** One pass of the loop *)

Lemma world_only_get_ser_fd env s r s' :
  get_ser_fd env s = (r, s') -> vports s' = vports s.
Proof.
  unfold get_ser_fd. run.
  destruct (env_sys env (tick s) (ser_fileno (ser s))) as [fd|e];
    [by intros [= <- <-]|].
  destruct (isinstance_Exception e); by intros [= <- <-].
Qed.

Lemma wait_readable_vports env fds s r s' :
  wait_readable env fds s = (r, s') -> vports s' = vports s.
Proof.
  unfold wait_readable. run.
  destruct (env_sys env (tick s) (select_select fds 1)) as [l|e];
    [by intros [= <- <-]|].
  destruct (isinstance_InterruptedError e || isinstance_OSError e);
    [|by intros [= <- <-]].
  destruct (errno_is e EINTR || isinstance_InterruptedError e);
    by intros [= <- <-].
Qed.

Lemma log_stats_vports env s r s' :
  log_stats env s = (r, s') -> vports s' = vports s.
Proof.
  unfold log_stats. run.
  destruct (PrimFloat.leb _ _); by intros [= <- <-].
Qed.

Lemma loop_body_keeps_alive env fuel s s' :
  Forall (fun v => alive v = true) (vports s) ->
  loop_body env fuel s = (Ok tt, s') ->
  Forall (fun v => alive v = true) (vports s').
Proof.
  intros Halive. unfold loop_body. intros H.
  apply bind_Ok in H as (ser_fd & s1 & H1 & H).
  apply world_only_get_ser_fd in H1.
  apply bind_Ok in H as (s1' & ? & [= <- <-] & H).
  apply bind_Ok in H as (r & s2 & H2 & H).
  apply wait_readable_vports in H2.
  destruct r as [readable|].
  - apply bind_Ok in H as ([] & s3 & _ & H).
    apply bind_Ok in H as ([] & s4 & _ & H).
    apply bind_Ok in H as ([] & s5 & H5 & H).
    apply log_stats_vports in H. rewrite H.
    eapply revived_all_alive, recreate_dead_revives, H5.
  - injection H as <-. by rewrite H2, H1.
Qed.

(** C6 (as amended).  The recovery sweep is what [sweep_spec] describes:
    it takes the records in order, leaves an alive record untouched and
    puts in the place of a dead record the record that [recreate_vport]
    returns for it.  [recreate_vport] closes the old controller handle
    first, going on when that close raises [OSError], and then creates an
    endpoint at the same path; the record of a creation that returns is
    alive and idle and holds the controller handle and the peer name that
    [os.openpty] and [os.ttyname] gave during that creation.  So when
    every creation succeeds the sweep returns with every record alive,
    and a pass of the loop that starts with every endpoint alive and
    returns ends with every endpoint alive.  When [recreate_vport] raises,
    the sweep raises the same exception and a dead record is left in the
    list. *)
Theorem dead_endpoints_are_recreated env :
  (forall s,
     match sweep_spec env (vports s) s with
     | (Ok vs', s1) =>
         recreate_dead env s
           = (Ok tt, with_registered true (with_vports vs' s1))
     | (Raise e, s1) =>
         exists vs',
           recreate_dead env s = (Raise e, with_vports vs' s1) /\
           Forall2 swept (vports s) vs' /\
           Exists (fun v => alive v = false) vs'
     | (Spin, _) => False
     end) /\
  (forall v s,
     (forall e, env_sys env (tick s) (os_close (master_fd v)) = inr e ->
                isinstance_OSError e = true) ->
     recreate_vport env v s =
       create_vport env (path v)
         (with_world (S (tick s))
            (trace s ++ [EvCall (os_close (master_fd v));
                         EvLog INFO (msg_recreating (path v))]) s)) /\
  (forall p s v' s',
     create_vport env p s = (Ok v', s') ->
     exists slave,
       v' = mk_vport (master_fd v') p (slave_name v') true true /\
       (tick s < tick s' - 9)%nat /\
       env_sys env (tick s' - 9)%nat os_openpty = inl (master_fd v', slave) /\
       env_sys env (tick s' - 6)%nat (os_ttyname slave)
         = inl (slave_name v')) /\
  ((forall p s, exists v s', create_vport env p s = (Ok v, s')) ->
   (forall t fd e,
      env_sys env t (os_close fd) = inr e -> isinstance_OSError e = true) ->
   forall s,
     exists s', recreate_dead env s = (Ok tt, s') /\
                Forall2 revived (vports s) (vports s')) /\
  (forall fuel s s',
     Forall (fun v => alive v = true) (vports s) ->
     loop_body env fuel s = (Ok tt, s') ->
     Forall (fun v => alive v = true) (vports s')).
Proof.
  split; [|split; [|split; [|split]]].
  - apply recreate_dead_run.
  - intros v s. apply recreate_vport_run.
  - intros p s v' s' H.
    destruct (create_vport_returns _ _ _ _ _ H)
      as (slave & flags & Hv & Hpty & Hname & _ & Htr & _).
    exists slave. split; [done|]. split; [|done].
    destruct (create_vport_passes env p s _ _ H) as (tr0 & Htr0 & Htick & _).
    rewrite Htr in Htr0. apply app_inv_head in Htr0.
    apply (f_equal length) in Htr0. rewrite length_app in Htr0.
    cbn [length] in Htr0. rewrite length_app in Htr0.
    destruct (env_islink env (tick s) p); cbn [length] in Htr0; lia.
  - intros Hcreate Hclose s.
    destruct (recreate_dead_runs env Hcreate Hclose s) as (s' & Hrun).
    exists s'. split; [done|]. by eapply recreate_dead_revives.
  - intros fuel s s'. apply loop_body_keeps_alive.
Qed.

(** The endpoint on fd 10 is dead and its handle is already closed
    (EBADF): the sweep still replaces it, by the record of the new pair
    (controller handle 20, peer /dev/pts/7). *)
Lemma dead_endpoints_are_recreated_witness :
  let env := closed_already 10 in
  recreate_dead env (one_vport false false) =
    (Ok tt,
     mk_state 12
       [EvCall (os_close 10); EvLog INFO (msg_recreating "/dev/ttyV0");
        EvIslink "/dev/ttyV0"; EvCall (os_unlink "/dev/ttyV0");
        EvCall os_openpty; EvCall (tty_setraw 20); EvCall (tty_setraw 21);
        EvCall (os_ttyname 21); EvCall (os_chmod "/dev/pts/7" 438);
        EvCall (os_symlink "/dev/pts/7" "/dev/ttyV0"); EvCall (os_close 21);
        EvCall (fcntl_getfl 20); EvCall (fcntl_setfl 20 2050);
        EvLog INFO (msg_vport_created "/dev/ttyV0" "/dev/pts/7" 20)]
       3 [mk_vport 20 "/dev/ttyV0" "/dev/pts/7" true true] true 0 0 0%float) /\
  exists s',
    recreate_dead env (one_vport false false) = (Ok tt, s') /\
    Forall2 revived (vports (one_vport false false)) (vports s').
Proof.
  intros env. split.
  - exact (proj1 (dead_endpoints_are_recreated env) (one_vport false false)).
  - refine (proj1 (proj2 (proj2 (proj2 (dead_endpoints_are_recreated env))))
              _ _ (one_vport false false)).
    + intros p s. eexists _, _. lazy. reflexivity.
    + intros t fd e. cbn. destruct (fd =? 10); intros [= <-]. reflexivity.
Defined.

(** C6 (counterexample to the claim as stated).  The endpoint on fd 10 is
    dead when the sweep runs and the system has no pseudo-terminal left:
    [os.openpty] raises EMFILE.  The sweep has closed the old handle and
    removed the symlink, and it raises; the record is not replaced, its
    [alive] flag is still false, and the exception leaves the loop. *)
Lemma sweep_fails_counterexample :
  let env := scenario any_fd [] [(3%nat, OSError 24)] 0%float in
  let dead := mk_vport 10 "/dev/ttyV0" "/dev/pts/5" false false in
  let s' :=
    mk_state 4
      [EvCall (os_close 10); EvLog INFO (msg_recreating "/dev/ttyV0");
       EvIslink "/dev/ttyV0"; EvCall (os_unlink "/dev/ttyV0");
       EvCall os_openpty]
      3 [dead] true 0 0 0%float in
  recreate_dead env (one_vport false false) = (Raise (OSError 24), s') /\
  (probe_idle env ;; recreate_dead env ;; log_stats env)
    (one_vport false false) = (Raise (OSError 24), s') /\
  alive dead = false.
Proof. vm_compute. repeat split; reflexivity. Qed.

(** ** Shutdown *)

Section Cleanup.

Context (env : Env) (is_link : string -> bool).

Hypothesis islink_stable : forall t p, env_islink env t p = is_link p.

Hypothesis close_raises_OSError : forall t fd e,
  env_sys env t (os_close fd) = inr e -> isinstance_OSError e = true.

Lemma close_all_run (vs : list vport) : forall s,
  for_each_ctl vs (close_vport env) s =
    (Ok Next,
     with_world (tick s + length vs)
       (trace s ++ ((fun v => EvCall (os_close (master_fd v))) <$> vs)) s).
Proof.
  induction vs as [|v vs IH]; intros s; cbn [for_each_ctl].
  - cbn. by rewrite Nat.add_0_r, app_nil_r, with_world_same.
  - unfold bind at 1.
    assert (close_vport env v s =
            (Ok Next, with_world (S (tick s))
                        (trace s ++ [EvCall (os_close (master_fd v))]) s)) as ->.
    { unfold close_vport, close_quietly. run.
      destruct (env_sys env (tick s) (os_close (master_fd v))) as [[]|e] eqn:E;
        [done|].
      by rewrite (close_raises_OSError _ _ _ E). }
    rewrite IH. cbn. by rewrite <- app_assoc, Nat.add_succ_r.
Qed.

Lemma remove_symlink_run p s :
  (forall t e, env_sys env t (os_unlink p) <> inr e) ->
  remove_symlink env p s =
    (Ok Next,
     if is_link p
     then with_world (S (S (tick s)))
            (trace s ++ [EvIslink p; EvCall (os_unlink p);
                         EvLog INFO (msg_removed_symlink p)]) s
     else with_world (S (tick s)) (trace s ++ [EvIslink p]) s).
Proof.
  intros Hok. unfold remove_symlink. run. rewrite islink_stable.
  destruct (is_link p); run; [|done].
  destruct (env_sys env (S (tick s)) (os_unlink p)) as [[]|e] eqn:E;
    [|by destruct (Hok _ _ E)].
  run. by rewrite <- !app_assoc.
Qed.

Lemma remove_symlink_raises p s e :
  is_link p = true ->
  env_sys env (S (tick s)) (os_unlink p) = inr e ->
  remove_symlink env p s =
    (Raise e,
     with_world (S (S (tick s)))
       (trace s ++ [EvIslink p; EvCall (os_unlink p)]) s).
Proof.
  intros Hl He. unfold remove_symlink. run. rewrite islink_stable, Hl. run.
  rewrite He. by rewrite <- !app_assoc.
Qed.

Lemma unlink_all_run (ps : list string) :
  (forall t q e, q ∈ ps -> env_sys env t (os_unlink q) <> inr e) ->
  forall s,
  exists s' tr,
    for_each_ctl ps (remove_symlink env) s = (Ok Next, s') /\
    s' = with_world (tick s') (trace s ++ tr) s /\
    unlinks_of tr = List.filter is_link ps /\
    closes_of tr = [] /\ ser_closes_of tr = [].
Proof.
  induction ps as [|p ps IH]; intros Hok s; cbn [for_each_ctl].
  - exists s, []. by rewrite app_nil_r, with_world_same.
  - unfold bind at 1.
    rewrite remove_symlink_run by (intros t e; apply Hok; left).
    cbn [List.filter].
    assert (forall t q e, q ∈ ps -> env_sys env t (os_unlink q) <> inr e)
      as Hok' by (intros t q e Hq; apply Hok; by right).
    destruct (is_link p).
    + match goal with
      | |- context [for_each_ctl ps _ ?s0] =>
          destruct (IH Hok' s0) as (s' & tr & -> & Hs' & Hu & Hc & Hsc)
      end.
      exists s', ([EvIslink p; EvCall (os_unlink p);
                   EvLog INFO (msg_removed_symlink p)] ++ tr).
      split; [done|]. rewrite unlinks_of_app, closes_of_app, ser_closes_of_app.
      rewrite Hu, Hc, Hsc. split; [|done].
      rewrite Hs' at 1. cbn. by rewrite <- !app_assoc.
    + match goal with
      | |- context [for_each_ctl ps _ ?s0] =>
          destruct (IH Hok' s0) as (s' & tr & -> & Hs' & Hu & Hc & Hsc)
      end.
      exists s', ([EvIslink p] ++ tr).
      split; [done|]. rewrite unlinks_of_app, closes_of_app, ser_closes_of_app.
      rewrite Hu, Hc, Hsc. split; [|done].
      rewrite Hs' at 1. cbn. by rewrite <- !app_assoc.
Qed.

Lemma closes_of_close_events (vs : list vport) :
  closes_of ((fun v => EvCall (os_close (master_fd v))) <$> vs)
  = master_fd <$> vs.
Proof. induction vs as [|v vs IH]; cbn; [done|]. by f_equal. Qed.

Lemma other_of_close_events (vs : list vport) :
  unlinks_of ((fun v => EvCall (os_close (master_fd v))) <$> vs) = [] /\
  ser_closes_of ((fun v => EvCall (os_close (master_fd v))) <$> vs) = [].
Proof. induction vs as [|v vs IH]; cbn; done. Qed.

(** C7 (as amended).  [cleanup] closes the controller handle of every
    registered endpoint, going on when a close raises [OSError], and then
    visits the configured paths in order, removing each one that is a
    symlink.  If no [os.unlink] raises it removes them all and raises
    [SystemExit(0)].  If the [os.unlink] of a path raises, that exception
    leaves [cleanup] at that call: the paths after it are not visited and
    [SystemExit(0)] is not raised.  Either way [cleanup] closes nothing
    else: the handle of the real device is not closed, and the endpoint
    records and the device handle are left as they were. *)
Theorem cleanup_closes_endpoints_and_exits s :
  ((forall t p e, env_sys env t (os_unlink p) <> inr e) ->
   exists s' tr,
     cleanup env s = (Raise (SystemExit 0), s') /\
     s' = with_world (tick s') (trace s ++ EvLog INFO msg_shutting_down :: tr) s /\
     closes_of tr = master_fd <$> _active_vports s /\
     unlinks_of tr = List.filter is_link VPORTS /\
     ser_closes_of tr = []) /\
  (forall ps p rest e,
     VPORTS = ps ++ p :: rest ->
     (forall t q e', q ∈ ps -> env_sys env t (os_unlink q) <> inr e') ->
     is_link p = true ->
     (forall t, env_sys env t (os_unlink p) = inr e) ->
     exists s' tr,
       cleanup env s = (Raise e, s') /\
       s' = with_world (tick s')
              (trace s ++ EvLog INFO msg_shutting_down :: tr
                       ++ [EvIslink p; EvCall (os_unlink p)]) s /\
       closes_of tr = master_fd <$> _active_vports s /\
       unlinks_of tr = List.filter is_link ps /\
       ser_closes_of tr = []).
Proof using islink_stable close_raises_OSError.
  split.
  - intros Hok. unfold cleanup, for_each. run.
    match goal with
    | |- context [for_each_ctl (_active_vports ?s1) _ ?s0] =>
        change (_active_vports s1) with (_active_vports s);
        rewrite (close_all_run (_active_vports s) s0)
    end.
    cbn [tick trace with_world].
    match goal with
    | |- context [for_each_ctl VPORTS _ ?s0] =>
        destruct (unlink_all_run VPORTS (fun t q e _ => Hok t q e) s0)
          as (s' & tr & -> & Hs' & Hu & Hc & Hsc)
    end.
    exists s', (((fun v => EvCall (os_close (master_fd v))) <$> _active_vports s)
                ++ tr).
    split; [done|].
    rewrite closes_of_app, unlinks_of_app, ser_closes_of_app.
    rewrite closes_of_close_events, Hu, Hc, Hsc, app_nil_r.
    destruct (other_of_close_events (_active_vports s)) as [-> ->].
    split; [|done]. rewrite Hs' at 1. cbn. by rewrite <- !app_assoc.
  - intros ps p rest e Hsplit Hok Hl He. unfold cleanup, for_each. run.
    match goal with
    | |- context [for_each_ctl (_active_vports ?s1) _ ?s0] =>
        change (_active_vports s1) with (_active_vports s);
        rewrite (close_all_run (_active_vports s) s0)
    end.
    cbn [tick trace with_world]. rewrite Hsplit.
    match goal with
    | |- context [for_each_ctl (ps ++ p :: rest) ?body ?s0] =>
        rewrite (for_each_ctl_app ps (p :: rest) body s0); unfold bind at 1;
        destruct (unlink_all_run ps Hok s0)
          as (s' & tr & -> & Hs' & Hu & Hc & Hsc)
    end.
    cbn [for_each_ctl]. unfold bind at 1.
    rewrite (remove_symlink_raises p s' e Hl (He _)).
    eexists _, (((fun v => EvCall (os_close (master_fd v))) <$> _active_vports s)
                ++ tr).
    split; [done|].
    rewrite closes_of_app, unlinks_of_app, ser_closes_of_app.
    rewrite closes_of_close_events, Hu, Hc, Hsc, app_nil_r.
    destruct (other_of_close_events (_active_vports s)) as [-> ->].
    split; [|done]. rewrite Hs'. cbn. by rewrite <- !app_assoc.
Qed.

End Cleanup.

(** SIGTERM arrives while three endpoints are registered.  In the first
    run the handle of the first endpoint is already closed; in the second
    the removal of the second symlink is refused. *)
Lemma cleanup_closes_endpoints_and_exits_witness :
  (exists s' tr,
     cleanup (closed_already 10) three_vports = (Raise (SystemExit 0), s') /\
     s' = with_world (tick s') (EvLog INFO msg_shutting_down :: tr) three_vports /\
     closes_of tr = [10; 11; 12] /\
     unlinks_of tr = VPORTS /\
     ser_closes_of tr = []) /\
  (exists s' tr,
     cleanup (unlink_refused "/dev/ttyV1") three_vports
       = (Raise (OSError 13), s') /\
     s' = with_world (tick s')
            (EvLog INFO msg_shutting_down :: tr
               ++ [EvIslink "/dev/ttyV1"; EvCall (os_unlink "/dev/ttyV1")])
            three_vports /\
     closes_of tr = [10; 11; 12] /\
     unlinks_of tr = ["/dev/ttyV0"%string] /\
     ser_closes_of tr = []).
Proof.
  split.
  - refine (proj1 (cleanup_closes_endpoints_and_exits
                     (closed_already 10) (fun _ => true) _ _ three_vports) _).
    + reflexivity.
    + intros t fd e. cbn. destruct (fd =? 10); intros [= <-]. reflexivity.
    + intros t p e. cbn. discriminate.
  - refine (proj2 (cleanup_closes_endpoints_and_exits
                     (unlink_refused "/dev/ttyV1") (fun _ => true) _ _
                     three_vports)
              ["/dev/ttyV0"%string] "/dev/ttyV1"%string ["/dev/ttyV2"%string]
              (OSError 13) _ _ _ _).
    + reflexivity.
    + intros t fd e. cbn. discriminate.
    + reflexivity.
    + intros t q e' ->%list_elem_of_singleton. cbn. discriminate.
    + reflexivity.
    + intros t. reflexivity.
Defined.

(** C7 (counterexample to the claim as stated).  The multiplexer holds the
    device handle 3 when the signal arrives: [cleanup] closes the three
    endpoint handles and removes the three symlinks, and exits without a
    call that closes the device. *)
Lemma cleanup_leaves_device_open_counterexample :
  let env := scenario any_fd [] [] 0%float in
  let s' := snd (cleanup env three_vports) in
  fst (cleanup env three_vports) = Raise (SystemExit 0) /\
  ser s' = 3 /\
  trace s' =
    [EvLog INFO msg_shutting_down;
     EvCall (os_close 10); EvCall (os_close 11); EvCall (os_close 12);
     EvIslink "/dev/ttyV0"; EvCall (os_unlink "/dev/ttyV0");
     EvLog INFO (msg_removed_symlink "/dev/ttyV0");
     EvIslink "/dev/ttyV1"; EvCall (os_unlink "/dev/ttyV1");
     EvLog INFO (msg_removed_symlink "/dev/ttyV1");
     EvIslink "/dev/ttyV2"; EvCall (os_unlink "/dev/ttyV2");
     EvLog INFO (msg_removed_symlink "/dev/ttyV2")] /\
  ~ In (EvCall (ser_close 3)) (trace s') /\
  ~ In (EvCall (os_close 3)) (trace s').
Proof.
  vm_compute. repeat split; try reflexivity;
    intros H; repeat (destruct H as [H|H]; [discriminate H|]); exact H.
Qed.

(** ** Device failure *)

Section DeviceFailure.

Context (env : Env) (fuel : nat).



Lemma dispatch_serial_failure s e sf :
  read_device env s = (Raise e, sf) ->
  device_error e = true ->
  dispatch_serial env fuel s =
    match reconnect env fuel msg_serial_read_failed e sf with
    | (Ok _, s') => (Ok Break, s')
    | (Raise e', s') => (Raise e', s')
    | (Spin, s') => (Spin, s')
    end.
Proof.
  intros Hrd He. unfold dispatch_serial, bind at 1, try_except.
  rewrite Hrd, He. unfold bind at 1.
  destruct (reconnect env fuel msg_serial_read_failed e sf) as [[c|e'|] s'];
    done.
Qed.

Lemma dispatch_vport_forward active_vports fd s i v data :
  find_vport (vports s) active_vports fd = Some i ->
  vports s !! i = Some v ->
  env_sys env (tick s) (os_read fd 4096) = inl data ->
  data <> [] ->
  dispatch_vport env fuel active_vports fd s =
    match env_sys env (S (tick s)) (ser_write (ser s) data) with
    | inl _ => (Ok Next, forwarding fd (path v) data s)
    | inr e =>
        if device_error e
        then reconnect env fuel msg_serial_write_failed e
               (forwarding fd (path v) data s)
        else (Raise e, forwarding fd (path v) data s)
    end.
Proof.
  intros Hfind Hv Hrd Hne. unfold dispatch_vport, forwarding.
  unfold bind at 1, get. rewrite Hfind, Hv.
  unfold bind at 1, try_except, bind at 1, sys at 1. rewrite Hrd.
  destruct data as [|b data]; [done|]. set (d := b :: data).
  unfold ret at 1. run.
  destruct (env_sys env (S (tick s)) (ser_write (ser s) d)) as [k|e].
  - by rewrite <- !app_assoc.
  - destruct (device_error e); by rewrite <- !app_assoc.
Qed.



End DeviceFailure.



(** ** Which errors leave a log record *)

Lemma errno_is_EIO_not_EAGAIN e : errno_is e EIO = true -> errno_is e EAGAIN = false.
Proof.
  unfold errno_is. destruct (errno_of e) as [n|]; [|done].
  unfold EIO, EAGAIN. intros H%Z.eqb_eq. subst. done.
Qed.

Lemma wait_readable_interrupted env fds s e :
  env_sys env (tick s) (select_select fds 1) = inr e ->
  isinstance_OSError e = true ->
  errno_is e EINTR = true ->
  wait_readable env fds s =
    (Ok None,
     with_world (S (tick s)) (trace s ++ [EvCall (select_select fds 1)]) s).
Proof.
  intros Hsel He Hintr. unfold wait_readable. run.
  rewrite Hsel, He, Hintr, orb_true_r. done.
Qed.

(** C9 (as amended).  An error is followed by a log record when it is: an
    [OSError] of an endpoint write; an [OSError] of an endpoint read other
    than EAGAIN and EINTR; an [OSError] of an idle probe other than EIO; a
    device-level error ([serial.SerialException] or [OSError]) of the
    device read or of the device write; a [serial.SerialException] raised
    by [serial.Serial] in an open attempt.  A readiness wait interrupted by
    a signal, an endpoint read that raises EAGAIN or EINTR, and an idle
    probe that raises EIO add nothing to the trace but the call itself.
    An exception of [serial.Serial] that is not a
    [serial.SerialException] is not handled: it leaves the open attempt,
    and [open_serial], with nothing in the trace but the call, so without
    a log record.  The same holds of the loops as wholes: the broadcast
    and the probe step leave the traces that [broadcast_spec] and
    [probe_spec] describe, in which every write that raises, and every
    probe that raises anything but EIO, is followed by its log record; and
    [open_serial] logs every [serial.SerialException] of [serial.Serial]
    before it sleeps and tries again. *)
Theorem which_errors_are_logged env fuel :
  (forall data s i v e,
     vports s !! i = Some v ->
     env_sys env (tick s) (os_write (master_fd v) data) = inr e ->
     isinstance_OSError e = true ->
     logged_after (os_write (master_fd v) data) s
       (snd (broadcast_one env data i s))) /\
  (forall active_vports fd s i v e,
     find_vport (vports s) active_vports fd = Some i ->
     vports s !! i = Some v ->
     env_sys env (tick s) (os_read fd 4096) = inr e ->
     isinstance_OSError e = true ->
     let s' := snd (dispatch_vport env fuel active_vports fd s) in
     if errno_is e EAGAIN || errno_is e EINTR
     then trace s' = trace s ++ [EvCall (os_read fd 4096)]
     else logged_after (os_read fd 4096) s s') /\
  (forall s i v e,
     vports s !! i = Some v ->
     alive v && idle v = true ->
     env_sys env (tick s) (os_read (master_fd v) 1) = inr e ->
     isinstance_OSError e = true ->
     let s' := snd (probe_one env i s) in
     if errno_is e EIO
     then trace s' = trace s ++ [EvCall (os_read (master_fd v) 1)]
     else logged_after (os_read (master_fd v) 1) s s') /\
  (forall s e sf,
     read_device env s = (Raise e, sf) ->
     device_error e = true ->
     exists tr,
       trace (snd (dispatch_serial env fuel s)) =
         trace sf ++ EvLog WARNING (msg_serial_read_failed e) :: tr) /\
  (forall active_vports fd s i v data e,
     find_vport (vports s) active_vports fd = Some i ->
     vports s !! i = Some v ->
     env_sys env (tick s) (os_read fd 4096) = inl data ->
     data <> [] ->
     env_sys env (S (tick s)) (ser_write (ser s) data) = inr e ->
     device_error e = true ->
     logged_after (ser_write (ser s) data)
       (with_world (S (tick s))
          (trace s ++ [EvCall (os_read fd 4096);
                       EvLog DEBUG (msg_vport_to_device (path v)
                                      (Z.of_nat (length data)))]) s)
       (snd (dispatch_vport env fuel active_vports fd s))) /\
  (forall port baud s,
     env_sys env (tick s) (serial_Serial port baud) = inr SerialException ->
     logged_after (serial_Serial port baud) s
       (snd (open_serial_attempt env port baud s))) /\
  (forall fds s e,
     env_sys env (tick s) (select_select fds 1) = inr e ->
     isinstance_OSError e = true ->
     errno_is e EINTR = true ->
     wait_readable env fds s =
       (Ok None,
        with_world (S (tick s)) (trace s ++ [EvCall (select_select fds 1)]) s)) /\
  (forall port baud s e,
     env_sys env (tick s) (serial_Serial port baud) = inr e ->
     isinstance_SerialException e = false ->
     open_serial_attempt env port baud s =
       (Raise e,
        with_world (S (tick s))
          (trace s ++ [EvCall (serial_Serial port baud)]) s)) /\
  (forall data s,
     (forall t fd e,
        env_sys env t (os_write fd data) = inr e ->
        isinstance_OSError e = true) ->
     let '(t', evs, vs') := broadcast_spec env data (tick s) (vports s) in
     broadcast env data s =
       (Ok tt, with_vports vs' (with_world t' (trace s ++ evs) s))) /\
  (forall data v e,
     exists l m,
       fst (write_spec data v (inr e)) =
         [EvCall (os_write (master_fd v) data); EvLog l m]) /\
  (forall s,
     (forall t fd e,
        env_sys env t (os_read fd 1) = inr e -> isinstance_OSError e = true) ->
     let '(t', evs, vs') := probe_spec env (tick s) (vports s) in
     probe_idle env s =
       (Ok tt, with_vports vs' (with_world t' (trace s ++ evs) s))) /\
  (forall v e,
     if errno_is e EIO
     then fst (probe_read_spec v (inr e)) = [EvCall (os_read (master_fd v) 1)]
     else exists l m,
            fst (probe_read_spec v (inr e)) =
              [EvCall (os_read (master_fd v) 1); EvLog l m]) /\
  (forall port baud s n,
     (forall k, (k < n)%nat ->
        env_sys env (tick s + k) (serial_Serial port baud)
          = inr SerialException) ->
     open_serial env n port baud s =
       (Spin, with_world (tick s + n)
                (trace s ++ failed_attempts port baud SerialException n) s) /\
     forall e fuel,
       env_sys env (tick s + n) (serial_Serial port baud) = inr e ->
       isinstance_SerialException e = false ->
       (n < fuel)%nat ->
       open_serial env fuel port baud s =
         (Raise e,
          with_world (S (tick s + n))
            (trace s ++ failed_attempts port baud SerialException n ++
               [EvCall (serial_Serial port baud)]) s)).
Proof.
  repeat apply conj.
  - intros data s i v e Hv Hw He.
    rewrite (broadcast_one_run env data s i v Hv). cbn zeta. rewrite Hw, He.
    destruct (errno_is e EAGAIN || errno_is e EIO); by eexists _, _, [].
  - intros active_vports fd s i v e Hfind Hv Hrd He.
    rewrite (dispatch_vport_read_error env fuel _ _ _ _ _ _ Hfind Hv Hrd He).
    cbn zeta.
    destruct (errno_is e EAGAIN || errno_is e EINTR); [done|].
    destruct (errno_is e EIO); by eexists _, _, [].
  - intros s i v e Hv Hai Hrd He.
    rewrite (probe_one_run env s i v Hv). cbn zeta. rewrite Hai, Hrd, He.
    destruct (errno_is e EIO) eqn:Hio.
    + by rewrite (errno_is_EIO_not_EAGAIN _ Hio).
    + destruct (errno_is e EAGAIN); by eexists _, _, [].
  - intros s e sf Hrd He.
    rewrite (dispatch_serial_failure env fuel _ _ _ Hrd He).
    destruct (reconnect env fuel msg_serial_read_failed e sf) as [r s'] eqn:E.
    destruct (reconnect_shape _ _ _ _ _ _ _ E) as (t & tr & h & ->).
    eexists. by destruct r.
  - intros active_vports fd s i v data e Hfind Hv Hrd Hne Hwr He.
    rewrite (dispatch_vport_forward env fuel _ _ _ _ _ _ Hfind Hv Hrd Hne).
    rewrite Hwr, He.
    match goal with
    | |- context [reconnect env fuel ?m e ?s0] =>
        destruct (reconnect env fuel m e s0) as [r s'] eqn:E;
        destruct (reconnect_shape _ _ _ _ _ _ _ E) as (t & tr & h & ->)
    end.
    eexists _, _, _. cbn. rewrite <- !app_assoc. cbn. reflexivity.
  - intros port baud s Hopen.
    rewrite (open_serial_attempt_fails env port baud s Hopen).
    by eexists _, _, _.
  - apply wait_readable_interrupted.
  - intros port baud s e. apply open_serial_attempt_raises.
  - intros data s Hos. rewrite (broadcast_run env data Hos).
    by destruct (broadcast_spec env data (tick s) (vports s)) as [[t' evs] vs'].
  - intros data v e. unfold write_spec.
    destruct (errno_is e EAGAIN || errno_is e EIO); by eexists _, _.
  - intros s Hos. rewrite (probe_idle_run env Hos).
    by destruct (probe_spec env (tick s) (vports s)) as [[t' evs] vs'].
  - intros v e. unfold probe_read_spec. destruct (errno_is e EIO) eqn:Hio.
    + by rewrite (errno_is_EIO_not_EAGAIN _ Hio).
    + destruct (errno_is e EAGAIN); by eexists _, _.
  - intros port baud s n Hfail. split.
    + by apply open_serial_keeps_trying.
    + intros e fuel' He Hne Hlt. by apply open_serial_raises.
Qed.

(** The idle endpoint on fd 10 no longer answers: the probe raises EBADF
    and the failure is logged. *)
Lemma which_errors_are_logged_witness :
  let env := scenario any_fd [] [(0%nat, OSError EBADF)] 0%float in
  logged_after (os_read 10 1) (one_vport true true)
    (snd (probe_one env 0 (one_vport true true))).
Proof.
  intros env.
  refine (proj1 (proj2 (proj2 (which_errors_are_logged env 1)))
            (one_vport true true) 0%nat
            (mk_vport 10 "/dev/ttyV0" "/dev/pts/5" true true)
            (OSError EBADF) _ _ _ _).
  - reflexivity.
  - reflexivity.
  - reflexivity.
  - reflexivity.
Defined.

(** C9 (counterexample to the claim as stated).  A readiness wait
    interrupted by a signal, an endpoint read interrupted by a signal and
    an idle probe that finds the peer gone are handled without any log
    record; none of them is a would-block condition. *)
Lemma silent_errors_counterexample :
  let interrupted := scenario any_fd [] [(0%nat, OSError EINTR)] 0%float in
  let peer_gone := scenario any_fd [] [(0%nat, OSError EIO)] 0%float in
  wait_readable interrupted [3; 10] (one_vport true false) =
    (Ok None,
     with_world 1 [EvCall (select_select [3; 10] 1)] (one_vport true false)) /\
  dispatch_vport interrupted 1 [0%nat] 10 (one_vport true false) =
    (Ok Next,
     with_world 1 [EvCall (os_read 10 4096)] (one_vport true false)) /\
  probe_one peer_gone 0 (one_vport true true) =
    (Ok Next, with_world 1 [EvCall (os_read 10 1)] (one_vport true true)) /\
  EINTR <> EAGAIN /\ EIO <> EAGAIN.
Proof. vm_compute. repeat split; (reflexivity || discriminate). Qed.

(** * Further properties of the program *)

(** ** Invariants and emitted events: the rules *)

Section KeepsRules.

Context (I : State -> Prop) (P : event -> Prop).

Lemma keeps_at_here {A} (m : M A) s : keeps I P m -> I s -> keeps_at I P m s.
Proof. intros H HI. by apply H. Qed.

Lemma keeps_stay {A} (m : M A) :
  (forall s, exists r, m s = (r, s)) -> keeps I P m.
Proof.
  intros H s HI r s' Hm. destruct (H s) as (r0 & Hr).
  rewrite Hr in Hm. injection Hm as <- <-.
  split; [done|]. exists []. by rewrite app_nil_r.
Qed.

Lemma keeps_ret {A} (a : A) : keeps I P (ret a).
Proof. apply keeps_stay. intros s. by eexists. Qed.

Lemma keeps_raise {A} e : keeps I P (@raise A e).
Proof. apply keeps_stay. intros s. by eexists. Qed.

Lemma keeps_spin {A} : keeps I P (@spin A).
Proof. apply keeps_stay. intros s. by eexists. Qed.

Lemma keeps_bind_returns {A B} (Q : A -> Prop) (m : M A) (k : A -> M B) :
  keeps I P m -> returns Q m -> (forall a, Q a -> keeps I P (k a)) ->
  keeps I P (bind m k).
Proof.
  intros Hm HQ Hk s HI r s' Hb.
  apply bind_cases in Hb as [(a & s1 & Ha & Hka)|[(e & He & ->)|[Hs ->]]].
  - destruct (Hm _ HI _ _ Ha) as (HI1 & tr1 & Htr1 & HP1).
    destruct (Hk a (HQ _ _ _ Ha) _ HI1 _ _ Hka) as (HI' & tr2 & Htr2 & HP2).
    split; [done|]. exists (tr1 ++ tr2).
    split; [by rewrite Htr2, Htr1, app_assoc|by apply Forall_app].
  - by destruct (Hm _ HI _ _ He) as (HI1 & tr1 & Htr1 & HP1); eauto.
  - by destruct (Hm _ HI _ _ Hs) as (HI1 & tr1 & Htr1 & HP1); eauto.
Qed.

Lemma keeps_bind {A B} (m : M A) (k : A -> M B) :
  keeps I P m -> (forall a, keeps I P (k a)) -> keeps I P (bind m k).
Proof.
  intros Hm Hk. apply (keeps_bind_returns (fun _ => True)); [done|done|].
  intros a _. apply Hk.
Qed.

(** After [get] the continuation runs in the state it was handed. *)
Lemma keeps_get_bind {B} (k : State -> M B) :
  (forall s, I s -> keeps_at I P (k s) s) -> keeps I P (bind get k).
Proof. intros Hk s HI r s' Hb. by apply (Hk s HI r s'). Qed.

Lemma keeps_try {A} (m : M A) h :
  keeps I P m -> (forall e k, h e = Some k -> keeps I P k) ->
  keeps I P (try_except m h).
Proof.
  intros Hm Hh s HI r s'. unfold try_except.
  destruct (m s) as [[a|e|] s1] eqn:E;
    destruct (Hm _ HI _ _ E) as (HI1 & tr1 & Htr1 & HP1).
  - intros [= <- <-]. eauto.
  - destruct (h e) as [k|] eqn:Eh.
    + intros Hk. destruct (Hh _ _ Eh _ HI1 _ _ Hk) as (HI' & tr2 & Htr2 & HP2).
      split; [done|]. exists (tr1 ++ tr2).
      split; [by rewrite Htr2, Htr1, app_assoc|by apply Forall_app].
    + intros [= <- <-]. eauto.
  - intros [= <- <-]. eauto.
Qed.

Lemma keeps_modify f :
  (forall s, I s -> I (f s)) -> (forall s, trace (f s) = trace s) ->
  keeps I P (modify f).
Proof.
  intros HIf Htr s HI r s' [= <- <-]. split; [by apply HIf|].
  exists []. by rewrite app_nil_r.
Qed.

Lemma keeps_for_each_ctl {A} (l : list A) (body : A -> M ctl) :
  (forall x, keeps I P (body x)) -> keeps I P (for_each_ctl l body).
Proof.
  intros Hbody. induction l as [|x l IH]; cbn [for_each_ctl]; [apply keeps_ret|].
  apply keeps_bind; [apply Hbody|].
  intros []; [apply IH|apply keeps_ret].
Qed.

Lemma keeps_for_each {A} (l : list A) (body : A -> M ctl) :
  (forall x, keeps I P (body x)) -> keeps I P (for_each l body).
Proof.
  intros Hbody. unfold for_each. apply keeps_bind; [by apply keeps_for_each_ctl|].
  intros _. apply keeps_ret.
Qed.

Hypothesis I_timeless : timeless I.

Lemma keeps_emit ev : P ev -> keeps I P (emit ev).
Proof.
  intros HP s HI r s' [= <- <-]. split; [by apply I_timeless|].
  exists [ev]. split; [done|]. by constructor.
Qed.

Lemma keeps_sys env c : P (EvCall c) -> keeps I P (sys env c).
Proof.
  intros HP s HI r s'. unfold sys.
  destruct (env_sys env (tick s) c); intros [= <- <-];
    (split; [by apply I_timeless|]); exists [EvCall c];
    (split; [done|]); by constructor.
Qed.

Lemma keeps_islink env p : P (EvIslink p) -> keeps I P (os_path_islink env p).
Proof.
  intros HP s HI r s' [= <- <-]. split; [by apply I_timeless|].
  exists [EvIslink p]. split; [done|]. by constructor.
Qed.

Lemma keeps_monotonic env : P EvMonotonic -> keeps I P (time_monotonic env).
Proof.
  intros HP s HI r s' [= <- <-]. split; [by apply I_timeless|].
  exists [EvMonotonic]. split; [done|]. by constructor.
Qed.

End KeepsRules.

(** One step of a proof of [keeps I P m] by the shape of [m]; [tl] proves
    that the invariant is timeless and [side] closes what is asked about
    single events and single assignments. *)
Ltac keeps_step tl side :=
  match goal with
  | |- keeps _ _ (ret _) => apply keeps_ret
  | |- keeps _ _ (raise _) => apply keeps_raise
  | |- keeps _ _ spin => apply keeps_spin
  | |- keeps _ _ (bind get _) =>
      apply keeps_get_bind; intros ? ?; apply keeps_at_here; [|assumption]
  | |- keeps _ _ (sys ?e ?c) => apply (keeps_sys _ _ tl e c); side
  | |- keeps _ _ (os_path_islink ?e ?p) => apply (keeps_islink _ _ tl e p); side
  | |- keeps _ _ (time_monotonic ?e) => apply (keeps_monotonic _ _ tl e); side
  | |- keeps _ _ (log ?l ?m) => apply (keeps_emit _ _ tl (EvLog l m)); side
  | |- keeps _ _ (time_sleep ?n) => apply (keeps_emit _ _ tl (EvSleep n)); side
  | |- keeps _ _ (modify _) => apply keeps_modify; [intros ? ?; side|done]
  | |- keeps _ _ (update_vport _ _) => apply keeps_modify; [intros ? ?; side|done]
  | |- keeps _ _ (for_each _ _) => apply keeps_for_each; intros ?
  | |- keeps _ _ (bind _ _) => apply keeps_bind; [|intros ?]
  | |- keeps _ _ (try_except _ _) => apply keeps_try; [|intros ? ? ?]
  | H : (if ?b then _ else _) = Some ?k |- keeps _ _ ?k =>
      destruct b; simplify_eq
  | H : None = Some ?k |- keeps _ _ ?k => discriminate H
  | H : _ = Some ?k |- keeps _ _ ?k => progress cbv beta in H
  | |- keeps _ _ (if ?b then _ else _) => destruct b
  | |- keeps _ _ (match ?x with _ => _ end) => destruct x eqn:?
  end.

Ltac keeps_steps tl side := repeat keeps_step tl side.

(** ** The helpers touch the file system only at the path they are given *)

Section HelpersKeep.

Context (env : Env) (Inv : State -> Prop) (ps : list string).

Hypothesis Inv_timeless : timeless Inv.

Ltac helper_steps :=
  keeps_steps Inv_timeless ltac:(first [exact Logic.I | assumption | idtac]).

Lemma open_serial_keeps fuel port baud :
  keeps Inv (touches ps) (open_serial env fuel port baud).
Proof.
  induction fuel as [|fuel IH]; cbn [open_serial]; [apply keeps_spin|].
  apply keeps_bind; [unfold open_serial_attempt; helper_steps|].
  intros [h|]; [apply keeps_ret|apply IH].
Qed.

Lemma create_vport_keeps p :
  p ∈ ps -> keeps Inv (touches ps) (create_vport env p).
Proof. intros Hp. unfold create_vport. helper_steps. Qed.

Lemma recreate_vport_keeps v :
  path v ∈ ps -> keeps Inv (touches ps) (recreate_vport env v).
Proof.
  intros Hp. unfold recreate_vport, close_quietly. helper_steps.
  by apply create_vport_keeps.
Qed.

Lemma create_all_keeps qs :
  (forall q, q ∈ qs -> q ∈ ps) -> keeps Inv (touches ps) (create_all env qs).
Proof.
  induction qs as [|q qs IH]; intros Hqs; cbn [create_all]; [apply keeps_ret|].
  apply keeps_bind; [apply create_vport_keeps, Hqs; left|].
  intros v. apply keeps_bind; [apply IH; intros ? ?; apply Hqs; by right|].
  intros vs. apply keeps_ret.
Qed.

End HelpersKeep.

(** ** What a pass keeps and where it touches the file system *)

Section PassInvariant.

Context (env : Env) (ps : list string) (a b : Z).

Lemma pass_inv_timeless : timeless (pass_inv ps a b).
Proof. intros t tr s H. exact H. Qed.

Lemma pass_inv_ser h s : pass_inv ps a b s -> pass_inv ps a b (with_ser h s).
Proof. intros H. exact H. Qed.

Lemma pass_inv_registered r s :
  pass_inv ps a b s -> pass_inv ps a b (with_registered r s).
Proof. intros H. exact H. Qed.

Lemma pass_inv_last_stats f s :
  pass_inv ps a b s -> pass_inv ps a b (with_last_stats f s).
Proof. intros H. exact H. Qed.

Lemma pass_inv_alter f i s :
  (forall v, path (f v) = path v) ->
  pass_inv ps a b s ->
  pass_inv ps a b (with_vports (alter f i (vports s)) s).
Proof.
  intros Hf (Hp & Ha & Hb). split; [|done]. cbn.
  rewrite (list_fmap_alter path f id)
    by (apply Forall_forall; intros v _; apply Hf).
  by rewrite list_alter_id.
Qed.

Lemma pass_inv_insert i v' s :
  ps !! i = Some (path v') ->
  pass_inv ps a b s ->
  pass_inv ps a b (with_vports (<[i:=v']> (vports s)) s).
Proof.
  intros Hi (Hp & Ha & Hb). split; [|done]. cbn.
  rewrite list_fmap_insert, Hp. by apply list_insert_id.
Qed.

Lemma pass_inv_from n s :
  pass_inv ps a b s ->
  pass_inv ps a b (with_bytes_from (bytes_from_device s + Z.of_nat n) s).
Proof. intros (Hp & Ha & Hb). repeat split; cbn; [done|lia|done]. Qed.

Lemma pass_inv_to n s :
  pass_inv ps a b s ->
  pass_inv ps a b (with_bytes_to (bytes_to_device s + Z.of_nat n) s).
Proof. intros (Hp & Ha & Hb). repeat split; cbn; [done|done|lia]. Qed.

Ltac pass_side :=
  first
    [ exact I
    | assumption
    | apply pass_inv_ser; assumption
    | apply pass_inv_registered; assumption
    | apply pass_inv_last_stats; assumption
    | apply pass_inv_from; assumption
    | apply pass_inv_to; assumption
    | apply pass_inv_alter; [by intros []|assumption]
    | idtac ].

Ltac pass_steps := keeps_steps pass_inv_timeless pass_side.

Lemma reconnect_pass fuel m e :
  keeps (pass_inv ps a b) (touches ps) (reconnect env fuel m e).
Proof.
  unfold reconnect. pass_steps. apply open_serial_keeps, pass_inv_timeless.
Qed.

Lemma broadcast_pass data :
  keeps (pass_inv ps a b) (touches ps) (broadcast env data).
Proof. unfold broadcast, broadcast_one. pass_steps. Qed.

Lemma dispatch_fd_pass fuel ser_fd active_vports fd :
  keeps (pass_inv ps a b) (touches ps)
    (dispatch_fd env fuel ser_fd active_vports fd).
Proof.
  unfold dispatch_fd. destruct (fd =? ser_fd).
  - unfold dispatch_serial, read_device. pass_steps;
      first [apply reconnect_pass|apply broadcast_pass].
  - unfold dispatch_vport. pass_steps; apply reconnect_pass.
Qed.

Lemma probe_idle_pass : keeps (pass_inv ps a b) (touches ps) (probe_idle env).
Proof. unfold probe_idle, probe_one. pass_steps. Qed.

Lemma recreate_vport_path v :
  returns (fun v' => path v' = path v) (recreate_vport env v).
Proof. intros s v' s' H. by apply recreate_vport_shape in H as (_ & ? & _). Qed.

Lemma recreate_dead_pass :
  keeps (pass_inv ps a b) (touches ps) (recreate_dead env).
Proof.
  unfold recreate_dead. pass_steps. unfold recreate_one.
  apply keeps_get_bind. intros s0 (Hp & Ha & Hb).
  destruct (vports s0 !! x) as [v|] eqn:Hv;
    [|apply keeps_at_here; [apply keeps_ret|done]].
  assert (ps !! x = Some (path v)) as Hx
    by (by rewrite <- Hp, list_lookup_fmap, Hv).
  apply keeps_at_here; [|done].
  destruct (negb (alive v)); [|apply keeps_ret].
  apply (keeps_bind_returns _ _ (fun v' => path v' = path v)).
  - apply recreate_vport_keeps; [apply pass_inv_timeless|].
    rewrite <- Hp. apply list_elem_of_fmap_2. by eapply list_elem_of_lookup_2.
  - apply recreate_vport_path.
  - intros v' Hv'. pass_steps. apply pass_inv_insert; [|done]. by rewrite Hv'.
Qed.

Lemma log_stats_pass : keeps (pass_inv ps a b) (touches ps) (log_stats env).
Proof. unfold log_stats. pass_steps. Qed.

Lemma loop_body_pass fuel :
  keeps (pass_inv ps a b) (touches ps) (loop_body env fuel).
Proof.
  unfold loop_body, get_ser_fd, wait_readable. pass_steps;
    first [ apply dispatch_fd_pass | apply probe_idle_pass
          | apply recreate_dead_pass | apply log_stats_pass ].
Qed.

Lemma main_loop_pass fuel n :
  keeps (pass_inv ps a b) (touches ps) (main_loop env fuel n).
Proof.
  induction n as [|n IH]; cbn [main_loop]; [apply keeps_spin|].
  apply keeps_bind; [apply loop_body_pass|]. intros _. apply IH.
Qed.

End PassInvariant.

(** ** From start-up to the loop *)

Lemma returns_bind_with {A B} (Q : A -> Prop) (P : B -> Prop)
    (m : M A) (k : A -> M B) :
  returns Q m -> (forall a, Q a -> returns P (k a)) -> returns P (bind m k).
Proof.
  intros Hm Hk s b s' Hb. apply bind_Ok in Hb as (a & s1 & Ha & Hka).
  eapply Hk; [by eapply Hm|done].
Qed.

Lemma create_all_fresh env qs :
  returns (fun vs => path <$> vs = qs /\ Forall fresh vs) (create_all env qs).
Proof.
  induction qs as [|q qs IH]; cbn [create_all]; [by apply returns_ret|].
  apply (returns_bind_with (fun v => path v = q /\ fresh v)).
  - intros s v s' H. apply create_vport_fresh in H as (? & ? & ?).
    by repeat split.
  - intros v (Hp & Hf). apply (returns_bind_with _ _ _ _ IH).
    intros vs (Hps & Hfs). apply returns_ret. cbn. split; [by f_equal|].
    by constructor.
Qed.

Section Ends.

Context (I Post : State -> Prop) (P : event -> Prop).

Lemma ends_keeps {A} (m : M A) :
  keeps I P m -> (forall s, I s -> Post s) -> ends I Post P m.
Proof.
  intros Hm HP s HI r s' H. destruct (Hm s HI r s' H) as (HI' & Htr).
  split; [by apply HP|done].
Qed.

Lemma ends_bind {A B} (Q : A -> Prop) (m : M A) (k : A -> M B) :
  keeps I P m -> returns Q m -> (forall s, I s -> Post s) ->
  (forall a, Q a -> ends I Post P (k a)) ->
  ends I Post P (bind m k).
Proof.
  intros Hm HQ HP Hk s HI r s' Hb.
  apply bind_cases in Hb as [(a & s1 & Ha & Hka)|[(e & He & ->)|[Hs ->]]].
  - destruct (Hm _ HI _ _ Ha) as (HI1 & tr1 & Htr1 & HP1).
    destruct (Hk a (HQ _ _ _ Ha) _ HI1 _ _ Hka) as (HI' & tr2 & Htr2 & HP2).
    split; [done|]. exists (tr1 ++ tr2).
    split; [by rewrite Htr2, Htr1, app_assoc|by apply Forall_app].
  - destruct (Hm _ HI _ _ He) as (HI1 & Htr). split; [by apply HP|done].
  - destruct (Hm _ HI _ _ Hs) as (HI1 & Htr). split; [by apply HP|done].
Qed.

(** An assignment after which another invariant takes over. *)
Lemma ends_switch {B} (I2 : State -> Prop) f (k : M B) :
  (forall s, I s -> I2 (f s)) -> (forall s, trace (f s) = trace s) ->
  ends I2 Post P k ->
  ends I Post P (bind (modify f) (fun _ => k)).
Proof.
  intros Hf Htr Hk s HI r s' Hb. unfold bind, modify in Hb.
  destruct (Hk (f s) (Hf s HI) r s' Hb) as (HP & tr & Ht & HF).
  split; [done|]. exists tr. by rewrite Ht, Htr.
Qed.

End Ends.

Section WholeProgram.

Context (env : Env) (fuel : nat).

Lemma loop_body_paths ps :
  keeps (fun s => path <$> vports s = ps) (touches ps) (loop_body env fuel).
Proof.
  intros s Hs r s' H.
  assert (pass_inv ps (bytes_from_device s) (bytes_to_device s) s) as HI
    by (split; [done|lia]).
  destruct (loop_body_pass env ps _ _ fuel s HI r s' H) as ((Hp & _) & Htr).
  done.
Qed.

Lemma main_loop_paths ps n :
  keeps (fun s => path <$> vports s = ps) (touches ps) (main_loop env fuel n).
Proof.
  induction n as [|n IH]; cbn [main_loop]; [apply keeps_spin|].
  apply keeps_bind; [apply loop_body_paths|]. intros _. apply IH.
Qed.

Lemma main_ends n vs0 :
  ends (fun s => vports s = vs0)
       (fun s => vports s = vs0 \/ path <$> vports s = VPORTS)
       (touches VPORTS) (main env fuel n).
Proof.
  assert (timeless (fun s => vports s = vs0)) as Htl by (by intros t tr s H).
  assert (timeless (fun s => path <$> vports s = VPORTS)) as Htl2
    by (by intros t tr s H).
  unfold main.
  apply (ends_bind _ _ _ (fun _ => True));
    [by apply keeps_emit|done|by left|intros _ _].
  apply (ends_bind _ _ _ (fun _ => True));
    [by apply open_serial_keeps|done|by left|intros h _].
  apply (ends_bind _ _ _ (fun _ => True));
    [by apply keeps_modify|done|by left|intros _ _].
  apply (ends_bind _ _ _ (fun vs => path <$> vs = VPORTS));
    [by apply create_all_keeps
    |intros s vs s' H; by apply create_all_fresh in H as (? & _)
    |by left|intros vs Hvs].
  apply (ends_switch _ _ _ (fun s => path <$> vports s = VPORTS));
    [done|done|].
  apply ends_keeps; [|by right].
  keeps_steps Htl2 ltac:(first [exact Logic.I | assumption | idtac]).
  apply main_loop_paths.
Qed.

End WholeProgram.

(** X1.  Whatever a pass of the loop does and however it ends (normally,
    by an exception, or waiting in the reopen loop), the endpoint list
    keeps its length and its paths, in order, and neither byte counter
    goes down. *)
Theorem pass_keeps_paths_and_counters env fuel s :
  let s' := snd (loop_body env fuel s) in
  path <$> vports s' = path <$> vports s /\
  bytes_from_device s <= bytes_from_device s' /\
  bytes_to_device s <= bytes_to_device s'.
Proof.
  intros s'. subst s'.
  destruct (loop_body env fuel s) as [r s'] eqn:H. cbn [snd].
  assert (pass_inv (path <$> vports s) (bytes_from_device s)
            (bytes_to_device s) s) as HI by (split; [done|lia]).
  by destruct (loop_body_pass env _ _ _ fuel s HI r s' H) as (HI' & _).
Qed.

(** X2.  In a pass of the loop, [os.path.islink], [os.unlink] and
    [os.symlink] are only ever applied to the path of an endpoint of the
    list, however the pass ends. *)
Theorem pass_touches_only_endpoint_paths env fuel s :
  exists tr,
    trace (snd (loop_body env fuel s)) = trace s ++ tr /\
    Forall (touches (path <$> vports s)) tr.
Proof.
  destruct (loop_body env fuel s) as [r s'] eqn:H. cbn [snd].
  by destruct (loop_body_paths env fuel _ s eq_refl r s' H) as (_ & Htr).
Qed.

(** X3.  From start-up on, through any number of passes and however
    [main] stops, the program applies [os.path.islink], [os.unlink] and
    [os.symlink] to the paths of [VPORTS] only, and the endpoint list is
    either still the one it started with (the start-up did not get to
    line 107's result) or has exactly the paths of [VPORTS], in order. *)
Theorem main_touches_only_configured_paths env fuel n s :
  let s' := snd (main env fuel n s) in
  (vports s' = vports s \/ path <$> vports s' = VPORTS) /\
  exists tr, trace s' = trace s ++ tr /\ Forall (touches VPORTS) tr.
Proof.
  intros s'. subst s'.
  destruct (main env fuel n s) as [r s'] eqn:H. cbn [snd].
  exact (main_ends env fuel n (vports s) s eq_refl r s' H).
Qed.

(** X4.  When the list comprehension of line 107 returns, it returns one
    record per path, in the order of the paths, each alive and idle. *)
Theorem startup_creates_one_endpoint_per_path env qs s vs s' :
  create_all env qs s = (Ok vs, s') ->
  path <$> vs = qs /\ Forall fresh vs.
Proof. apply create_all_fresh. Qed.

(** Every call succeeds: the three endpoints of [VPORTS] are created. *)
Lemma startup_creates_one_endpoint_per_path_witness :
  let env := scenario any_fd [] [] 0%float in
  let vs := [mk_vport 20 "/dev/ttyV0" "/dev/pts/7" true true;
             mk_vport 20 "/dev/ttyV1" "/dev/pts/7" true true;
             mk_vport 20 "/dev/ttyV2" "/dev/pts/7" true true] in
  path <$> vs = VPORTS /\ Forall fresh vs.
Proof.
  intros env vs.
  refine (startup_creates_one_endpoint_per_path env VPORTS boot vs
            (snd (create_all env VPORTS boot)) _).
  vm_compute. reflexivity.
Defined.

(** ** Errors that are not handled *)

(** X5.  [open_serial] retries on [serial.SerialException] only.  After
    [n] failures of that class, an attempt that raises any other exception
    ends the loop: the exception leaves [open_serial] at once, with no
    log record and no sleep for it. *)
Theorem open_serial_lets_other_errors_out env port baud n : forall fuel s e,
  (forall k, (k < n)%nat ->
     env_sys env (tick s + k) (serial_Serial port baud) = inr SerialException) ->
  env_sys env (tick s + n) (serial_Serial port baud) = inr e ->
  isinstance_SerialException e = false ->
  (n < fuel)%nat ->
  open_serial env fuel port baud s =
    (Raise e,
     with_world (S (tick s + n))
       (trace s ++ failed_attempts port baud SerialException n ++
          [EvCall (serial_Serial port baud)]) s).
Proof. apply open_serial_raises. Qed.

(** The device is absent once, then [serial.Serial] raises an exception
    that is no [SerialException]. *)
Lemma open_serial_lets_other_errors_out_witness :
  let env := scenario any_fd [] [(0%nat, SerialException); (1%nat, OtherError)]
               0%float in
  open_serial env 5 REAL_PORT BAUD boot =
    (Raise OtherError,
     with_world 2
       (failed_attempts REAL_PORT BAUD SerialException 1 ++
          [EvCall (serial_Serial REAL_PORT BAUD)]) boot).
Proof.
  intros env.
  refine (open_serial_lets_other_errors_out env REAL_PORT BAUD 1 5 boot
            OtherError _ _ _ _).
  - intros [|k] Hk; [reflexivity|lia].
  - reflexivity.
  - reflexivity.
  - lia.
Defined.

Lemma get_ser_fd_run env s :
  get_ser_fd env s =
    match env_sys env (tick s) (ser_fileno (ser s)) with
    | inl fd =>
        (Ok fd, with_world (S (tick s))
                  (trace s ++ [EvCall (ser_fileno (ser s))]) s)
    | inr e =>
        (if isinstance_Exception e then Ok (-1) else Raise e,
         with_world (S (tick s)) (trace s ++ [EvCall (ser_fileno (ser s))]) s)
    end.
Proof.
  unfold get_ser_fd. run.
  destruct (env_sys env (tick s) (ser_fileno (ser s))) as [fd|e]; [done|].
  by destruct (isinstance_Exception e).
Qed.

Lemma wait_readable_raises env fds s e :
  env_sys env (tick s) (select_select fds 1) = inr e ->
  errno_is e EINTR = false ->
  wait_readable env fds s =
    (Raise e,
     with_world (S (tick s)) (trace s ++ [EvCall (select_select fds 1)]) s).
Proof.
  intros Hsel Hintr. unfold wait_readable. run. rewrite Hsel.
  destruct e as [n| | |c]; cbn; try done.
  unfold errno_is in Hintr. cbn in Hintr. by rewrite Hintr.
Qed.

(** The handles a pass waits on. *)
Lemma watch_fds_active ser_fd vs :
  watch_fds ser_fd vs (select_refs is_active vs) =
    (if 0 <=? ser_fd then [ser_fd] else []) ++
    (master_fd <$> List.filter is_active vs).
Proof.
  unfold watch_fds. rewrite (select_refs_deref master_fd is_active vs).
  by destruct (0 <=? ser_fd).
Qed.

Section WaitFails.

Context (env : Env) (fuel : nat) (s : State) (ser_fd : Z).

Hypothesis fileno_answers :
  env_sys env (tick s) (ser_fileno (ser s)) = inl ser_fd.

Let fds := watch_fds ser_fd (vports s) (select_refs is_active (vports s)).

Let waited : State :=
  with_world (S (S (tick s)))
    (trace s ++ [EvCall (ser_fileno (ser s)); EvCall (select_select fds 1)]) s.

(** X6.  When the readiness wait is interrupted by a signal, the pass ends
    there: nothing is dispatched and the idle probe, the recovery sweep
    and the statistics of that pass are skipped. *)
Theorem interrupted_wait_skips_the_pass e :
  env_sys env (S (tick s)) (select_select fds 1) = inr e ->
  isinstance_OSError e = true ->
  errno_is e EINTR = true ->
  loop_body env fuel s = (Ok tt, waited).
Proof using fileno_answers.
  intros Hsel He Hintr. unfold loop_body. unfold bind at 1.
  rewrite get_ser_fd_run, fileno_answers. unfold bind at 1, get.
  unfold bind at 1. cbn [vports with_world].
  rewrite (wait_readable_interrupted env _ _ e) by done.
  unfold ret, waited. cbn. by rewrite <- app_assoc.
Qed.

(** X7.  Any other failure of the readiness wait is not handled: it
    leaves the pass and the loop as an exception right after the [select]
    call, so nothing is closed and no symlink is removed on the way out. *)
Theorem failed_wait_ends_the_loop e n :
  env_sys env (S (tick s)) (select_select fds 1) = inr e ->
  errno_is e EINTR = false ->
  main_loop env fuel (S n) s = (Raise e, waited).
Proof using fileno_answers.
  intros Hsel Hintr. cbn [main_loop]. unfold bind at 1.
  unfold loop_body. unfold bind at 1.
  rewrite get_ser_fd_run, fileno_answers. unfold bind at 1, get.
  unfold bind at 1. cbn [vports with_world].
  rewrite (wait_readable_raises env _ _ e) by done.
  unfold waited. cbn. by rewrite <- app_assoc.
Qed.

End WaitFails.

(** A signal arrives while the multiplexer waits on the device and on the
    active endpoint on fd 11. *)
Lemma interrupted_wait_skips_the_pass_witness :
  let env := scenario any_fd [] [(1%nat, OSError EINTR)] 0%float in
  loop_body env 1 three_vports =
    (Ok tt,
     with_world 2 [EvCall (ser_fileno 3); EvCall (select_select [3; 11] 1)]
       three_vports).
Proof.
  intros env.
  refine (interrupted_wait_skips_the_pass env 1 three_vports 3 _
            (OSError EINTR) _ _ _); reflexivity.
Defined.

(** [select] fails with EBADF. *)
Lemma failed_wait_ends_the_loop_witness :
  let env := scenario any_fd [] [(1%nat, OSError EBADF)] 0%float in
  main_loop env 1 4 three_vports =
    (Raise (OSError EBADF),
     with_world 2 [EvCall (ser_fileno 3); EvCall (select_select [3; 11] 1)]
       three_vports).
Proof.
  intros env.
  refine (failed_wait_ends_the_loop env 1 three_vports 3 _
            (OSError EBADF) 3 _ _); reflexivity.
Defined.

(** ** The wait set *)

Lemma wait_readable_shape env fds s r s' :
  wait_readable env fds s = (r, s') ->
  s' = with_world (S (tick s)) (trace s ++ [EvCall (select_select fds 1)]) s.
Proof.
  unfold wait_readable. run.
  destruct (env_sys env (tick s) (select_select fds 1)) as [l|e];
    [by intros [= <- <-]|].
  destruct (isinstance_InterruptedError e || isinstance_OSError e);
    [|by intros [= <- <-]].
  destruct (errno_is e EINTR || isinstance_InterruptedError e);
    by intros [= <- <-].
Qed.

Lemma after_wait_pass env ps a b fuel ser_fd active_vports
    (r : option (list Z)) :
  keeps (pass_inv ps a b) (touches ps)
    (match r with
     | None => ret tt
     | Some readable =>
         for_each readable (dispatch_fd env fuel ser_fd active_vports) ;;
         probe_idle env ;; recreate_dead env ;; log_stats env
     end).
Proof.
  destruct r as [readable|]; [|apply keeps_ret].
  apply keeps_bind; [apply keeps_for_each; intros fd; apply dispatch_fd_pass|].
  intros _. apply keeps_bind; [apply probe_idle_pass|].
  intros _. apply keeps_bind; [apply recreate_dead_pass|].
  intros _. apply log_stats_pass.
Qed.

Lemma loop_body_waits env fuel s ser_fd s1 :
  get_ser_fd env s = (Ok ser_fd, s1) ->
  exists tr,
    trace (snd (loop_body env fuel s)) =
      trace s1 ++
      EvCall (select_select
                ((if 0 <=? ser_fd then [ser_fd] else []) ++
                 (master_fd <$> List.filter is_active (vports s))) 1) :: tr.
Proof.
  intros Hfd. pose proof (world_only_get_ser_fd _ _ _ _ Hfd) as Hvs.
  unfold loop_body. unfold bind at 1. rewrite Hfd.
  unfold bind at 1, get. unfold bind at 1.
  rewrite Hvs, watch_fds_active.
  match goal with
  | |- context [wait_readable env ?fds s1] =>
      destruct (wait_readable env fds s1) as [[r|e|] s2] eqn:E;
      pose proof (wait_readable_shape _ _ _ _ _ E) as ->
  end; cbn [snd].
  - match goal with
    | |- context [?k ?s0] =>
        match type of k with
        | M unit => destruct (k s0) as [r' s'] eqn:Ek
        end
    end.
    assert (pass_inv (path <$> vports s1) (bytes_from_device s1)
              (bytes_to_device s1)
              (with_world (S (tick s1))
                 (trace s1 ++ [EvCall (select_select
                    ((if 0 <=? ser_fd then [ser_fd] else []) ++
                     (master_fd <$> List.filter is_active (vports s))) 1)])
                 s1)) as HI by (split; cbn; [done|lia]).
    destruct (after_wait_pass env _ _ _ fuel ser_fd
                (select_refs is_active (vports s)) r _ HI r' s' Ek)
      as (_ & tr & Htr & _).
    exists tr. cbn [snd]. rewrite Htr. cbn. by rewrite <- app_assoc.
  - by exists [].
  - by exists [].
Qed.

(** X8.  The [select] of a pass watches the device handle, when
    [ser.fileno()] gives a non-negative one, followed by the controller
    handles of exactly the endpoints that are alive and not idle, in list
    order; idle and dead endpoints are never waited on.  When
    [ser.fileno()] raises an [Exception], the pass waits on the active
    endpoints alone. *)
Theorem wait_set_is_device_and_active_endpoints env fuel s :
  let fds := master_fd <$> List.filter is_active (vports s) in
  let fileno := EvCall (ser_fileno (ser s)) in
  let s' := snd (loop_body env fuel s) in
  match env_sys env (tick s) (ser_fileno (ser s)) with
  | inl ser_fd =>
      exists tr,
        trace s' =
          trace s ++ fileno
                  :: EvCall (select_select
                               ((if 0 <=? ser_fd then [ser_fd] else []) ++ fds) 1)
                  :: tr
  | inr e =>
      if isinstance_Exception e
      then exists tr,
             trace s' = trace s ++ fileno :: EvCall (select_select fds 1) :: tr
      else loop_body env fuel s =
             (Raise e, with_world (S (tick s)) (trace s ++ [fileno]) s)
  end.
Proof.
  intros fds fileno s'. subst fds fileno s'.
  pose proof (get_ser_fd_run env s) as Hfd.
  destruct (env_sys env (tick s) (ser_fileno (ser s))) as [ser_fd|e].
  - destruct (loop_body_waits env fuel s _ _ Hfd) as (tr & Htr).
    exists tr. rewrite Htr. cbn. by rewrite <- app_assoc.
  - destruct (isinstance_Exception e).
    + destruct (loop_body_waits env fuel s _ _ Hfd) as (tr & Htr).
      exists tr. rewrite Htr. cbn. by rewrite <- app_assoc.
    + unfold loop_body. unfold bind at 1. by rewrite Hfd.
Qed.

(** ** Edge cases of the dispatch *)

(** X9.  [ser.read] is never asked for zero bytes: it is asked for
    [in_waiting] bytes, or for one when nothing is waiting.  When it
    returns the empty string nothing is broadcast, no counter changes and
    the loop goes on to the next readable handle. *)
Theorem empty_device_read_is_skipped env fuel s n :
  env_sys env (tick s) (ser_in_waiting (ser s)) = inl n ->
  env_sys env (S (tick s)) (ser_read (ser s) (if n =? 0 then 1 else n))
    = inl [] ->
  (if n =? 0 then 1 else n) <> 0 /\
  dispatch_serial env fuel s =
    (Ok Next,
     with_world (S (S (tick s)))
       (trace s ++ [EvCall (ser_in_waiting (ser s));
                    EvCall (ser_read (ser s) (if n =? 0 then 1 else n))]) s).
Proof.
  intros Hn Hd. split.
  - destruct (n =? 0) eqn:E; [done|]. by apply Z.eqb_neq.
  - unfold dispatch_serial, read_device. run. rewrite Hn. run. rewrite Hd.
    run. by rewrite <- app_assoc.
Qed.

(** Nothing is waiting and the read returns nothing. *)
Lemma empty_device_read_is_skipped_witness :
  let env :=
    mk_env (fun _ c => match c return resp c + exn with
                       | ser_in_waiting _ => inl 0
                       | ser_read _ _ => inl []
                       | c' => answer any_fd [] c'
                       end)
           (fun _ _ => true) (fun _ => 0%float) in
  dispatch_serial env 1 three_vports =
    (Ok Next,
     with_world 2 [EvCall (ser_in_waiting 3); EvCall (ser_read 3 1)]
       three_vports).
Proof.
  intros env.
  refine (proj2 (empty_device_read_is_skipped env 1 three_vports 0 _ _));
    reflexivity.
Defined.

Lemma find_vport_Some vs active_vports fd i :
  find_vport vs active_vports fd = Some i ->
  i ∈ active_vports /\ exists v, vs !! i = Some v /\ master_fd v = fd.
Proof.
  unfold find_vport. intros H. apply find_some in H as [Hin Hfd].
  split; [by apply list_elem_of_In|].
  destruct (vs !! i) as [v|]; [|done]. exists v. split; [done|].
  by apply Z.eqb_eq.
Qed.

Lemma find_vport_None vs active_vports fd :
  (forall i v, i ∈ active_vports -> vs !! i = Some v -> master_fd v <> fd) ->
  find_vport vs active_vports fd = None.
Proof.
  intros H. destruct (find_vport vs active_vports fd) as [i|] eqn:E; [|done].
  apply find_vport_Some in E as (Hin & v & Hv & Hfd).
  by destruct (H i v Hin Hv).
Qed.

(** X10.  A readable handle that is neither the device handle nor the
    controller handle of an endpoint of [active_vports] is skipped: no
    call is made and nothing changes. *)
Theorem unknown_handle_is_skipped env fuel ser_fd active_vports fd s :
  fd <> ser_fd ->
  (forall i v, i ∈ active_vports -> vports s !! i = Some v ->
               master_fd v <> fd) ->
  dispatch_fd env fuel ser_fd active_vports fd s = (Ok Next, s).
Proof.
  intros Hser Hnone. unfold dispatch_fd.
  rewrite (proj2 (Z.eqb_neq fd ser_fd) Hser).
  unfold dispatch_vport, bind, get. by rewrite find_vport_None.
Qed.

(** [select] reports fd 10, the handle of an idle endpoint, which is not
    among the active ones. *)
Lemma unknown_handle_is_skipped_witness :
  let env := scenario any_fd [] [] 0%float in
  dispatch_fd env 1 3 [1%nat] 10 three_vports = (Ok Next, three_vports).
Proof.
  intros env.
  refine (unknown_handle_is_skipped env 1 3 [1%nat] 10 three_vports _ _).
  - discriminate.
  - intros i v Hi%list_elem_of_singleton Hv. subst i.
    injection Hv as <-. discriminate.
Defined.

(** X11.  A chunk read from an endpoint is counted in [bytes_to_device]
    before [ser.write] is called: the counter grows by the length of the
    chunk whether the write succeeds, fails and triggers the reopen, or
    raises. *)
Theorem endpoint_bytes_are_counted_before_the_write
    env fuel active_vports fd s i v data :
  find_vport (vports s) active_vports fd = Some i ->
  vports s !! i = Some v ->
  env_sys env (tick s) (os_read fd 4096) = inl data ->
  data <> [] ->
  let s' := snd (dispatch_vport env fuel active_vports fd s) in
  bytes_to_device s' = bytes_to_device s + Z.of_nat (length data) /\
  bytes_from_device s' = bytes_from_device s.
Proof.
  intros Hfind Hv Hrd Hne s'. subst s'.
  rewrite (dispatch_vport_forward env fuel _ _ _ _ _ _ Hfind Hv Hrd Hne).
  destruct (env_sys env (S (tick s)) (ser_write (ser s) data)) as [k|e];
    [done|].
  destruct (device_error e); [|done].
  match goal with
  | |- context [reconnect env fuel ?m e ?s0] =>
      destruct (reconnect env fuel m e s0) as [r s'] eqn:E;
      destruct (reconnect_shape _ _ _ _ _ _ _ E) as (t & tr & h & ->)
  end.
  done.
Qed.

(** The endpoint on fd 11 sends one byte and [ser.write] fails. *)
Lemma endpoint_bytes_are_counted_before_the_write_witness :
  let env := scenario any_fd [Byte.x41] [(1%nat, SerialException)] 0%float in
  let s' := snd (dispatch_vport env 1 [1%nat] 11 three_vports) in
  bytes_to_device s' = 1 /\ bytes_from_device s' = 0.
Proof.
  intros env.
  refine (endpoint_bytes_are_counted_before_the_write env 1 [1%nat] 11
            three_vports 1%nat
            (mk_vport 11 "/dev/ttyV1" "/dev/pts/6" true false)
            [Byte.x41] _ _ _ _).
  - reflexivity.
  - reflexivity.
  - reflexivity.
  - discriminate.
Defined.

Lemma read_device_shape env s r s' :
  read_device env s = (r, s') ->
  exists t tr, s' = with_world t (trace s ++ tr) s.
Proof.
  unfold read_device. unfold bind at 1, get.
  match goal with |- ?m s = _ -> _ => assert (world_only m) as Hw by world end.
  apply Hw.
Qed.

(** X12.  A device-level failure of the device read changes no endpoint
    record and no byte counter, however the reopen that follows ends:
    nothing but the device handle, the clock and the trace differ. *)
Theorem device_read_failure_leaves_endpoints env fuel s e sf :
  read_device env s = (Raise e, sf) ->
  device_error e = true ->
  let s' := snd (dispatch_serial env fuel s) in
  vports s' = vports s /\
  bytes_from_device s' = bytes_from_device s /\
  bytes_to_device s' = bytes_to_device s.
Proof.
  intros Hrd He s'. subst s'.
  rewrite (dispatch_serial_failure env fuel _ _ _ Hrd He).
  destruct (read_device_shape _ _ _ _ Hrd) as (t0 & tr0 & ->).
  match goal with
  | |- context [reconnect env fuel ?m e ?s0] =>
      destruct (reconnect env fuel m e s0) as [r s'] eqn:E;
      destruct (reconnect_shape _ _ _ _ _ _ _ E) as (t & tr & h & ->)
  end.
  by destruct r.
Qed.

(** [ser.in_waiting] raises [OSError] and the device stays absent. *)
Lemma device_read_failure_leaves_endpoints_witness :
  let env := scenario any_fd []
               [(0%nat, OSError EIO); (2%nat, SerialException);
                (3%nat, SerialException)] 0%float in
  let s' := snd (dispatch_serial env 2 three_vports) in
  vports s' = vports three_vports /\
  bytes_from_device s' = 0 /\ bytes_to_device s' = 0.
Proof.
  intros env.
  refine (device_read_failure_leaves_endpoints env 2 three_vports
            (OSError EIO) (snd (read_device env three_vports)) _ _);
    reflexivity.
Defined.

(** ** Statistics *)

Lemma count_all p vs :
  Forall (fun v => p v = true) vs -> count p vs = Z.of_nat (length vs).
Proof.
  intros H. unfold count. f_equal.
  induction H as [|v vs Hv _ IH]; cbn; [done|]. by rewrite Hv, <- IH.
Qed.

Lemma count_bounds p vs : 0 <= count p vs <= Z.of_nat (length vs).
Proof.
  unfold count. pose proof (filter_length_le p vs). lia.
Qed.

Lemma count_among_alive vs :
  Forall (fun v => alive v = true) vs ->
  count (fun v => alive v && idle v) vs = count idle vs.
Proof.
  intros H. unfold count. f_equal.
  induction H as [|v vs Hv _ IH]; cbn; [done|].
  rewrite Hv. cbn. destruct (idle v); cbn; by rewrite IH.
Qed.

(** X13.  The statistics are taken right after the recovery sweep, so the
    record they log always reports every endpoint alive: the alive count
    equals the number of endpoints, and the idle count is the number of
    endpoints whose idle flag is set, between zero and the number of
    endpoints.  The record is logged, and [last_stats] moved to the clock
    reading, exactly when the clock reading less [last_stats] is at least
    60. *)
Theorem stats_report_every_endpoint_alive env s s1 :
  recreate_dead env s = (Ok tt, s1) ->
  let n := Z.of_nat (length (vports s1)) in
  let idle_count := count idle (vports s1) in
  let now := env_monotonic env (tick s1) in
  0 <= idle_count <= n /\
  log_stats env s1 =
    if PrimFloat.leb 60 (PrimFloat.sub now (last_stats s1))
    then (Ok tt,
          with_last_stats now
            (with_world (S (tick s1))
               (trace s1 ++
                  [EvMonotonic;
                   EvLog INFO (msg_stats (bytes_from_device s1)
                                 (bytes_to_device s1) n n idle_count)])
               s1))
    else (Ok tt, with_world (S (tick s1)) (trace s1 ++ [EvMonotonic]) s1).
Proof.
  intros Hsweep n idle_count now.
  pose proof (revived_all_alive _ _ (recreate_dead_revives _ _ _ Hsweep))
    as Halive.
  split; [apply count_bounds|].
  unfold log_stats. run. fold now.
  destruct (PrimFloat.leb 60 (PrimFloat.sub now (last_stats s1))); run;
    [|done].
  rewrite (count_all alive _ Halive), (count_among_alive _ Halive).
  fold n idle_count. by rewrite <- app_assoc.
Qed.

(** A minute has passed since the last record; the sweep has just
    replaced the dead endpoint on fd 10. *)
Lemma stats_report_every_endpoint_alive_witness :
  let env := scenario any_fd [] [] 100%float in
  let s1 :=
    mk_state 12
      [EvCall (os_close 10); EvLog INFO (msg_recreating "/dev/ttyV0");
       EvIslink "/dev/ttyV0"; EvCall (os_unlink "/dev/ttyV0");
       EvCall os_openpty; EvCall (tty_setraw 20); EvCall (tty_setraw 21);
       EvCall (os_ttyname 21); EvCall (os_chmod "/dev/pts/7" 438);
       EvCall (os_symlink "/dev/pts/7" "/dev/ttyV0"); EvCall (os_close 21);
       EvCall (fcntl_getfl 20); EvCall (fcntl_setfl 20 2050);
       EvLog INFO (msg_vport_created "/dev/ttyV0" "/dev/pts/7" 20)]
      3 [mk_vport 20 "/dev/ttyV0" "/dev/pts/7" true true] true 0 0 0%float in
  0 <= 1 <= 1 /\
  log_stats env s1 =
    (Ok tt,
     with_last_stats 100%float
       (with_world 13
          (trace s1 ++ [EvMonotonic; EvLog INFO (msg_stats 0 0 1 1 1)])
          s1)).
Proof.
  intros env s1.
  refine (stats_report_every_endpoint_alive env (one_vport false false) s1 _).
  vm_compute. reflexivity.
Defined.

(** ** A hang-up and the probe of the same pass *)

Lemma alter_fixed {A} (f : A -> A) (l : list A) i x :
  l !! i = Some x -> f x = x -> alter f i l = l.
Proof.
  intros Hx Hf. apply list_eq. intros j. destruct (decide (i = j)) as [<-|Hne].
  - by rewrite list_lookup_alter_eq, Hx; cbn; rewrite Hf.
  - by rewrite list_lookup_alter_ne.
Qed.

(** X14.  When the read of an active endpoint returns the empty string,
    the dispatch marks the endpoint idle, and the probe of the same
    endpoint then finds it alive and idle and reads one byte from it.  If
    that read returns (with data or with the empty string again) the
    endpoint is active once more: after the two steps the endpoint
    records are what they were before the hang-up. *)
Theorem hangup_then_probe_reactivates
    env fuel active_vports fd s i v d :
  find_vport (vports s) active_vports fd = Some i ->
  vports s !! i = Some v ->
  is_active v = true ->
  env_sys env (tick s) (os_read fd 4096) = inl [] ->
  env_sys env (S (tick s)) (os_read fd 1) = inl d ->
  (dispatch_vport env fuel active_vports fd ;; probe_one env i) s =
    (Ok Next,
     with_world (S (S (tick s)))
       (trace s ++ [EvCall (os_read fd 4096);
                    EvLog INFO (msg_eof (path v));
                    EvCall (os_read fd 1);
                    EvLog INFO (msg_client_connected (path v))]) s).
Proof.
  intros Hfind Hv Hact Heof Hd.
  destruct (find_vport_Some _ _ _ _ Hfind) as (_ & v0 & Hv0 & Hfd).
  rewrite Hv in Hv0. injection Hv0 as <-.
  apply andb_prop in Hact as [Ha Hi]. apply negb_true_iff in Hi.
  assert (dispatch_vport env fuel active_vports fd s =
          (Ok Next,
           with_vports (alter (set_idle true) i (vports s))
             (with_world (S (tick s))
                (trace s ++ [EvCall (os_read fd 4096);
                             EvLog INFO (msg_eof (path v))]) s))) as Hdis.
  { unfold dispatch_vport. run. rewrite Hfind, Hv. run. rewrite Heof. run.
    by rewrite <- !app_assoc. }
  unfold bind at 1. rewrite Hdis.
  rewrite (probe_one_run env _ i (set_idle true v))
    by (cbn; by rewrite list_lookup_alter_eq, Hv).
  cbn zeta. cbn [alive idle set_idle master_fd path tick trace vports
                 with_vports with_world].
  rewrite Ha, Hfd, Hd. cbn [andb]. unfold connected.
  cbn [alive idle set_idle master_fd path tick trace vports
       with_vports with_world ser registered bytes_from_device
       bytes_to_device last_stats].
  rewrite list_alter_alter_eq, <- !app_assoc. cbn [app].
  rewrite (alter_fixed _ (vports s) i v Hv); [rewrite Hfd; by destruct s|].
  unfold compose. destruct v. cbn in *. by subst.
Qed.

(** The client of the active endpoint on fd 11 hangs up and both reads
    return the empty string. *)
Lemma hangup_then_probe_reactivates_witness :
  let env := scenario any_fd [] [] 0%float in
  (dispatch_vport env 1 [1%nat] 11 ;; probe_one env 1) three_vports =
    (Ok Next,
     with_world 2
       [EvCall (os_read 11 4096); EvLog INFO (msg_eof "/dev/ttyV1");
        EvCall (os_read 11 1);
        EvLog INFO (msg_client_connected "/dev/ttyV1")] three_vports).
Proof.
  intros env.
  refine (hangup_then_probe_reactivates env 1 [1%nat] 11 three_vports 1%nat
            (mk_vport 11 "/dev/ttyV1" "/dev/pts/6" true false) [] _ _ _ _ _);
    reflexivity.
Defined.

(** ** Which endpoints the dispatch reads *)

Lemma keeps_weaken {A} (I : State -> Prop) (P P' : event -> Prop) (m : M A) :
  keeps I P m -> (forall ev, P ev -> P' ev) -> keeps I P' m.
Proof.
  intros Hm HP s HI r s' H. destruct (Hm s HI r s' H) as (HI' & tr & Htr & HF).
  split; [done|]. exists tr. split; [done|].
  eapply Forall_impl; [exact HF|exact HP].
Qed.

Lemma open_serial_opening env (Inv : State -> Prop) fuel port baud :
  timeless Inv -> keeps Inv opening (open_serial env fuel port baud).
Proof.
  intros Htl.
  induction fuel as [|fuel IH]; cbn [open_serial]; [apply keeps_spin|].
  apply keeps_bind.
  - unfold open_serial_attempt.
    keeps_steps Htl ltac:(first [exact Logic.I | assumption | idtac]).
  - intros [h|]; [apply keeps_ret|apply IH].
Qed.

Section DispatchReads.

Context (env : Env) (fuel : nat) (ser_fd : Z) (active_vports : list nat).
Context (fds0 F : list Z).

Hypothesis active_in_F :
  forall i fd, i ∈ active_vports -> fds0 !! i = Some fd -> fd ∈ F.

(** The controller handles of the list are [fds0]. *)
Let same_fds (s : State) : Prop := master_fd <$> vports s = fds0.

Lemma same_fds_timeless : timeless same_fds.
Proof. intros t tr s H. exact H. Qed.

Lemma same_fds_alter f i s :
  (forall v, master_fd (f v) = master_fd v) ->
  same_fds s -> same_fds (with_vports (alter f i (vports s)) s).
Proof.
  intros Hf Hs. unfold same_fds in *. cbn.
  rewrite (list_fmap_alter master_fd f id)
    by (apply Forall_forall; intros v _; apply Hf).
  by rewrite list_alter_id.
Qed.

Ltac fds_side :=
  first
    [ exact Logic.I
    | assumption
    | apply same_fds_alter; [by intros []|assumption]
    | match goal with H : same_fds _ |- same_fds _ => exact H end
    | idtac ].

Ltac fds_steps := keeps_steps same_fds_timeless fds_side.

Lemma reconnect_reads m e :
  keeps same_fds (reads_within F) (reconnect env fuel m e).
Proof.
  unfold reconnect. fds_steps.
  eapply keeps_weaken; [apply open_serial_opening, same_fds_timeless|].
  by intros [[]| | | |].
Qed.

Lemma broadcast_reads data :
  keeps same_fds (reads_within F) (broadcast env data).
Proof. unfold broadcast, broadcast_one. fds_steps. Qed.

Lemma dispatch_fd_reads fd :
  keeps same_fds (reads_within F)
    (dispatch_fd env fuel ser_fd active_vports fd).
Proof using active_in_F.
  unfold dispatch_fd. destruct (fd =? ser_fd).
  - unfold dispatch_serial, read_device. fds_steps;
      first [apply reconnect_reads|apply broadcast_reads].
  - unfold dispatch_vport. fds_steps; try apply reconnect_reads.
    cbn.
    match goal with
    | Hf : find_vport _ _ _ = Some ?i, HI : same_fds _ |- _ =>
        apply find_vport_Some in Hf as (Hin & v & Hv & Hfd);
        apply (active_in_F i); [done|];
        by rewrite <- HI, list_lookup_fmap, Hv; cbn; rewrite Hfd
    end.
Qed.

End DispatchReads.

(** X15.  During the dispatch step, [os.read] is only called on the
    controller handle of an endpoint that was alive and not idle when the
    pass built its list of active endpoints: whatever [select] reports as
    readable, an idle or dead endpoint of that moment is not read. *)
Theorem dispatch_reads_only_active_endpoints env fuel ser_fd s readable :
  let active_vports := select_refs is_active (vports s) in
  exists tr,
    trace (snd (for_each readable
                  (dispatch_fd env fuel ser_fd active_vports) s))
      = trace s ++ tr /\
    Forall (reads_within (master_fd <$> List.filter is_active (vports s))) tr.
Proof.
  intros active_vports.
  destruct (for_each readable (dispatch_fd env fuel ser_fd active_vports) s)
    as [r s'] eqn:H. cbn [snd].
  assert (keeps (fun s0 => master_fd <$> vports s0 = master_fd <$> vports s)
            (reads_within (master_fd <$> List.filter is_active (vports s)))
            (for_each readable (dispatch_fd env fuel ser_fd active_vports)))
    as Hk.
  { apply keeps_for_each. intros fd.
    apply (dispatch_fd_reads env fuel ser_fd active_vports
             (master_fd <$> vports s)).
    intros i fd' Hi Hfd.
    rewrite <- (select_refs_deref master_fd is_active (vports s)).
    apply list_elem_of_omap. exists i. split; [done|].
    by rewrite <- list_lookup_fmap. }
  by destruct (Hk s eq_refl r s' H) as (_ & Htr).
Qed.

(** ** What a creation does *)

(** X16.  When [create_vport] returns, it has, in this order: looked
    whether the path is a symlink and removed it only if so; opened a
    pseudo-terminal pair; put both sides in raw mode; made the peer's
    device node world-accessible (mode 0o666); published the path as a
    symlink to the peer's name; closed its own handle of the peer; and set
    O_NONBLOCK on the controller handle, leaving every other flag of that
    handle as [fcntl] read it.  The record it returns holds the controller
    handle that [os.openpty] gave, the path and the name that
    [os.ttyname] gave for the peer, alive and idle. *)
Theorem create_vport_publishes env p s v s' :
  create_vport env p s = (Ok v, s') ->
  exists slave flags,
    v = mk_vport (master_fd v) p (slave_name v) true true /\
    env_sys env (tick s' - 9)%nat os_openpty = inl (master_fd v, slave) /\
    env_sys env (tick s' - 6)%nat (os_ttyname slave) = inl (slave_name v) /\
    env_sys env (tick s' - 2)%nat (fcntl_getfl (master_fd v)) = inl flags /\
    trace s' =
      trace s ++
        EvIslink p ::
        (if env_islink env (tick s) p then [EvCall (os_unlink p)] else []) ++
        [EvCall os_openpty;
         EvCall (tty_setraw (master_fd v));
         EvCall (tty_setraw slave);
         EvCall (os_ttyname slave);
         EvCall (os_chmod (slave_name v) 438);
         EvCall (os_symlink (slave_name v) p);
         EvCall (os_close slave);
         EvCall (fcntl_getfl (master_fd v));
         EvCall (fcntl_setfl (master_fd v) (Z.lor flags O_NONBLOCK));
         EvLog INFO (msg_vport_created p (slave_name v) (master_fd v))] /\
    forall k, Z.testbit (Z.lor flags O_NONBLOCK) k
              = Z.testbit flags k || (k =? 11).
Proof. apply create_vport_returns. Qed.

(** The path is a stale symlink and every call succeeds. *)
Lemma create_vport_publishes_witness :
  let env := scenario any_fd [] [] 0%float in
  let s' := snd (create_vport env "/dev/ttyV0" boot) in
  exists slave flags,
    mk_vport 20 "/dev/ttyV0" "/dev/pts/7" true true =
      mk_vport 20 "/dev/ttyV0" "/dev/pts/7" true true /\
    env_sys env (tick s' - 9)%nat os_openpty = inl (20, slave) /\
    env_sys env (tick s' - 6)%nat (os_ttyname slave)
      = inl "/dev/pts/7"%string /\
    env_sys env (tick s' - 2)%nat (fcntl_getfl 20) = inl flags /\
    trace s' =
      EvIslink "/dev/ttyV0" ::
      [EvCall (os_unlink "/dev/ttyV0")] ++
      [EvCall os_openpty; EvCall (tty_setraw 20); EvCall (tty_setraw slave);
       EvCall (os_ttyname slave); EvCall (os_chmod "/dev/pts/7" 438);
       EvCall (os_symlink "/dev/pts/7" "/dev/ttyV0");
       EvCall (os_close slave); EvCall (fcntl_getfl 20);
       EvCall (fcntl_setfl 20 (Z.lor flags O_NONBLOCK));
       EvLog INFO (msg_vport_created "/dev/ttyV0" "/dev/pts/7" 20)] /\
    forall k, Z.testbit (Z.lor flags O_NONBLOCK) k
              = Z.testbit flags k || (k =? 11).
Proof.
  intros env s'.
  refine (create_vport_publishes env "/dev/ttyV0" boot
            (mk_vport 20 "/dev/ttyV0" "/dev/pts/7" true true) s' _).
  vm_compute. reflexivity.
Defined.

(** X17.  [create_vport] handles no error.  It returns only when every
    call it made was answered without an exception, and the log record of
    line 54 is then the last thing it did.  When one of its calls raises,
    that exception is what [create_vport] raises, the failing call is the
    last thing it did (nothing is undone or closed afterwards), the calls
    before it were answered, and nothing was logged. *)
Theorem create_vport_passes_errors_on env p s :
  match create_vport env p s with
  | (Ok v, s') =>
      exists tr0,
        trace s' =
          trace s ++ tr0 ++
            [EvLog INFO (msg_vport_created p (slave_name v) (master_fd v))] /\
        tick s' = (tick s + length tr0)%nat /\
        logs_of tr0 = [] /\ answered env (tick s) tr0
  | (Raise e, s') =>
      exists tr0 c,
        trace s' = trace s ++ tr0 ++ [EvCall c] /\
        tick s' = S (tick s + length tr0) /\
        logs_of tr0 = [] /\ answered env (tick s) tr0 /\
        env_sys env (tick s + length tr0) c = inr e
  | (Spin, _) => False
  end.
Proof.
  destruct (create_vport env p s) as [r s'] eqn:H.
  exact (create_vport_passes env p s r s' H).
Qed.

(** ** A sweep that does not get to its end *)

Lemma swept_trans v1 v2 v3 : swept v1 v2 -> swept v2 v3 -> swept v1 v3.
Proof.
  intros [->|(Ha & Hp & Hf)] [->|(Ha' & Hp' & Hf')].
  - by left.
  - right. split; [|split]; assumption.
  - right. split; [|split]; assumption.
  - destruct Hf as [Hf _]. congruence.
Qed.

Lemma swept_insert vs i v v' :
  vs !! i = Some v -> swept v v' -> Forall2 swept vs (<[i:=v']> vs).
Proof.
  intros Hv Hs. apply Forall2_same_length_lookup_2; [by rewrite length_insert|].
  intros j x y Hx Hy. destruct (decide (i = j)) as [<-|Hne].
  - rewrite list_lookup_insert_eq in Hy by (by eapply lookup_lt_Some).
    by simplify_eq.
  - rewrite list_lookup_insert_ne in Hy by done. simplify_eq. by left.
Qed.

Lemma recreate_one_swept env i s r s' :
  recreate_one env i s = (r, s') -> Forall2 swept (vports s) (vports s').
Proof.
  unfold recreate_one. unfold bind at 1, get.
  destruct (vports s !! i) as [v|] eqn:Hv;
    [|intros [= <- <-]; apply swept_refl].
  destruct (alive v) eqn:Ha; cbn [negb];
    [intros [= <- <-]; apply swept_refl|].
  intros H.
  apply bind_cases in H as [(v' & s1 & Hre & H)|[(e & Hre & _)|[Hre _]]];
    destruct (world_only_recreate_vport _ _ _ _ _ Hre) as (t & tr & ->);
    [|apply swept_refl|apply swept_refl].
  apply recreate_vport_shape in Hre as (_ & Hp & Ha' & Hi').
  revert H. run. intros [= <- <-]. cbn.
  apply (swept_insert _ _ v); [done|]. right. split; [done|]. by split.
Qed.

Lemma recreate_loop_swept env refs s r s' :
  for_each refs (recreate_one env) s = (r, s') ->
  Forall2 swept (vports s) (vports s').
Proof.
  apply (for_each_rel (fun s0 s1 => Forall2 swept (vports s0) (vports s1))).
  - intros s0. apply swept_refl.
  - intros s1 s2 s3 H1 H2.
    eapply Forall2_trans; [apply swept_trans|exact H1|exact H2].
  - intros x. apply recreate_one_swept.
Qed.

(** X18.  However the recovery sweep ends, also when a rebuild raises in
    the middle of it, every record of the list is either exactly what it
    was or, if it was dead, a fresh record (alive, idle) at the same path:
    an alive endpoint is never touched and no record is left half
    updated. *)
Theorem sweep_replaces_or_leaves env s :
  Forall2 swept (vports s) (vports (snd (recreate_dead env s))).
Proof.
  destruct (recreate_dead env s) as [r s'] eqn:H. cbn [snd].
  revert H. unfold recreate_dead. unfold bind at 1, get. intros H.
  apply bind_cases in H as [([] & s1 & Hfor & H)|[(e & Hfor & _)|[Hfor _]]].
  - injection H as <- <-. by apply recreate_loop_swept in Hfor.
  - by apply recreate_loop_swept in Hfor.
  - by apply recreate_loop_swept in Hfor.
Qed.
